(** * Content extraction and sanitization engine of the reading assistant

    A shallow embedding of [ContentExtractor] (src/utils/dom-utils.js):
    the three-stage locator ([extractMainContent]) and the sanitizer
    ([cleanContent]), over a small model of the DOM; of
    [ReadingModeManager] of the same file, which shows the sanitised
    content in a container of its own and keeps the theme, size and
    spacing classes of the document element; and of the setters and
    cycles of [ReadingAssistantController] (the content script), which
    drive it.

    Conventions of the embedding.
    - A JavaScript string is a [string]; every [ascii] stands for one
      UTF-16 code unit (the model covers the code units U+0000..U+00FF),
      so [String.length] is the [.length] of the source.
    - [null] is [None]; [!x] on a reference is [isNull].
    - Lengths are natural numbers, differences of lengths are integers
      ([Z]) and the two divisions of the source are taken in the
      rationals ([Q]).  The source divides in double precision; for
      lengths and element counts below 2^26 two quotients are equal, or
      ordered, as doubles exactly when they are as rationals, and so are
      a quotient and the constants 25 and 0.5.
    - Elements carry an identity ([nat]); the live document and the
      detached trees form a [heap], and the operations that mutate the
      DOM act on the heap through the identity of their receiver. *)

From Stdlib Require Import List String Ascii Bool Arith ZArith QArith Lia.
Import ListNotations.

Local Open Scope string_scope.
Local Open Scope nat_scope.
Local Open Scope list_scope.

(* ================================================================== *)
(** * Strings *)

Module Str.

(** White space of [String.prototype.trim] among U+0000..U+00FF:
    TAB, LF, VT, FF, CR, SP and NBSP. *)
Definition isWhiteSpace (c : ascii) : bool :=
  let n := nat_of_ascii c in
  (n =? 9) || (n =? 10) || (n =? 11) || (n =? 12) || (n =? 13)
  || (n =? 32) || (n =? 160).

(** ASCII white space of the DOM standard (separates class names). *)
Definition isAsciiWhitespace (c : ascii) : bool :=
  let n := nat_of_ascii c in
  (n =? 9) || (n =? 10) || (n =? 12) || (n =? 13) || (n =? 32).

Definition isEmpty (s : string) : bool :=
  match s with EmptyString => true | String _ _ => false end.

Fixpoint trimStart (s : string) : string :=
  match s with
  | EmptyString => EmptyString
  | String c s' => if isWhiteSpace c then trimStart s' else s
  end.

Fixpoint trimEnd (s : string) : string :=
  match s with
  | EmptyString => EmptyString
  | String c s' =>
      let r := trimEnd s' in
      if isWhiteSpace c && isEmpty r then EmptyString else String c r
  end.

(** [s.trim()] *)
Definition trim (s : string) : string := trimEnd (trimStart s).

(** [s.includes(sub)] *)
Fixpoint includes (sub s : string) : bool :=
  String.prefix sub s
  || match s with
     | EmptyString => false
     | String _ s' => includes sub s'
     end.

(** Splitting on ASCII white space, as for the [class] attribute. *)
Fixpoint tokensFrom (cur s : string) : list string :=
  match s with
  | EmptyString => if isEmpty cur then [] else [cur]
  | String c s' =>
      if isAsciiWhitespace c
      then (if isEmpty cur then tokensFrom EmptyString s'
            else cur :: tokensFrom EmptyString s')
      else tokensFrom (cur ++ String c EmptyString)%string s'
  end.

Definition tokens (s : string) : list string := tokensFrom EmptyString s.

Definition toLowerChar (c : ascii) : ascii :=
  let n := nat_of_ascii c in
  if (65 <=? n) && (n <=? 90) then ascii_of_nat (n + 32) else c.

(** ASCII lower-casing. *)
Fixpoint toLower (s : string) : string :=
  match s with
  | EmptyString => EmptyString
  | String c s' => String (toLowerChar c) (toLower s')
  end.

(** [n] copies of [s]; used to build texts of a given length. *)
Fixpoint times (n : nat) (s : string) : string :=
  match n with
  | O => EmptyString
  | S n' => (s ++ times n' s)%string
  end.

End Str.

(* ================================================================== *)
(** * The DOM *)

Definition attribute : Type := string * string.

(** A node is an element (identity, local name, attribute list, child
    nodes) or a text node. *)
#[warnings="-register-all"]
Inductive node : Type :=
| Element (id : nat) (localName : string) (attributes : list attribute)
          (childNodes : list node)
| Text (data : string).

Definition nodeId (n : node) : nat :=
  match n with Element i _ _ _ => i | Text _ => 0 end.

Definition nodeName (n : node) : string :=
  match n with Element _ t _ _ => t | Text _ => "#text" end.

Definition nodeAttributes (n : node) : list attribute :=
  match n with Element _ _ a _ => a | Text _ => [] end.

Definition children (n : node) : list node :=
  match n with Element _ _ _ cs => cs | Text _ => [] end.

Definition isElement (n : node) : bool :=
  match n with Element _ _ _ _ => true | Text _ => false end.

(** The elements of the subtree of [n], [n] included, in document order. *)
Fixpoint elementsOf (n : node) : list node :=
  match n with
  | Element _ _ _ cs => n :: flat_map elementsOf cs
  | Text _ => []
  end.

(** The nodes of the subtree of [n], [n] included, in document order. *)
Fixpoint nodesOf (n : node) : list node :=
  match n with
  | Element _ _ _ cs => n :: flat_map nodesOf cs
  | Text _ => [n]
  end.

(** The element descendants of a list of sibling nodes. *)
Definition elementsIn (ns : list node) : list node := flat_map elementsOf ns.

(** The element descendants of [n] ([n] itself is not one of them). *)
Definition descendants (n : node) : list node := elementsIn (children n).

(** [node.textContent]: the data of the text descendants, concatenated. *)
Fixpoint textContent (n : node) : string :=
  match n with
  | Element _ _ _ cs => String.concat "" (map textContent cs)
  | Text d => d
  end.

(** ** Attributes *)

(** [el.getAttribute(name)] *)
Fixpoint getAttribute (name : string) (attrs : list attribute) : option string :=
  match attrs with
  | [] => None
  | (k, v) :: rest => if (k =? name)%string then Some v else getAttribute name rest
  end.

(** [el.removeAttribute(name)] on the attribute list. *)
Definition removeAttr (name : string) (attrs : list attribute) : list attribute :=
  filter (fun a => negb (fst a =? name)%string) attrs.

(** [el.setAttribute(name, value)] on the attribute list: the value of an
    attribute that is present is replaced, a new attribute is appended. *)
Fixpoint setAttr (name value : string) (attrs : list attribute) : list attribute :=
  match attrs with
  | [] => [(name, value)]
  | (k, v) :: rest =>
      if (k =? name)%string then (k, value) :: rest
      else (k, v) :: setAttr name value rest
  end.

(** ** Selectors *)

(** The selectors the source uses: a type selector ([article]), a class
    ([.content]), an id ([#content]), an attribute with a value
    ([[role="main"]]), an attribute containing a substring
    ([[class*="ad-"]]) and the universal selector ([*]). *)
Inductive simpleSelector : Type :=
| TypeSel (localName : string)
| ClassSel (className : string)
| IdSel (ident : string)
| AttrEq (name value : string)
| AttrSub (name value : string)
| Universal.

(** A selector list, as in ['div, section, main']. *)
Definition selector : Type := list simpleSelector.

Definition matchesParts (s : simpleSelector) (tag : string)
  (attrs : list attribute) : bool :=
  match s with
  | TypeSel t => (tag =? t)%string
  | ClassSel c =>
      match getAttribute "class" attrs with
      | Some v => existsb (fun k => (k =? c)%string) (Str.tokens v)
      | None => false
      end
  | IdSel i =>
      match getAttribute "id" attrs with
      | Some v => (v =? i)%string
      | None => false
      end
  | AttrEq a x =>
      match getAttribute a attrs with
      | Some v => (v =? x)%string
      | None => false
      end
  | AttrSub a x =>
      match getAttribute a attrs with
      | Some v => negb (Str.isEmpty x) && Str.includes x v
      | None => false
      end
  | Universal => true
  end.

Definition matchesSimple (s : simpleSelector) (n : node) : bool :=
  isElement n && matchesParts s (nodeName n) (nodeAttributes n).

(** [el.matches(selector)] *)
Definition matches (sel : selector) (n : node) : bool :=
  existsb (fun s => matchesSimple s n) sel.

(** [root.querySelectorAll(selector)] where [ns] are the child nodes of
    [root] (an element or the document): the matching element
    descendants in document order. *)
Definition querySelectorAllIn (ns : list node) (sel : selector) : list node :=
  filter (matches sel) (elementsIn ns).

(** [element.querySelectorAll(selector)] *)
Definition querySelectorAll (element : node) (sel : selector) : list node :=
  querySelectorAllIn (children element) sel.

(** [root.querySelector(selector)]: the first match in document order. *)
Definition querySelectorIn (ns : list node) (sel : selector) : option node :=
  hd_error (querySelectorAllIn ns sel).

Definition isNull {A : Type} (x : option A) : bool :=
  match x with None => true | Some _ => false end.

(* ================================================================== *)
(** * The heap of DOM trees and the operations that mutate it *)

(** The live objects: the child nodes of the document, and the roots of
    the trees that are not attached to it (clones).  [nextId] is the
    identity the next element created will receive. *)
Record heap : Type := mkHeap {
  nextId : nat;
  documentNodes : list node;
  detachedTrees : list node
}.

(** Computations on the heap.  [None] is a computation that is stuck on
    a reference that denotes no element of the heap. *)
Definition M (A : Type) : Type := heap -> option (A * heap).

Definition ret {A : Type} (a : A) : M A := fun h => Some (a, h).

Definition bind {A B : Type} (m : M A) (k : A -> M B) : M B :=
  fun h => match m h with
           | Some (a, h') => k a h'
           | None => None
           end.

Declare Scope dom_scope.
Delimit Scope dom_scope with dom.
Notation "x <- m ;; k" := (bind m (fun x => k))
  (at level 61, m at next level, right associativity) : dom_scope.
Notation "m ;; k" := (bind m (fun _ => k))
  (at level 61, right associativity) : dom_scope.

Local Open Scope dom_scope.

(** [list.forEach(f)] *)
Fixpoint forEach {A : Type} (l : list A) (f : A -> M unit) : M unit :=
  match l with
  | [] => ret tt
  | x :: rest => f x ;; forEach rest f
  end.

Definition hasId (r : nat) (n : node) : bool :=
  isElement n && (nodeId n =? r).

(** The element a reference denotes. *)
Definition resolve (r : nat) (h : heap) : option node :=
  find (hasId r) (elementsIn (documentNodes h ++ detachedTrees h)).

Definition deref (r : nat) : M node :=
  fun h => match resolve r h with
           | Some n => Some (n, h)
           | None => None
           end.

(** ** Pure counterparts of the mutations, on one tree *)

(** The deep copy of [n], its elements numbered from [next] on in
    document order, and the first identity left unused. *)
Fixpoint cloneTree (n : node) (next : nat) : node * nat :=
  match n with
  | Text d => (Text d, next)
  | Element _ t a cs =>
      let '(cs', next') :=
        (fix cloneList (l : list node) (nx : nat) : list node * nat :=
           match l with
           | [] => ([], nx)
           | c :: l' =>
               let '(c', nx1) := cloneTree c nx in
               let '(l'', nx2) := cloneList l' nx1 in
               (c' :: l'', nx2)
           end) cs (S next) in
      (Element next t a cs', next')
  end.

(** The inner loop of [cloneTree], on a list of sibling nodes. *)
Fixpoint cloneList (l : list node) (nx : nat) : list node * nat :=
  match l with
  | [] => ([], nx)
  | c :: l' =>
      let '(c', nx1) := cloneTree c nx in
      let '(l'', nx2) := cloneList l' nx1 in
      (c' :: l'', nx2)
  end.

(** Detaching the element [r] from its parent, inside the tree [n]; the
    root of a tree has no parent and stays. *)
Fixpoint prune (r : nat) (n : node) : node :=
  match n with
  | Element i t a cs =>
      Element i t a (filter (fun c => negb (hasId r c)) (map (prune r) cs))
  | Text d => Text d
  end.

(** The same among the child nodes of the document. *)
Definition pruneForest (r : nat) (ns : list node) : list node :=
  filter (fun c => negb (hasId r c)) (map (prune r) ns).

(** Applying [f] to the attribute list of the element [r] inside [n]. *)
Fixpoint updateAttrs (r : nat) (f : list attribute -> list attribute)
  (n : node) : node :=
  match n with
  | Element i t a cs =>
      Element i t (if i =? r then f a else a) (map (updateAttrs r f) cs)
  | Text d => Text d
  end.

(** ** The DOM operations of the source *)

(** [node.cloneNode(true)]: the copy is a new detached tree. *)
Definition cloneNode (r : nat) : M nat :=
  fun h => match resolve r h with
           | Some n =>
               let '(n', next') := cloneTree n (nextId h) in
               Some (nodeId n',
                     mkHeap next' (documentNodes h) (detachedTrees h ++ [n']))
           | None => None
           end.

(** [el.querySelectorAll(selector)], a static list of references. *)
Definition querySelectorAllRefs (r : nat) (sel : selector) : M (list nat) :=
  n <- deref r ;; ret (map nodeId (querySelectorAll n sel)).

(** [el.remove()]: the element leaves the child nodes of its parent.  The
    subtree taken out is not kept in the heap: after the removal the
    source holds it only in the list it is iterating, and calls nothing
    but [remove] on the elements of that list. *)
Definition remove (r : nat) : M unit :=
  fun h => Some (tt, mkHeap (nextId h)
                            (pruneForest r (documentNodes h))
                            (map (prune r) (detachedTrees h))).

Definition modifyAttrs (r : nat) (f : list attribute -> list attribute)
  : M unit :=
  fun h => Some (tt, mkHeap (nextId h)
                            (map (updateAttrs r f) (documentNodes h))
                            (map (updateAttrs r f) (detachedTrees h))).

(** [Array.from(el.attributes)] *)
Definition attributesOf (r : nat) : M (list attribute) :=
  n <- deref r ;; ret (nodeAttributes n).

(** [el.removeAttribute(name)] *)
Definition removeAttribute (r : nat) (name : string) : M unit :=
  modifyAttrs r (removeAttr name).

(** [el.setAttribute(name, value)] *)
Definition setAttribute (r : nat) (name value : string) : M unit :=
  modifyAttrs r (setAttr name value).

(** [img.loading]: the IDL attribute reflects the content attribute
    limited to its known values, [lazy] and [eager], and [eager] is the
    default for a missing or an unknown value (HTML standard). *)
Definition loadingOf (attrs : list attribute) : string :=
  match getAttribute "loading" attrs with
  | Some v => if (Str.toLower v =? "lazy")%string then "lazy" else "eager"
  | None => "eager"
  end.

Definition getLoading (r : nat) : M string :=
  n <- deref r ;; ret (loadingOf (nodeAttributes n)).

(** [img.alt]: reflects the content attribute, the empty string when it
    is missing. *)
Definition altOf (attrs : list attribute) : string :=
  match getAttribute "alt" attrs with
  | Some v => v
  | None => ""
  end.

Definition getAlt (r : nat) : M string :=
  n <- deref r ;; ret (altOf (nodeAttributes n)).

(** ** TreeWalker *)

(** A [TreeWalker] on the elements of a subtree: [currentNode] and the
    nodes that follow it in document order inside the subtree of the
    root.  A new walker stands on its root. *)
Record treeWalker : Type := mkWalker {
  currentNode : nat;
  following : list node
}.

(** [document.createTreeWalker(root, NodeFilter.SHOW_ELEMENT, null, false)] *)
Definition createTreeWalker (root : nat) : M treeWalker :=
  n <- deref root ;; ret (mkWalker root (flat_map nodesOf (children n))).

(** [walker.nextNode()]: moves to the next element after [currentNode]
    and returns it, [None] when there is none. *)
Fixpoint nextElement (l : list node) : option (nat * list node) :=
  match l with
  | [] => None
  | Element i _ _ _ :: rest => Some (i, rest)
  | Text _ :: rest => nextElement rest
  end.

Definition nextNode (w : treeWalker) : option nat * treeWalker :=
  match nextElement (following w) with
  | Some (i, rest) => (Some i, mkWalker i rest)
  | None => (None, w)
  end.

(* ================================================================== *)
(** * ContentExtractor: the locator and the sanitizer *)

Module ContentExtractor.

Definition contentSelectors : list selector :=
  [ [TypeSel "article"];
    [AttrEq "role" "main"];
    [ClassSel "post-content"];
    [ClassSel "entry-content"];
    [ClassSel "article-content"];
    [ClassSel "content"];
    [ClassSel "main-content"];
    [IdSel "content"];
    [ClassSel "post-body"];
    [ClassSel "article-body"] ].

Definition noiseSelectors : list selector :=
  [ [TypeSel "header"]; [TypeSel "nav"]; [TypeSel "aside"]; [TypeSel "footer"];
    [ClassSel "advertisement"]; [ClassSel "ads"]; [ClassSel "sidebar"];
    [ClassSel "social-share"]; [ClassSel "comments"]; [ClassSel "related-posts"];
    [ClassSel "popup"]; [ClassSel "modal"]; [ClassSel "overlay"];
    [AttrSub "class" "ad-"]; [AttrSub "id" "ad-"];
    [AttrSub "class" "banner"]; [AttrSub "class" "promo"];
    [ClassSel "cookie-notice"]; [ClassSel "newsletter"];
    [ClassSel "share-buttons"]; [ClassSel "social-buttons"] ].

Definition textDensityThreshold : Q := 25 # 1.

(** [a > b] on numbers. *)
Definition gtQ (a b : Q) : bool := negb (Qle_bool a b).

(** [element.textContent.trim().length] *)
Definition trimmedTextLength (element : node) : nat :=
  String.length (Str.trim (textContent element)).

(** [Array.from(element.querySelectorAll('a'))
      .reduce((sum, link) => sum + link.textContent.length, 0)] *)
Definition linkTextLength (element : node) : nat :=
  fold_left (fun sum link => sum + String.length (textContent link))
            (querySelectorAll element [TypeSel "a"]) 0.

(** [element.querySelectorAll('*').length] *)
Definition tagCount (element : node) : nat :=
  List.length (querySelectorAll element [Universal]).

Definition calculateTextDensity (element : node) : Q :=
  let textLength := trimmedTextLength element in
  let linkLength := linkTextLength element in
  let textDensity := (Z.of_nat textLength - Z.of_nat linkLength)%Z in
  let tagCount := tagCount element in
  if 0 <? tagCount
  then (inject_Z textDensity / inject_Z (Z.of_nat tagCount))%Q
  else 0%Q.

Definition isValidContent (element : option node) : bool :=
  match element with
  | None => false
  | Some element =>
      let text := Str.trim (textContent element) in
      if String.length text <? 100 then false
      else
        let linkTextLength := linkTextLength element in
        let linkRatio :=
          (inject_Z (Z.of_nat linkTextLength)
           / inject_Z (Z.of_nat (String.length text)))%Q in
        if gtQ linkRatio (1 # 2) then false else true
  end.

(** The loop of [findContentBySelectors] over the selectors left. *)
Fixpoint findContentBySelectorsFrom (doc : list node)
  (selectors : list selector) : option node :=
  match selectors with
  | [] => None
  | selector :: rest =>
      let element := querySelectorIn doc selector in
      if negb (isNull element) && isValidContent element
      then element
      else findContentBySelectorsFrom doc rest
  end.

Definition findContentBySelectors (doc : list node) : option node :=
  findContentBySelectorsFrom doc contentSelectors.

(** One turn of the [forEach] of [findContentByTextDensity] on the pair
    [(bestCandidate, bestScore)]. *)
Definition densityStep (best : option node * Q) (element : node)
  : option node * Q :=
  let score := calculateTextDensity element in
  if gtQ score (snd best) && gtQ score textDensityThreshold
  then (Some element, score)
  else best.

Definition densityCandidates (doc : list node) : list node :=
  querySelectorAllIn doc [TypeSel "div"; TypeSel "section"; TypeSel "main"].

Definition findContentByTextDensity (doc : list node) : option node :=
  fst (fold_left densityStep (densityCandidates doc) (None, 0%Q)).

(** One turn of the [forEach] of [findLargestTextBlock] on the pair
    [(largestElement, maxTextLength)]. *)
Definition largestStep (best : option node * nat) (element : node)
  : option node * nat :=
  let textLength := trimmedTextLength element in
  if (snd best <? textLength) && isValidContent (Some element)
  then (Some element, textLength)
  else best.

Definition allElements (doc : list node) : list node :=
  querySelectorAllIn doc [Universal].

Definition findLargestTextBlock (doc : list node) : option node :=
  fst (fold_left largestStep (allElements doc) (None, 0)).

(** The stages of the cascade, to record which of them were run. *)
Inductive stage : Type := Stage1 | Stage2 | Stage3.

(** [extractMainContent] together with the stages it evaluated. *)
Definition extractMainContentRun (doc : list node)
  : option node * list stage :=
  let content := findContentBySelectors doc in
  let ran := [Stage1] in
  let '(content, ran) :=
    if isNull content
    then (findContentByTextDensity doc, ran ++ [Stage2])
    else (content, ran) in
  let '(content, ran) :=
    if isNull content
    then (findLargestTextBlock doc, ran ++ [Stage3])
    else (content, ran) in
  (content, ran).

Definition extractMainContent (doc : list node) : option node :=
  fst (extractMainContentRun doc).

(** ** The sanitizer *)

Definition allowedAttributes : list string := ["src"; "alt"; "href"; "title"].

(** [allowedAttributes.includes(name)] *)
Definition isAllowed (name : string) : bool :=
  existsb (fun a => (a =? name)%string) allowedAttributes.

(** The loop [while (node = walker.nextNode()) elements.push(node)], for
    at most [fuel] turns. *)
Fixpoint collectNodes (fuel : nat) (walker : treeWalker) : list nat :=
  match fuel with
  | O => []
  | S fuel' =>
      match nextNode walker with
      | (Some node, walker') => node :: collectNodes fuel' walker'
      | (None, _) => []
      end
  end.

Definition cleanAttributes (element : nat) : M unit :=
  walker <- createTreeWalker element ;;
  let elements := collectNodes (S (List.length (following walker))) walker in
  forEach elements (fun el =>
    attributes <- attributesOf el ;;
    forEach attributes (fun attr =>
      if negb (isAllowed (fst attr))
      then removeAttribute el (fst attr)
      else ret tt)).

(** The placeholder text of an image without [alt] (two characters,
    written here as their UTF-8 bytes: only its being non-empty is used). *)
Definition defaultAlt : string := "图片".

Definition optimizeImages (element : nat) : M unit :=
  images <- querySelectorAllRefs element [TypeSel "img"] ;;
  forEach images (fun img =>
    loading <- getLoading img ;;
    (if Str.isEmpty loading then setAttribute img "loading" "lazy"
     else ret tt) ;;
    alt <- getAlt img ;;
    (if Str.isEmpty alt then setAttribute img "alt" defaultAlt
     else ret tt) ;;
    removeAttribute img "style").

Definition removeNoise (cleanedContent : nat) : M unit :=
  forEach noiseSelectors (fun selector =>
    elements <- querySelectorAllRefs cleanedContent selector ;;
    forEach elements (fun el => remove el)).

Definition cleanContent (content : option nat) : M (option nat) :=
  match content with
  | None => ret None
  | Some content =>
      cleanedContent <- cloneNode content ;;
      removeNoise cleanedContent ;;
      cleanAttributes cleanedContent ;;
      optimizeImages cleanedContent ;;
      ret (Some cleanedContent)
  end.

End ContentExtractor.

Import ContentExtractor.

(* ================================================================== *)
(** * Notions used in the statements and in the proofs *)

(** ** Induction on nodes *)

(** The induction principle that gives the hypothesis on every child. *)
Fixpoint node_rect' (P : node -> Prop)
  (HE : forall i t a cs, Forall P cs -> P (Element i t a cs))
  (HT : forall d, P (Text d)) (n : node) : P n :=
  match n with
  | Element i t a cs =>
      HE i t a cs
         ((fix all (l : list node) : Forall P l :=
             match l with
             | [] => Forall_nil P
             | c :: l' => Forall_cons c (node_rect' P HE HT c) (all l')
             end) cs)
  | Text d => HT d
  end.

(** ** The loops of stages 2 and 3 *)

(** The shape shared by the loops of stages 2 and 3: a best element and
    its score, replaced by an element whose score is strictly greater
    and that passes a gate. *)
Definition scanStep (A S : Type) (score : A -> S) (gate : A -> bool)
  (gt : S -> S -> bool) (best : option A * S) (x : A) : option A * S :=
  if gt (score x) (snd best) && gate x then (Some x, score x) else best.

(** The loop, from no best element and the score [s0]. *)
Definition scan (A S : Type) (score : A -> S) (gate : A -> bool)
  (gt : S -> S -> bool) (s0 : S) (l : list A) : option A * S :=
  fold_left (scanStep A S score gate gt) l (None, s0).

(** [e] is the first element of [l] with the greatest score among those
    that pass the gate, and its score exceeds the initial one. *)
Definition firstBest (A S : Type) (score : A -> S) (gate : A -> bool)
  (lt : S -> S -> Prop) (s0 : S) (l : list A) (e : A) : Prop :=
  gate e = true /\ lt s0 (score e) /\
  exists p1 p2, l = p1 ++ e :: p2 /\
    (forall x, In x p1 -> gate x = true -> lt (score x) (score e)) /\
    (forall x, In x p2 -> gate x = true -> ~ lt (score e) (score x)).

(** No element of [l] passes the gate with a score above the initial one. *)
Definition noneQualifies (A S : Type) (score : A -> S) (gate : A -> bool)
  (lt : S -> S -> Prop) (s0 : S) (l : list A) : Prop :=
  forall x, In x l -> gate x = true -> ~ lt s0 (score x).

(** ** Scores *)

(** [linkRatio] of [isValidContent], for an element. *)
Definition linkRatio (element : node) : Q :=
  (inject_Z (Z.of_nat (linkTextLength element))
   / inject_Z (Z.of_nat (trimmedTextLength element)))%Q.

(** The anchor text length in the words of the specification: the summed
    trimmed text length of the hyperlink descendants. *)
Definition specAnchorTextLength (element : node) : nat :=
  fold_left (fun sum link => sum + String.length (Str.trim (textContent link)))
            (querySelectorAll element [TypeSel "a"]) 0.

(** The density in the words of the specification:
    (total_text_length - anchor_text_length) / max(1, descendant_element_count). *)
Definition specDensity (element : node) : Q :=
  (inject_Z (Z.of_nat (trimmedTextLength element)
             - Z.of_nat (specAnchorTextLength element))
   / inject_Z (Z.max 1 (Z.of_nat (tagCount element))))%Q.

(** ** Trees and heaps *)

(** An element and its copy in a transformed tree have the same shell:
    identity, name and attributes. *)
Definition sameShell (e e0 : node) : Prop :=
  isElement e = isElement e0 /\ nodeId e = nodeId e0 /\
  nodeName e = nodeName e0 /\ nodeAttributes e = nodeAttributes e0.

(** Every element of the heap was created before [nextId]. *)
Definition wellFormed (h : heap) : Prop :=
  forall e, In e (elementsIn (documentNodes h ++ detachedTrees h)) ->
            nodeId e < nextId h.

(** The heap in which the fragment [t] is the last detached tree, after
    the child nodes [D] of the document and the detached trees [old]. *)
Definition fragHeap (D old : list node) (nx : nat) (t : node) : heap :=
  mkHeap nx D (old ++ [t]).

(** A fragment: its root has identity [lo], its descendants later ones. *)
Definition isFrag (lo : nat) (t : node) : Prop :=
  isElement t = true /\ nodeId t = lo /\
  forall e, In e (descendants t) -> lo < nodeId e.

(** ** The steps of [cleanContent] on the tree they work on *)

(** The loop [elements.forEach(el => el.remove())]. *)
Definition removeAll (t : node) (refs : list nat) : node :=
  fold_left (fun t r => prune r t) refs t.

(** One turn of the loop over the noise selectors. *)
Definition removeNoiseStep (t : node) (sel : selector) : node :=
  removeAll t (map nodeId (querySelectorAll t sel)).

(** The loop over the noise selectors. *)
Definition removeNoiseTree (t : node) : node :=
  fold_left removeNoiseStep noiseSelectors t.

(** The attributes of the element [r] of [t]. *)
Definition attrsAt (r : nat) (t : node) : list attribute :=
  match find (hasId r) (elementsOf t) with
  | Some n => nodeAttributes n
  | None => []
  end.

(** One turn of the loop over the attributes of [el]. *)
Definition stripStep (el : nat) (t : node) (attr : attribute) : node :=
  if negb (isAllowed (fst attr))
  then updateAttrs el (removeAttr (fst attr)) t
  else t.

(** One turn of the loop over the elements the walker collected. *)
Definition cleanElement (t : node) (el : nat) : node :=
  fold_left (stripStep el) (attrsAt el t) t.

(** [cleanAttributes]: the walker collects the descendants of the root. *)
Definition cleanAttributesTree (t : node) : node :=
  fold_left cleanElement (map nodeId (descendants t)) t.

(** One turn of the loop of [optimizeImages]. *)
Definition optimizeImage (t : node) (img : nat) : node :=
  let t1 := if Str.isEmpty (loadingOf (attrsAt img t))
            then updateAttrs img (setAttr "loading" "lazy") t else t in
  let t2 := if Str.isEmpty (altOf (attrsAt img t1))
            then updateAttrs img (setAttr "alt" defaultAlt) t1 else t1 in
  updateAttrs img (removeAttr "style") t2.

(** [optimizeImages] *)
Definition optimizeImagesTree (t : node) : node :=
  fold_left optimizeImage (map nodeId (querySelectorAll t [TypeSel "img"])) t.

(** The three steps of [cleanContent], in their order. *)
Definition sanitizeTree (t : node) : node :=
  optimizeImagesTree (cleanAttributesTree (removeNoiseTree t)).

(** The elements among a list of nodes, in order. *)
Fixpoint walkElements (w : list node) : list nat :=
  match w with
  | [] => []
  | Element i _ _ _ :: rest => i :: walkElements rest
  | Text _ :: rest => walkElements rest
  end.

(** The fragment with the identities of its elements fixed. *)
Definition isFragOf (lo : nat) (ids : list nat) (t : node) : Prop :=
  isFrag lo t /\ map nodeId (elementsOf t) = ids.

(** One turn of the loop of [optimizeImages], on the heap. *)
Definition optimizeImageBody (img : nat) : M unit :=
  loading <- getLoading img ;;
  (if Str.isEmpty loading then setAttribute img "loading" "lazy"
   else ret tt) ;;
  alt <- getAlt img ;;
  (if Str.isEmpty alt then setAttribute img "alt" defaultAlt
   else ret tt) ;;
  removeAttribute img "style".

(** ** Selectors and attributes under the steps *)

(** No step brings a match of [sel] below the root that was not there. *)
Definition noNew (sel : selector) (t' t : node) : Prop :=
  forall e, In e (descendants t') -> matches sel e = true ->
  exists e0, In e0 (descendants t) /\ matches sel e0 = true.

(** The attribute a simple selector reads, if any. *)
Definition readsAttr (s : simpleSelector) (name : string) : bool :=
  match s with
  | TypeSel _ | Universal => false
  | ClassSel _ => (name =? "class")%string
  | IdSel _ => (name =? "id")%string
  | AttrEq k _ | AttrSub k _ => (name =? k)%string
  end.

(** [f] makes no element match [sel]. *)
Definition keeps (sel : selector) (f : list attribute -> list attribute)
  : Prop :=
  forall s tag a, In s sel ->
    matchesParts s tag (f a) = true -> matchesParts s tag a = true.

(** Every attribute of the list is on the allow-list. *)
Definition allowedOnly (a : list attribute) : bool :=
  forallb (fun x => isAllowed (fst x)) a.

(** The identity of an element of [t] determines its attributes. *)
Definition coherent (t : node) : Prop :=
  forall e1 e2, In e1 (elementsOf t) -> In e2 (elementsOf t) ->
                nodeId e1 = nodeId e2 -> nodeAttributes e1 = nodeAttributes e2.

(** What the inner loop of [cleanAttributes] does to the attribute list
    of an element, [l] being the attributes read before the loop. *)
Definition stripAttrs (l a : list attribute) : list attribute :=
  fold_left (fun a attr => if negb (isAllowed (fst attr))
                           then removeAttr (fst attr) a else a) l a.



(* ================================================================== *)
(** * Pages and elements of the examples *)

(** Elements for the examples: a text of [n] characters, and a link of
    [n] characters. *)
Definition textOf (n : nat) : node := Text (Str.times n "x").

Definition linkOf (i n : nat) : node := Element i "a" [("href", "#")] [textOf n].

(** Blocks of text for the validity filter: 99 characters; 500 characters
    of which 260 in a link; 100 of which 50 in a link; 100 and no link. *)
Definition shortBlock : node := Element 1 "div" [] [textOf 99].

Definition linkHeavyBlock : node := Element 1 "div" [] [linkOf 2 260; textOf 240].

Definition halfLinkBlock : node := Element 1 "div" [] [linkOf 2 50; textOf 50].

Definition plainBlock : node := Element 1 "div" [] [textOf 100].

(** A block with text and no element. *)
Definition leafBlock : node := Element 1 "div" [] [Text "hello"].

(** A block of 1000 characters, 200 of them in a link, with 40
    descendant elements. *)
Definition denseBlock : node :=
  Element 1 "div" []
    (linkOf 2 200 :: textOf 800
     :: map (fun i => Element (3 + i) "span" [] []) (seq 0 39)).

(** A block whose only content is a link padded with spaces. *)
Definition paddedLinkBlock : node :=
  Element 1 "div" [] [Element 2 "a" [("href", "#")] [Text " x "]].

(** A page with two articles, the first too short to be valid. *)
Definition twoArticles : list node :=
  [Element 0 "html" []
     [Element 1 "body" []
        [Element 2 "article" [] [Text "short"];
         Element 3 "article" [] [textOf 100]]]].

(** A page on which the first match of [article] is valid. *)
Definition firstArticleValid : list node :=
  [Element 0 "html" []
     [Element 1 "body" []
        [Element 2 "div" [("class", "content")] [Text "short"];
         Element 3 "article" [] [textOf 100];
         Element 4 "article" [] [textOf 200]]]].

(** Two block containers of the same density, above the threshold. *)
Definition equalDensities : list node :=
  [Element 0 "html" []
     [Element 1 "body" []
        [Element 2 "section" [] [Element 3 "p" [] [textOf 100]];
         Element 4 "div" [] [Element 5 "p" [] [textOf 100]]]]].

(** Two paragraphs of the same length and no block container: stage 3
    decides, and [html], the first of the longest valid elements, wins. *)
Definition equalLengths : list node :=
  [Element 0 "html" []
     [Element 1 "p" [] [textOf 100];
      Element 2 "p" [] [textOf 100; Element 3 "b" [] [textOf 20]]]].

(** A page without a valid element. *)
Definition onlyShortTexts : list node :=
  [Element 0 "html" [] [Element 1 "p" [] [textOf 40]]].

(** An article with attributes of every kind on its root and below it,
    and its page. *)
Definition article : node :=
  Element 2 "article"
    [("src", "s"); ("onclick", "track()"); ("style", "margin:0");
     ("class", "post"); ("alt", "a")]
    [Element 3 "nav" [] [Text "menu"];
     Element 4 "p" [("style", "color:red"); ("title", "intro")] [textOf 100];
     Element 5 "img"
       [("src", "a.png"); ("onclick", "x()"); ("style", "float:left");
        ("class", "hero"); ("alt", "A")] [];
     Element 6 "div" [("class", "sidebar")]
       [Element 7 "a" [("href", "#")] [Text "more"]]].

Definition articlePage : list node :=
  [Element 0 "html" [] [Element 1 "body" [] [article]]].

Definition articleHeap : heap := mkHeap 8 articlePage [].

(** A page whose content element is an [aside]. *)
Definition asidePage : list node :=
  [Element 0 "html" []
     [Element 1 "body" []
        [Element 2 "aside" [("class", "content")]
           [Element 3 "p" [] [textOf 100];
            Element 4 "nav" [] [Text "menu"]]]]].

(** A page whose article holds noise at two depths. *)
Definition nestedNoiseArticle : node :=
  Element 2 "article" []
    [Element 3 "p" [] [textOf 100];
     Element 4 "div" [("class", "wrap")]
       [Element 5 "div" [("class", "box")]
          [Element 6 "footer" [] [Text "deep"];
           Element 7 "span" [("id", "top-ad-1")] [Text "buy"]];
        Element 8 "div" [("class", "cookie-notice")] [Text "cookies"]]].

Definition nestedNoiseHeap : heap :=
  mkHeap 9 [Element 0 "html" [] [Element 1 "body" [] [nestedNoiseArticle]]] [].

(* ================================================================== *)
(** * The sanitizer as three passes over the candidate *)

(** Dropping, at every depth below the root of [n], the child nodes that
    satisfy [p], with all that is below them. *)
Fixpoint dropWhere (p : node -> bool) (n : node) : node :=
  match n with
  | Element i t a cs =>
      Element i t a (flat_map (fun c => if p c then [] else [dropWhere p c]) cs)
  | Text d => Text d
  end.

(** The node matches one of the noise selectors. *)
Definition isNoise (n : node) : bool :=
  existsb (fun sel => matches sel n) noiseSelectors.

(** First pass: the noise below the root is dropped. *)
Definition dropNoise (n : node) : node := dropWhere isNoise n.

(** Rewriting the attribute list of every element of a tree, by a
    function of the identity, the name and the attributes. *)
Fixpoint mapAttrs (G : nat -> string -> list attribute -> list attribute)
  (n : node) : node :=
  match n with
  | Element i t a cs => Element i t (G i t a) (map (mapAttrs G) cs)
  | Text d => Text d
  end.

(** Applying [f] to the child nodes of the root, and not to the root. *)
Definition belowRoot (f : node -> node) (n : node) : node :=
  match n with
  | Element i t a cs => Element i t a (map f cs)
  | Text d => Text d
  end.

(** The attributes of the allow-list, in their order. *)
Definition filterAllowed (a : list attribute) : list attribute :=
  filter (fun x => isAllowed (fst x)) a.

(** Second pass: every element keeps its allowed attributes only. *)
Definition stripAll (n : node) : node :=
  mapAttrs (fun _ _ a => filterAllowed a) n.

(** What [optimizeImages] does to the attributes [a] of an image. *)
Definition imgFix (a : list attribute) : list attribute :=
  let a1 := if Str.isEmpty (loadingOf a)
            then setAttr "loading" "lazy" a else a in
  let a2 := if Str.isEmpty (altOf a1)
            then setAttr "alt" defaultAlt a1 else a1 in
  removeAttr "style" a2.

(** Third pass: the images are normalized. *)
Definition imgAll (n : node) : node :=
  mapAttrs (fun _ t a => if (t =? "img")%string then imgFix a else a) n.

(** The three passes; the root of the candidate is left as it is. *)
Definition sanitizeSpec (n : node) : node :=
  belowRoot imgAll (belowRoot stripAll (dropNoise n)).

(** A tree with its identities forgotten. *)
Fixpoint shape (n : node) : node :=
  match n with
  | Element _ t a cs => Element 0 t a (map shape cs)
  | Text d => Text d
  end.

(** The identity of an element of [t] determines its name and attributes. *)
Definition unambiguous (t : node) : Prop :=
  forall e1 e2, In e1 (elementsOf t) -> In e2 (elementsOf t) ->
    nodeId e1 = nodeId e2 ->
    nodeName e1 = nodeName e2 /\ nodeAttributes e1 = nodeAttributes e2.

(** [p] looks at the shell of a node only. *)
Definition shellPred (p : node -> bool) : Prop :=
  forall a b, sameShell a b -> p a = p b.

(** The attributes of the elements whose identity is in [S] rewritten by [F]. *)
Definition updateIn (S : list nat) (F : list attribute -> list attribute)
  (n : node) : node :=
  mapAttrs (fun i _ a => if existsb (Nat.eqb i) S then F a else a) n.


(** An article without noise: a heading, a paragraph with a link, and an
    image without alternative text; and its page. *)
Definition plainArticle : node :=
  Element 2 "article" [("class", "story")]
    [Element 3 "h1" [("id", "top")] [Text "Title"];
     Element 4 "p" [("style", "margin:0")]
       [textOf 100; Element 5 "a" [("href", "#"); ("target", "_blank")]
                      [Text "link"]];
     Element 6 "img" [("src", "a.png"); ("style", "width:10px")] []].

Definition plainHeap : heap :=
  mkHeap 7 [Element 0 "html" [] [Element 1 "body" [] [plainArticle]]] [].

(* ================================================================== *)
(** * DOMTokenList: [element.classList] *)

Module DOMTokenList.

(** [s] holds an ASCII white space. *)
Fixpoint hasAsciiWhitespace (s : string) : bool :=
  match s with
  | EmptyString => false
  | String c s' => Str.isAsciiWhitespace c || hasAsciiWhitespace s'
  end.

(** Appending to an ordered set: a token that is there is not added. *)
Definition appendToken (tokens : list string) (token : string) : list string :=
  if existsb (String.eqb token) tokens then tokens else tokens ++ [token].

(** The ordered set of a list of tokens: the first occurrences, in order. *)
Definition orderedSet (l : list string) : list string :=
  fold_left appendToken l [].

(** The token set of [classList]: the [class] attribute split on ASCII
    white space, as an ordered set; empty when the attribute is missing. *)
Definition tokenSet (attrs : list attribute) : list string :=
  match getAttribute "class" attrs with
  | Some v => orderedSet (Str.tokens v)
  | None => []
  end.

(** The serialization of a token set: its tokens separated by U+0020. *)
Definition serialize (tokens : list string) : string :=
  String.concat " " tokens.

(** The update steps of the DOM standard: nothing when the attribute is
    missing and the token set is empty, otherwise the attribute is set to
    the serialization of the token set. *)
Definition update (tokens : list string) (attrs : list attribute)
  : list attribute :=
  match getAttribute "class" attrs, tokens with
  | None, [] => attrs
  | _, _ => setAttr "class" (serialize tokens) attrs
  end.

(** [classList.remove(token)] on the attribute list, for a valid token. *)
Definition removeToken (token : string) (attrs : list attribute)
  : list attribute :=
  update (filter (fun t => negb (t =? token)%string) (tokenSet attrs)) attrs.

(** [classList.add(token)] on the attribute list, for a valid token. *)
Definition addToken (token : string) (attrs : list attribute)
  : list attribute :=
  update (appendToken (tokenSet attrs) token) attrs.

(** [classList.contains(token)] *)
Definition contains (token : string) (attrs : list attribute) : bool :=
  existsb (String.eqb token) (tokenSet attrs).

End DOMTokenList.

(* ================================================================== *)
(** * The page: the DOM, the manager and the events dispatched *)

(** What the source can throw: a [TypeError] (a member of [null] is
    read, or [null] is appended), the [DOMException]s of [classList] and
    of [appendChild], and [new Error(message)]. *)
Inductive exn : Type :=
| TypeError
| SyntaxError
| InvalidCharacterError
| HierarchyRequestError
| Error (message : string).

(** The [detail] of a [CustomEvent] of the source: [{}], [{ theme }],
    [{ size }], [{ spacing }] and [{ error: error.message }]. *)
Inductive detail : Type :=
| NoDetail
| ThemeDetail (theme : string)
| SizeDetail (size : string)
| SpacingDetail (spacing : string)
| ErrorDetail (error : exn).

Record event : Type := mkEvent {
  eventName : string;
  eventDetail : detail
}.

(** The fields of a [ReadingModeManager]; [originalBodyStyle] holds the
    [overflow] and the [background] saved, and is [None] while the field
    is undefined or null. *)
Record manager : Type := mkManager {
  isActive : bool;
  originalContent : option nat;
  readingContainer : option nat;
  originalBodyStyle : option (string * string)
}.

(** The settings of the content script that name a class. *)
Record settings : Type := mkSettings {
  theme : string;
  fontSize : string;
  lineSpacing : string
}.

(** The state the scripts of a page act on: the DOM, the manager
    ([window.readingModeManager]; [managerLoaded] tells whether it is
    defined), the events dispatched on the document so far, the settings
    of the controller and the settings handed to [chrome.storage.sync.set]
    so far. *)
Record world : Type := mkWorld {
  page : heap;
  this : manager;
  dispatched : list event;
  managerLoaded : bool;
  controllerSettings : settings;
  saved : list settings
}.

Definition withPage (h : heap) (w : world) : world :=
  mkWorld h (this w) (dispatched w) (managerLoaded w)
          (controllerSettings w) (saved w).

Definition withThis (m : manager) (w : world) : world :=
  mkWorld (page w) m (dispatched w) (managerLoaded w)
          (controllerSettings w) (saved w).

Definition withSettings (s : settings) (w : world) : world :=
  mkWorld (page w) (this w) (dispatched w) (managerLoaded w) s (saved w).

(** How a call ends: it returns, it throws, or it is stuck on a reference
    that denotes no element of the heap. *)
Inductive outcome (A : Type) : Type :=
| Returned (a : A)
| Thrown (e : exn)
| Stuck.

Arguments Returned {A} a.
Arguments Thrown {A} e.
Arguments Stuck {A}.

(** Computations of the scripts: the state is kept when a call throws. *)
Definition J (A : Type) : Type := world -> outcome A * world.

Definition retJ {A : Type} (a : A) : J A := fun w => (Returned a, w).

Definition bindJ {A B : Type} (m : J A) (k : A -> J B) : J B :=
  fun w => match m w with
           | (Returned a, w') => k a w'
           | (Thrown e, w') => (Thrown e, w')
           | (Stuck, w') => (Stuck, w')
           end.

Definition throw {A : Type} (e : exn) : J A := fun w => (Thrown e, w).

(** [try { m } catch (error) { handler(error) }] *)
Definition tryCatch {A : Type} (m : J A) (handler : exn -> J A) : J A :=
  fun w => match m w with
           | (Thrown e, w') => handler e w'
           | r => r
           end.

(** A DOM operation of the heap, inside a script. *)
Definition liftM {A : Type} (m : M A) : J A :=
  fun w => match m (page w) with
           | Some (a, h') => (Returned a, withPage h' w)
           | None => (Stuck, w)
           end.

Declare Scope js_scope.
Delimit Scope js_scope with js.
Notation "x <- m ;; k" := (bindJ m (fun x => k))
  (at level 61, m at next level, right associativity) : js_scope.
Notation "m ;; k" := (bindJ m (fun _ => k))
  (at level 61, right associativity) : js_scope.

(** [list.forEach(f)] *)
Fixpoint forEachJ {A : Type} (l : list A) (f : A -> J unit) : J unit :=
  match l with
  | [] => retJ tt
  | x :: rest => bindJ (f x) (fun _ => forEachJ rest f)
  end.

(** Reading a member of [x]: a [TypeError] when [x] is [null]. *)
Definition member {A : Type} (x : option A) : J A :=
  match x with
  | Some a => retJ a
  | None => throw TypeError
  end.

(** [document.documentElement]: the first element child of the document. *)
Definition documentElementOf (h : heap) : option node :=
  find isElement (documentNodes h).

Definition isBody (n : node) : bool :=
  isElement n && ((nodeName n =? "body") || (nodeName n =? "frameset"))%string.

(** [document.body]: the first [body] or [frameset] child of the [html]
    document element. *)
Definition bodyOf (h : heap) : option node :=
  match documentElementOf h with
  | Some root =>
      if (nodeName root =? "html")%string then find isBody (children root)
      else None
  | None => None
  end.

Definition documentElement : J (option nat) :=
  fun w => (Returned (option_map nodeId (documentElementOf (page w))), w).

Definition documentBody : J (option nat) :=
  fun w => (Returned (option_map nodeId (bodyOf (page w))), w).

(** The check [classList.add] and [classList.remove] make on a token. *)
Definition validateToken (token : string) : J unit :=
  if Str.isEmpty token then throw SyntaxError
  else if DOMTokenList.hasAsciiWhitespace token then throw InvalidCharacterError
  else retJ tt.

(** [el.classList.add(token)] *)
Definition classListAdd (el : nat) (token : string) : J unit :=
  bindJ (validateToken token)
        (fun _ => liftM (modifyAttrs el (DOMTokenList.addToken token))).

(** [el.classList.remove(token)] *)
Definition classListRemove (el : nat) (token : string) : J unit :=
  bindJ (validateToken token)
        (fun _ => liftM (modifyAttrs el (DOMTokenList.removeToken token))).

(** ** Further DOM operations *)

(** [document.createElement(localName)]: a new element without
    attributes and children, detached. *)
Definition createElement (localName : string) : M nat :=
  fun h => Some (nextId h,
                 mkHeap (S (nextId h)) (documentNodes h)
                        (detachedTrees h ++ [Element (nextId h) localName [] []])).

(** [c] becomes the last child of the element [parent], inside [n]. *)
Fixpoint appendTo (parent : nat) (c : node) (n : node) : node :=
  match n with
  | Element i t a cs =>
      Element i t a (map (appendTo parent c) cs
                     ++ (if i =? parent then [c] else []))
  | Text d => Text d
  end.

(** [parent.appendChild(child)]: a [TypeError] for [null]; a
    [HierarchyRequestError] when [parent] is [child] or inside it;
    otherwise [child] leaves the place it has, its parent or the detached
    trees, and becomes the last child of [parent]. *)
Definition appendChild (parent : nat) (child : option nat) : J unit :=
  match child with
  | None => throw TypeError
  | Some child =>
      fun w =>
        let h := page w in
        match resolve child h, resolve parent h with
        | Some c, Some _ =>
            if existsb (hasId parent) (elementsOf c)
            then (Thrown HierarchyRequestError, w)
            else (Returned tt,
                  withPage
                    (mkHeap (nextId h)
                       (map (appendTo parent c)
                            (pruneForest child (documentNodes h)))
                       (map (appendTo parent c)
                            (pruneForest child (detachedTrees h)))) w)
        | _, _ => (Stuck, w)
        end
  end.

(** [Array.from(el.children)]: the element children, as references. *)
Definition childElements (el : nat) : M (list nat) :=
  bind (deref el)
       (fun n => ret (map nodeId (filter isElement (children n)))).

(** [el.id]: reflects the content attribute, the empty string when it is
    missing. *)
Definition idOf (attrs : list attribute) : string :=
  match getAttribute "id" attrs with
  | Some v => v
  | None => ""
  end.

Definition getId (r : nat) : M string :=
  bind (deref r) (fun n => ret (idOf (nodeAttributes n))).


(* ================================================================== *)
(** * ReadingModeManager *)

Module ReadingModeManager.

Local Open Scope js_scope.

(** [document.dispatchEvent(new CustomEvent(`reading-assistant-${eventName}`,
    { detail, bubbles: true }))]: the event is recorded; the listeners of
    other scripts run at this point, which is the last statement of every
    method that dispatches. *)
Definition dispatchEvent (eventName : string) (detail : detail) : J unit :=
  fun w => (Returned tt,
            mkWorld (page w) (this w)
                    (dispatched w
                     ++ [mkEvent ("reading-assistant-" ++ eventName) detail])
                    (managerLoaded w) (controllerSettings w) (saved w)).

Definition themes : list string :=
  ["reading-assistant-light"; "reading-assistant-dark";
   "reading-assistant-sepia"].

(** [applyTheme(theme)], for a string [theme]. *)
Definition applyTheme (theme : string) : J unit :=
  forEachJ themes (fun themeClass =>
    root <- documentElement ;;
    el <- member root ;;
    classListRemove el themeClass) ;;
  (if negb (Str.isEmpty theme) && negb (theme =? "light")%string
   then root <- documentElement ;;
        el <- member root ;;
        classListAdd el ("reading-assistant-" ++ theme)
   else retJ tt) ;;
  dispatchEvent "theme-changed" (ThemeDetail theme).

Definition sizes : list string :=
  ["reading-assistant-font-small"; "reading-assistant-font-medium";
   "reading-assistant-font-large"; "reading-assistant-font-xlarge"].

(** [setFontSize(size)], for a string [size]. *)
Definition setFontSize (size : string) : J unit :=
  forEachJ sizes (fun sizeClass =>
    root <- documentElement ;;
    el <- member root ;;
    classListRemove el sizeClass) ;;
  root <- documentElement ;;
  el <- member root ;;
  classListAdd el ("reading-assistant-font-" ++ size) ;;
  dispatchEvent "font-size-changed" (SizeDetail size).

Definition spacings : list string :=
  ["reading-assistant-line-compact"; "reading-assistant-line-normal";
   "reading-assistant-line-loose"].

(** [setLineSpacing(spacing)], for a string [spacing]. *)
Definition setLineSpacing (spacing : string) : J unit :=
  forEachJ spacings (fun spacingClass =>
    root <- documentElement ;;
    el <- member root ;;
    classListRemove el spacingClass) ;;
  root <- documentElement ;;
  el <- member root ;;
  classListAdd el ("reading-assistant-line-" ++ spacing) ;;
  dispatchEvent "line-spacing-changed" (SpacingDetail spacing).

Definition getThis : J manager := fun w => (Returned (this w), w).

Definition putThis (m : manager) : J unit :=
  fun w => (Returned tt, withThis m w).

(** [document.body], where a member of it is read. *)
Definition theBody : J nat :=
  body <- documentBody ;; member body.

(** [this.extractor.extractMainContent()], as a reference. *)
Definition extractMainContent : J (option nat) :=
  fun w => (Returned (option_map nodeId
                        (ContentExtractor.extractMainContent
                           (documentNodes (page w)))), w).

(** The message of the error [activate] throws when the locator returns
    nothing. *)
Definition noContentMessage : string := "无法找到主要内容".

Definition containerId : string := "reading-assistant-container".

(** [createReadingContainer(content)]; [this.readingContainer] is read
    back as the element just stored in it. *)
Definition createReadingContainer (content : option nat) : J unit :=
  container <- liftM (createElement "div") ;;
  m <- getThis ;;
  putThis (mkManager (isActive m) (originalContent m) (Some container)
                     (originalBodyStyle m)) ;;
  liftM (setAttribute container "class" "reading-assistant-container") ;;
  liftM (setAttribute container "id" containerId) ;;
  contentWrapper <- liftM (createElement "div") ;;
  liftM (setAttribute contentWrapper "class" "reading-assistant-content") ;;
  appendChild contentWrapper content ;;
  appendChild container (Some contentWrapper) ;;
  body <- theBody ;;
  appendChild body (Some container).

Section CSSOM.

(** The inline style of an element is what the browser makes of its
    [style] attribute; the two functions stand for the browser:
    [cssGet property style] is the value read from [el.style[property]]
    when the attribute is [style] ([None] for a missing attribute), and
    [cssSet property value style] is the attribute after
    [el.style[property] = value], [None] when the assignment changes no
    declaration and the attribute is left as it is. *)
Variable cssGet : string -> option string -> string.
Variable cssSet : string -> string -> option string -> option string.

Definition styleGet (el : nat) (property : string) : M string :=
  bind (deref el)
       (fun n => ret (cssGet property (getAttribute "style" (nodeAttributes n)))).

Definition styleEdit (property value : string) (a : list attribute)
  : list attribute :=
  match cssSet property value (getAttribute "style" a) with
  | Some s => setAttr "style" s a
  | None => a
  end.

Definition styleSet (el : nat) (property value : string) : M unit :=
  modifyAttrs el (styleEdit property value).

Definition hideOriginalContent : J unit :=
  body <- theBody ;;
  overflow <- liftM (styleGet body "overflow") ;;
  body <- theBody ;;
  background <- liftM (styleGet body "background") ;;
  m <- getThis ;;
  putThis (mkManager (isActive m) (originalContent m) (readingContainer m)
                     (Some (overflow, background))) ;;
  body <- theBody ;;
  children <- liftM (childElements body) ;;
  forEachJ children (fun child =>
    id <- liftM (getId child) ;;
    if negb (id =? containerId)%string
    then classListAdd child "reading-assistant-hidden"
    else retJ tt) ;;
  body <- theBody ;;
  liftM (styleSet body "overflow" "auto") ;;
  body <- theBody ;;
  liftM (styleSet body "background" "#ffffff").


(** [activate()]; [console.error] leaves no trace in the state. *)
Definition activate : J unit :=
  m <- getThis ;;
  if isActive m then retJ tt
  else
    tryCatch
      (body <- theBody ;;
       clone <- liftM (cloneNode body) ;;
       m <- getThis ;;
       putThis (mkManager (isActive m) (Some clone) (readingContainer m)
                          (originalBodyStyle m)) ;;
       mainContent <- extractMainContent ;;
       (if isNull mainContent then throw (Error noContentMessage)
        else retJ tt) ;;
       cleanedContent <- liftM (ContentExtractor.cleanContent mainContent) ;;
       createReadingContainer cleanedContent ;;
       hideOriginalContent ;;
       root <- documentElement ;;
       el <- member root ;;
       classListAdd el "reading-assistant-active" ;;
       m <- getThis ;;
       putThis (mkManager true (originalContent m) (readingContainer m)
                          (originalBodyStyle m)) ;;
       dispatchEvent "reading-mode-activated" NoDetail)
      (fun error => dispatchEvent "reading-mode-error" (ErrorDetail error)).



End CSSOM.

End ReadingModeManager.

(* ================================================================== *)
(** * ReadingAssistantController: the settings of the content script *)

Module ReadingAssistantController.

Local Open Scope js_scope.

(** [array.indexOf(x)]: the first index of [x], [-1] when it is absent. *)
Fixpoint indexOf (x : string) (l : list string) : Z :=
  match l with
  | [] => (-1)%Z
  | y :: rest =>
      if (y =? x)%string then 0%Z
      else let i := indexOf x rest in
           if (i <? 0)%Z then (-1)%Z else (i + 1)%Z
  end.

(** [array[(currentIndex + 1) % array.length]]; the index is below the
    length, so the default of [nth] is never read. *)
Definition next (array : list string) (current : string) : string :=
  let currentIndex := indexOf current array in
  nth (Z.to_nat (Z.rem (currentIndex + 1) (Z.of_nat (List.length array))))
      array "".

(** [this.saveSettings()]: the settings are handed to
    [chrome.storage.sync.set]; a failure of the storage is caught inside
    and never reaches the caller. *)
Definition saveSettings : J unit :=
  fun w => (Returned tt,
            mkWorld (page w) (this w) (dispatched w) (managerLoaded w)
                    (controllerSettings w)
                    (saved w ++ [controllerSettings w])).

Definition getSettings : J settings :=
  fun w => (Returned (controllerSettings w), w).

Definition putSettings (s : settings) : J unit :=
  fun w => (Returned tt, withSettings s w).

(** [window.readingModeManager], as a condition. *)
Definition windowReadingModeManager : J bool :=
  fun w => (Returned (managerLoaded w), w).

Definition setTheme (theme : string) : J unit :=
  s <- getSettings ;;
  putSettings (mkSettings theme (fontSize s) (lineSpacing s)) ;;
  loaded <- windowReadingModeManager ;;
  (if loaded then ReadingModeManager.applyTheme theme else retJ tt) ;;
  saveSettings.

Definition cycleTheme : J unit :=
  let themes := ["light"; "dark"; "sepia"] in
  s <- getSettings ;;
  let nextTheme := next themes (theme s) in
  setTheme nextTheme.

Definition setFontSize (fontSize : string) : J unit :=
  s <- getSettings ;;
  putSettings (mkSettings (theme s) fontSize (lineSpacing s)) ;;
  loaded <- windowReadingModeManager ;;
  (if loaded then ReadingModeManager.setFontSize fontSize else retJ tt) ;;
  saveSettings.

Definition cycleFontSize : J unit :=
  let sizes := ["small"; "medium"; "large"; "xlarge"] in
  s <- getSettings ;;
  let nextSize := next sizes (fontSize s) in
  setFontSize nextSize.

Definition setLineSpacing (lineSpacing : string) : J unit :=
  s <- getSettings ;;
  putSettings (mkSettings (theme s) (fontSize s) lineSpacing) ;;
  loaded <- windowReadingModeManager ;;
  (if loaded then ReadingModeManager.setLineSpacing lineSpacing
   else retJ tt) ;;
  saveSettings.

Definition cycleLineSpacing : J unit :=
  let spacings := ["compact"; "normal"; "loose"] in
  s <- getSettings ;;
  let nextSpacing := next spacings (lineSpacing s) in
  setLineSpacing nextSpacing.

(** [applyCurrentSettings()] *)
Definition applyCurrentSettings : J unit :=
  loaded <- windowReadingModeManager ;;
  if loaded
  then s <- getSettings ;;
       ReadingModeManager.applyTheme (theme s) ;;
       s <- getSettings ;;
       ReadingModeManager.setFontSize (fontSize s) ;;
       s <- getSettings ;;
       ReadingModeManager.setLineSpacing (lineSpacing s)
  else retJ tt.

End ReadingAssistantController.

(** ** Notions used in the statements on classes *)

(** The attributes of the document element, none without one. *)
Definition rootAttributes (h : heap) : list attribute :=
  match documentElementOf h with
  | Some root => nodeAttributes root
  | None => []
  end.

(** [document.documentElement.classList.contains(c)] *)
Definition hasClass (c : string) (w : world) : bool :=
  DOMTokenList.contains c (rootAttributes (page w)).

(** A token [classList.add] accepts. *)
Definition validToken (t : string) : bool :=
  negb (Str.isEmpty t) && negb (DOMTokenList.hasAsciiWhitespace t).

(** A tree without its [class] attributes. *)
Definition eraseClass (n : node) : node :=
  mapAttrs (fun _ _ a => removeAttr "class" a) n.

(** Rewriting the attribute list of the document element. *)
Definition modifyRoot (f : list attribute -> list attribute) (w : world)
  : world :=
  match documentElementOf (page w) with
  | Some root =>
      withPage (mkHeap (nextId (page w))
                       (map (updateAttrs (nodeId root) f)
                            (documentNodes (page w)))
                       (map (updateAttrs (nodeId root) f)
                            (detachedTrees (page w)))) w
  | None => w
  end.

Definition addEvent (e : event) (w : world) : world :=
  mkWorld (page w) (this w) (dispatched w ++ [e]) (managerLoaded w)
          (controllerSettings w) (saved w).

(** [classList.remove] of the tokens of a list, one after the other. *)
Definition removeTokens (tokens : list string) (a : list attribute)
  : list attribute :=
  fold_left (fun a t => DOMTokenList.removeToken t a) tokens a.

(** What [applyTheme], [setFontSize] and [setLineSpacing] make of the
    attributes of the document element. *)
Definition themeEdit (theme : string) (a : list attribute) : list attribute :=
  let a' := removeTokens ReadingModeManager.themes a in
  if negb (Str.isEmpty theme) && negb (theme =? "light")%string
  then DOMTokenList.addToken ("reading-assistant-" ++ theme) a'
  else a'.

Definition sizeEdit (size : string) (a : list attribute) : list attribute :=
  DOMTokenList.addToken ("reading-assistant-font-" ++ size)
    (removeTokens ReadingModeManager.sizes a).

Definition spacingEdit (spacing : string) (a : list attribute)
  : list attribute :=
  DOMTokenList.addToken ("reading-assistant-line-" ++ spacing)
    (removeTokens ReadingModeManager.spacings a).

(** [f] changes nothing but the [class] attribute. *)
Definition classOnly (f : list attribute -> list attribute) : Prop :=
  forall a, removeAttr "class" (f a) = removeAttr "class" a.

(** A call that, however it ends, changes nothing in the page but the
    [class] attribute of the document element, and none of the fields of
    the manager. *)
Definition changesClassesOnly (run : J unit) : Prop :=
  forall w, exists F,
    classOnly F /\
    page (snd (run w)) = page (modifyRoot F w) /\
    this (snd (run w)) = this w.

(** The state a call leaves, however it ends. *)
Definition after {A : Type} (run : J A) (w : world) : world := snd (run w).

(** A call that does not write the settings of the controller. *)
Definition keepsSettings {A : Type} (run : J A) : Prop :=
  forall w, controllerSettings (after run w) = controllerSettings w.

(** A page with a document element, a loaded manager, and the settings
    the controller starts with. *)
Definition startWorld : world :=
  mkWorld plainHeap (mkManager false None None None) [] true
          (mkSettings "light" "medium" "normal") [].

(** ** Notions used in the statements on the reading mode *)

(** A page with a body and no content: the locator returns nothing. *)
Definition shortPage : list node :=
  [Element 0 "html" []
     [Element 1 "body" [] [Element 2 "p" [] [Text "short"]]]].

Definition shortWorld : world :=
  mkWorld (mkHeap 3 shortPage []) (mkManager false None None None) [] true
          (mkSettings "light" "medium" "normal") [].

(** A browser whose inline styles are not modelled: every property reads
    as the empty string and no assignment changes the attribute. *)
Definition noCssGet (property : string) (style : option string) : string := "".

Definition noCssSet (property value : string) (style : option string)
  : option string := None.

(** No element of the trees [l] has the identity [r]. *)
Definition absent (r : nat) (l : list node) : Prop :=
  forall e, In e (elementsIn l) -> nodeId e <> r.

(** The reading container [activate] builds around the fragment. *)
Definition containerOf (c : nat) (frag : node) : node :=
  Element c "div"
    [("class", "reading-assistant-container");
     ("id", ReadingModeManager.containerId)]
    [Element (S c) "div" [("class", "reading-assistant-content")] [frag]].

(** What [hideOriginalContent] does to the attributes of a child of the
    body. *)
Definition hideEdit (a : list attribute) : list attribute :=
  if negb (idOf a =? ReadingModeManager.containerId)%string
  then DOMTokenList.addToken "reading-assistant-hidden" a
  else a.










(* ================================================================== *)
(** * Elements of a tree *)

Lemma elementsOf_isElement (n e : node) :
  In e (elementsOf n) -> isElement e = true.
Proof.
  induction n as [i t a cs IH | d] using node_rect'; simpl.
  - intros [<- | H]; [reflexivity |].
    apply in_flat_map in H as (c & Hc & He).
    rewrite Forall_forall in IH. exact (IH c Hc He).
  - intros [].
Qed.

Lemma elementsIn_isElement (ns : list node) (e : node) :
  In e (elementsIn ns) -> isElement e = true.
Proof.
  unfold elementsIn. intros H.
  apply in_flat_map in H as (c & _ & He).
  exact (elementsOf_isElement c e He).
Qed.

Lemma filter_all {A : Type} (p : A -> bool) (l : list A) :
  (forall x, In x l -> p x = true) -> filter p l = l.
Proof.
  induction l as [| x l IH]; simpl; intros H; [reflexivity |].
  rewrite (H x (or_introl eq_refl)). f_equal. apply IH. intros y Hy.
  apply H. now right.
Qed.

Lemma filter_none {A : Type} (p : A -> bool) (l : list A) :
  (forall x, In x l -> p x = false) -> filter p l = [].
Proof.
  induction l as [| x l IH]; simpl; intros H; [reflexivity |].
  rewrite (H x (or_introl eq_refl)). apply IH. intros y Hy.
  apply H. now right.
Qed.

Lemma querySelectorAllIn_universal (ns : list node) :
  querySelectorAllIn ns [Universal] = elementsIn ns.
Proof.
  unfold querySelectorAllIn. apply filter_all. intros e He.
  unfold matches, matchesSimple. simpl.
  now rewrite (elementsIn_isElement ns e He).
Qed.

(* ================================================================== *)
(** * Scanning for the first maximum *)

(** The invariant of a loop of the shape of [scanStep], for a score
    ordered by [lt] and compared by [gt]. *)
Section Scan.

Variables (A S : Type).
Variable score : A -> S.
Variable gate : A -> bool.
Variable gt : S -> S -> bool.
Variable lt : S -> S -> Prop.
Variable s0 : S.

Hypothesis gt_lt : forall a b, gt a b = true <-> lt b a.
Hypothesis lt_trans : forall a b c, lt a b -> lt b c -> lt a c.
Hypothesis le_lt_trans : forall a b c, ~ lt a b -> lt a c -> lt b c.

Lemma scan_invariant (l : list A) :
  match scan A S score gate gt s0 l with
  | (None, s) => s = s0 /\ noneQualifies A S score gate lt s0 l
  | (Some e, s) => s = score e /\ firstBest A S score gate lt s0 l e
  end.
Proof.
  unfold scan. induction l as [| x l IH] using rev_ind.
  - simpl. split; [reflexivity | intros x []].
  - rewrite fold_left_app. simpl.
    destruct (fold_left (scanStep A S score gate gt) l (None, s0)) as [[e |] s];
      unfold scanStep; simpl.
    + destruct IH as (-> & Hg & H0 & p1 & p2 & -> & Hb & Ha).
      destruct (gt (score x) (score e)) eqn:Hgt; simpl.
      * apply gt_lt in Hgt.
        destruct (gate x) eqn:Hx.
        -- split; [reflexivity |]. split; [exact Hx |].
           split; [exact (lt_trans _ _ _ H0 Hgt) |].
           exists (p1 ++ e :: p2), []. split; [reflexivity |]. split.
           ++ intros y Hy Hgy. apply in_app_or in Hy as [Hy | [<- | Hy]].
              ** exact (lt_trans _ _ _ (Hb y Hy Hgy) Hgt).
              ** exact Hgt.
              ** exact (le_lt_trans _ _ _ (Ha y Hy Hgy) Hgt).
           ++ intros y [].
        -- split; [reflexivity |]. split; [exact Hg |]. split; [exact H0 |].
           exists p1, (p2 ++ [x]). split; [now rewrite <- app_assoc |].
           split; [exact Hb |].
           intros y Hy Hgy. apply in_app_or in Hy as [Hy | [<- | []]].
           ++ exact (Ha y Hy Hgy).
           ++ congruence.
      * split; [reflexivity |]. split; [exact Hg |]. split; [exact H0 |].
        exists p1, (p2 ++ [x]). split; [now rewrite <- app_assoc |].
        split; [exact Hb |].
        intros y Hy Hgy. apply in_app_or in Hy as [Hy | [<- | []]].
        -- exact (Ha y Hy Hgy).
        -- intros Hlt. apply gt_lt in Hlt. congruence.
    + destruct IH as (-> & Hn).
      destruct (gt (score x) s0) eqn:Hgt; simpl.
      * apply gt_lt in Hgt.
        destruct (gate x) eqn:Hx.
        -- split; [reflexivity |]. split; [exact Hx |]. split; [exact Hgt |].
           exists l, []. split; [reflexivity |]. split.
           ++ intros y Hy Hgy. exact (le_lt_trans _ _ _ (Hn y Hy Hgy) Hgt).
           ++ intros y [].
        -- split; [reflexivity |].
           intros y Hy Hgy. apply in_app_or in Hy as [Hy | [<- | []]].
           ++ exact (Hn y Hy Hgy).
           ++ congruence.
      * split; [reflexivity |].
        intros y Hy Hgy. apply in_app_or in Hy as [Hy | [<- | []]].
        -- exact (Hn y Hy Hgy).
        -- intros Hlt. apply gt_lt in Hlt. congruence.
Qed.

Lemma scan_some (l : list A) (e : A) :
  fst (scan A S score gate gt s0 l) = Some e -> firstBest A S score gate lt s0 l e.
Proof.
  intros H. pose proof (scan_invariant l) as Hi.
  destruct (scan A S score gate gt s0 l) as [[e' |] s]; simpl in H; [| discriminate].
  injection H as ->. exact (proj2 Hi).
Qed.

Lemma scan_none (l : list A) :
  fst (scan A S score gate gt s0 l) = None <-> noneQualifies A S score gate lt s0 l.
Proof.
  pose proof (scan_invariant l) as Hi.
  destruct (scan A S score gate gt s0 l) as [[e |] s]; simpl; split; intros H.
  - discriminate.
  - destruct Hi as (_ & Hg & H0 & p1 & p2 & -> & _).
    exfalso. apply (H e); [apply in_elt | exact Hg | exact H0].
  - exact (proj2 Hi).
  - reflexivity.
Qed.

End Scan.

(* ================================================================== *)
(** * The locator: scores and the validity filter *)

Lemma gtQ_lt (a b : Q) : gtQ a b = true <-> (b < a)%Q.
Proof.
  unfold gtQ. rewrite negb_true_iff. split; intros H.
  - apply Qnot_le_lt. intros Hle. apply Qle_bool_iff in Hle. congruence.
  - destruct (Qle_bool a b) eqn:E; [| reflexivity].
    apply Qle_bool_iff in E. exfalso. exact (Qlt_not_le _ _ H E).
Qed.

Lemma gtQ_false (a b : Q) : gtQ a b = false <-> (a <= b)%Q.
Proof.
  unfold gtQ. rewrite negb_false_iff. apply Qle_bool_iff.
Qed.

Lemma Qnot_lt_lt_trans (a b c : Q) : ~ (a < b)%Q -> (a < c)%Q -> (b < c)%Q.
Proof.
  intros Hab Hac. apply Qnot_lt_le in Hab. exact (Qle_lt_trans _ _ _ Hab Hac).
Qed.

Lemma isValidContent_unfold (e : node) :
  isValidContent (Some e) =
  if trimmedTextLength e <? 100 then false
  else if gtQ (linkRatio e) (1 # 2) then false else true.
Proof. reflexivity. Qed.

Lemma linkRatio_le_half (e : node) :
  0 < trimmedTextLength e ->
  ((linkRatio e <= 1 # 2)%Q <-> 2 * linkTextLength e <= trimmedTextLength e).
Proof.
  unfold linkRatio. intros HT.
  set (a := linkTextLength e). set (t := trimmedTextLength e) in *.
  assert (Ht : (0 < inject_Z (Z.of_nat t))%Q).
  { change 0%Q with (inject_Z 0). rewrite <- Zlt_Qlt. lia. }
  split; intros H.
  - assert (H' : (inject_Z (Z.of_nat a) <= (1 # 2) * inject_Z (Z.of_nat t))%Q).
    { setoid_replace (inject_Z (Z.of_nat a))
        with ((inject_Z (Z.of_nat a) / inject_Z (Z.of_nat t))
              * inject_Z (Z.of_nat t))%Q
        by (field; intros E; rewrite E in Ht; discriminate).
      apply Qmult_le_compat_r; [exact H | now apply Qlt_le_weak]. }
    unfold Qle, Qmult, inject_Z in H'. cbn [Qnum Qden] in H'.
    rewrite ?Pos.mul_1_r, ?Pos.mul_1_l in H'. lia.
  - apply Qle_shift_div_r; [exact Ht |].
    unfold Qle, Qmult, inject_Z. cbn [Qnum Qden].
    rewrite ?Pos.mul_1_r, ?Pos.mul_1_l. lia.
Qed.

(** The validity filter in terms of the two lengths. *)
Lemma isValidContent_lengths (e : node) :
  isValidContent (Some e) = true <->
  100 <= trimmedTextLength e /\ 2 * linkTextLength e <= trimmedTextLength e.
Proof.
  rewrite isValidContent_unfold.
  destruct (trimmedTextLength e <? 100) eqn:E.
  - apply Nat.ltb_lt in E. split; [discriminate | lia].
  - apply Nat.ltb_ge in E.
    destruct (gtQ (linkRatio e) (1 # 2)) eqn:G.
    + apply gtQ_lt in G. split; [discriminate |]. intros [_ H].
      apply linkRatio_le_half in H; [| lia].
      exfalso. exact (Qlt_not_le _ _ G H).
    + apply gtQ_false in G. apply linkRatio_le_half in G; [| lia].
      split; [intros _; split; assumption | reflexivity].
Qed.

(** C5. The validity filter fails for an absent element, fails for every
    element whose trimmed text is shorter than 100 whatever its links,
    fails when the link ratio (link text length over trimmed text length)
    is above one half, as for lengths 500 and 260, passes when the ratio
    is exactly one half, and passes in every other case. *)
Theorem isValidContent_filter :
  isValidContent None = false /\
  (forall e, trimmedTextLength e < 100 -> isValidContent (Some e) = false) /\
  (forall e, 100 <= trimmedTextLength e -> (1 # 2 < linkRatio e)%Q ->
             isValidContent (Some e) = false) /\
  (forall e, trimmedTextLength e = 500 -> linkTextLength e = 260 ->
             isValidContent (Some e) = false) /\
  (forall e, 100 <= trimmedTextLength e -> (linkRatio e == 1 # 2)%Q ->
             isValidContent (Some e) = true) /\
  (forall e, 100 <= trimmedTextLength e -> ~ (1 # 2 < linkRatio e)%Q ->
             isValidContent (Some e) = true).
Proof.
  split; [reflexivity |].
  split.
  { intros e H. rewrite isValidContent_unfold.
    apply Nat.ltb_lt in H. now rewrite H. }
  split.
  { intros e H G. rewrite isValidContent_unfold.
    apply Nat.ltb_ge in H. rewrite H.
    apply gtQ_lt in G. now rewrite G. }
  split.
  { intros e HT HA. rewrite isValidContent_unfold. unfold linkRatio.
    rewrite HT, HA. reflexivity. }
  split.
  { intros e H G. rewrite isValidContent_unfold.
    apply Nat.ltb_ge in H. rewrite H.
    assert (G' : gtQ (linkRatio e) (1 # 2) = false).
    { apply gtQ_false. rewrite G. apply Qle_refl. }
    now rewrite G'. }
  intros e H G. rewrite isValidContent_unfold.
  apply Nat.ltb_ge in H. rewrite H.
  assert (G' : gtQ (linkRatio e) (1 # 2) = false).
  { apply gtQ_false. now apply Qnot_lt_le. }
  now rewrite G'.
Qed.

Lemma isValidContent_filter_witness :
  isValidContent (Some shortBlock) = false /\
  isValidContent (Some linkHeavyBlock) = false /\
  isValidContent (Some linkHeavyBlock) = false /\
  isValidContent (Some halfLinkBlock) = true /\
  isValidContent (Some plainBlock) = true.
Proof.
  destruct isValidContent_filter as (_ & H1 & H2 & H3 & H4 & H5).
  split; [apply H1; vm_compute; lia |].
  split; [apply H2; vm_compute; [lia | reflexivity] |].
  split; [apply H3; vm_compute; reflexivity |].
  split; [apply H4; vm_compute; [lia | reflexivity] |].
  apply H5; vm_compute; [lia | discriminate].
Defined.

(** ** The density score *)

(** C3, as stated, fails: for a [div] that holds the text [hello] and no
    element the formula with the floored denominator gives 5, the code 0. *)
Lemma density_formula_counterexample :
  (calculateTextDensity leafBlock == 0)%Q /\
  (specDensity leafBlock == 5 # 1)%Q /\
  ~ (forall element, (calculateTextDensity element == specDensity element)%Q).
Proof.
  split; [reflexivity |]. split; [reflexivity |].
  intros H. specialize (H leafBlock). vm_compute in H. discriminate H.
Qed.

Lemma calculateTextDensity_unfold (e : node) :
  calculateTextDensity e =
  if 0 <? tagCount e
  then (inject_Z (Z.of_nat (trimmedTextLength e) - Z.of_nat (linkTextLength e))
        / inject_Z (Z.of_nat (tagCount e)))%Q
  else 0%Q.
Proof. reflexivity. Qed.

(** C3, amended. The density score is the trimmed text length minus the
    summed text length of the hyperlink descendants (not trimmed), divided
    by the number of descendant elements when there is one, and 0 when
    there is none; lengths 1000 and 200 with 40 descendants give 20, which
    stage 2 rejects under the threshold 25. *)
Theorem calculateTextDensity_formula (e : node) :
  (tagCount e = 0 -> calculateTextDensity e = 0%Q) /\
  (0 < tagCount e ->
   calculateTextDensity e =
   (inject_Z (Z.of_nat (trimmedTextLength e) - Z.of_nat (linkTextLength e))
    / inject_Z (Z.of_nat (tagCount e)))%Q) /\
  (trimmedTextLength e = 1000 -> linkTextLength e = 200 -> tagCount e = 40 ->
   (calculateTextDensity e == 20 # 1)%Q /\
   gtQ (calculateTextDensity e) textDensityThreshold = false /\
   forall best, densityStep best e = best).
Proof.
  rewrite calculateTextDensity_unfold. split; [| split].
  - intros ->. reflexivity.
  - intros H. apply Nat.ltb_lt in H. now rewrite H.
  - intros HT HA HD.
    assert (E : calculateTextDensity e = (inject_Z 800 / inject_Z 40)%Q).
    { rewrite calculateTextDensity_unfold, HT, HA, HD. reflexivity. }
    rewrite <- calculateTextDensity_unfold.
    split; [rewrite E; reflexivity |].
    split; [rewrite E; reflexivity |].
    intros best. unfold densityStep. rewrite E.
    replace (gtQ (inject_Z 800 / inject_Z 40) textDensityThreshold)
      with false by reflexivity.
    now rewrite andb_false_r.
Qed.

Lemma calculateTextDensity_formula_witness :
  (calculateTextDensity (Element 1 "div" [] []) = 0%Q) /\
  (calculateTextDensity denseBlock == 20 # 1)%Q /\
  gtQ (calculateTextDensity denseBlock) textDensityThreshold = false.
Proof.
  split.
  - apply (proj1 (calculateTextDensity_formula (Element 1 "div" [] []))).
    reflexivity.
  - destruct (proj2 (proj2 (calculateTextDensity_formula denseBlock)))
      as (H1 & H2 & _); try (vm_compute; reflexivity).
    split; assumption.
Defined.

(** C9, as stated, fails: a [div] whose only content is a link with the
    text [" x "] has trimmed text length 1 and link text length 3, and
    its density is -2. *)
Lemma density_nonnegative_counterexample :
  (calculateTextDensity paddedLinkBlock == -2 # 1)%Q /\
  ~ (forall element, (0 <= calculateTextDensity element)%Q).
Proof.
  split; [reflexivity |].
  intros H. specialize (H paddedLinkBlock). vm_compute in H.
  apply H. reflexivity.
Qed.

(** C9, amended. The density score of an element is non-negative whenever
    the summed text length of its hyperlink descendants does not exceed
    its trimmed text length. *)
Theorem calculateTextDensity_nonnegative (e : node) :
  linkTextLength e <= trimmedTextLength e ->
  (0 <= calculateTextDensity e)%Q.
Proof.
  intros H. rewrite calculateTextDensity_unfold.
  destruct (0 <? tagCount e) eqn:E; [| apply Qle_refl].
  apply Nat.ltb_lt in E.
  apply Qle_shift_div_l.
  - change 0%Q with (inject_Z 0). rewrite <- Zlt_Qlt. lia.
  - rewrite Qmult_0_l. change 0%Q with (inject_Z 0). rewrite <- Zle_Qle. lia.
Qed.

Lemma calculateTextDensity_nonnegative_witness :
  linkTextLength denseBlock <= trimmedTextLength denseBlock /\
  (0 <= calculateTextDensity denseBlock)%Q.
Proof.
  assert (H : linkTextLength denseBlock <= trimmedTextLength denseBlock)
    by (vm_compute; lia).
  split; [exact H |].
  exact (calculateTextDensity_nonnegative denseBlock H).
Defined.

(* ================================================================== *)
(** * The locator: the three stages *)

Lemma querySelectorIn_some (doc : list node) (sel : selector) (e : node) :
  querySelectorIn doc sel = Some e ->
  (exists rest, querySelectorAllIn doc sel = e :: rest) /\
  In e (elementsIn doc) /\ matches sel e = true.
Proof.
  unfold querySelectorIn. intros H.
  destruct (querySelectorAllIn doc sel) as [| x rest] eqn:E; [discriminate |].
  injection H as ->. split; [now exists rest |].
  apply filter_In. unfold querySelectorAllIn in E. rewrite E. now left.
Qed.

(** ** Stage 1 *)

Lemma findContentBySelectorsFrom_none (doc : list node) (sels : list selector) :
  findContentBySelectorsFrom doc sels = None <->
  forall s, In s sels -> isValidContent (querySelectorIn doc s) = false.
Proof.
  induction sels as [| s0 sels IH]; cbn [findContentBySelectorsFrom].
  - split; [intros _ s [] | reflexivity].
  - destruct (querySelectorIn doc s0) as [e |] eqn:E; cbn [isNull negb andb].
    + destruct (isValidContent (Some e)) eqn:V.
      * split; [discriminate |]. intros H.
        specialize (H s0 (or_introl eq_refl)). rewrite E in H. congruence.
      * rewrite IH. split.
        -- intros H s [<- | Hs]; [now rewrite E | now apply H].
        -- intros H s Hs. apply H. now right.
    + rewrite IH. split.
      * intros H s [<- | Hs]; [now rewrite E | now apply H].
      * intros H s Hs. apply H. now right.
Qed.

Lemma findContentBySelectorsFrom_some (doc : list node) (sels : list selector) :
  (exists s, In s sels /\ isValidContent (querySelectorIn doc s) = true) ->
  exists pre sel post e,
    sels = pre ++ sel :: post /\
    (forall s, In s pre -> isValidContent (querySelectorIn doc s) = false) /\
    querySelectorIn doc sel = Some e /\
    isValidContent (Some e) = true /\
    findContentBySelectorsFrom doc sels = Some e.
Proof.
  induction sels as [| s0 sels IH]; intros (s & Hs & Hv).
  - destruct Hs.
  - cbn [findContentBySelectorsFrom].
    destruct (isValidContent (querySelectorIn doc s0)) eqn:V.
    + destruct (querySelectorIn doc s0) as [e |] eqn:E; [| discriminate].
      exists [], s0, sels, e. cbn [isNull negb andb app].
      repeat split; try assumption. intros x [].
    + destruct Hs as [<- | Hs]; [congruence |].
      destruct IH as (pre & sel & post & e & -> & Hpre & Hq & Hve & Hf);
        [now exists s |].
      exists (s0 :: pre), sel, post, e. rewrite andb_false_r.
      repeat split; try assumption.
      intros x [<- | Hx]; [exact V | now apply Hpre].
Qed.

(** C2, as stated, fails: the second [article] of [twoArticles] matches
    the first stage-1 selector and passes the validity filter, but stage 1
    looks only at the first match of each selector, finds nothing, stages
    2 and 3 are run, and the element returned, [html], matches no stage-1
    selector. *)
Lemma stage1_any_valid_match_counterexample :
  (exists e, In e (elementsIn twoArticles) /\
             existsb (fun s => matches s e) contentSelectors = true /\
             isValidContent (Some e) = true) /\
  (exists e, extractMainContentRun twoArticles
             = (Some e, [Stage1; Stage2; Stage3]) /\
             existsb (fun s => matches s e) contentSelectors = false).
Proof.
  split.
  - exists (Element 3 "article" [] [textOf 100]).
    split; [simpl; right; right; right; left; reflexivity |].
    split; reflexivity.
  - eexists. split; reflexivity.
Qed.

(** C2, amended. For every tree in which the first element in document
    order that matches some stage-1 selector passes the validity filter,
    the locator returns that first match for the first such selector in
    priority order, and evaluates neither stage 2 nor stage 3. *)
Theorem stage1_first_valid_selector (doc : list node) :
  (exists s, In s contentSelectors /\
             isValidContent (querySelectorIn doc s) = true) ->
  exists pre sel post e,
    contentSelectors = pre ++ sel :: post /\
    (forall s, In s pre -> isValidContent (querySelectorIn doc s) = false) /\
    (exists rest, querySelectorAllIn doc sel = e :: rest) /\
    In e (elementsIn doc) /\ matches sel e = true /\
    isValidContent (Some e) = true /\
    extractMainContentRun doc = (Some e, [Stage1]) /\
    extractMainContent doc = Some e.
Proof.
  intros H.
  destruct (findContentBySelectorsFrom_some doc contentSelectors H)
    as (pre & sel & post & e & Hs & Hpre & Hq & Hv & Hf).
  exists pre, sel, post, e.
  destruct (querySelectorIn_some doc sel e Hq) as (Hr & Hin & Hm).
  assert (Hrun : extractMainContentRun doc = (Some e, [Stage1])).
  { unfold extractMainContentRun, findContentBySelectors. now rewrite Hf. }
  unfold extractMainContent. rewrite Hrun. repeat split; assumption.
Qed.

Lemma stage1_first_valid_selector_witness :
  exists e, nodeId e = 3 /\
            extractMainContentRun firstArticleValid = (Some e, [Stage1]).
Proof.
  destruct (stage1_first_valid_selector firstArticleValid)
    as (pre & sel & post & e & _ & _ & _ & _ & _ & _ & Hrun & _).
  - exists [TypeSel "article"]. split; [now left | reflexivity].
  - exists e. split; [| exact Hrun].
    assert (E : Some e = Some (Element 3 "article" [] [textOf 100])).
    { change (fst (Some e, [Stage1])
              = fst (extractMainContentRun firstArticleValid)).
      now rewrite Hrun. }
    injection E as ->. reflexivity.
Defined.

(** ** Stage 2 *)

Lemma findContentByTextDensity_scan (doc : list node) :
  findContentByTextDensity doc
  = fst (scan node Q calculateTextDensity
              (fun x => gtQ (calculateTextDensity x) textDensityThreshold)
              gtQ 0%Q (densityCandidates doc)).
Proof. reflexivity. Qed.

Lemma findContentByTextDensity_some (doc : list node) (e : node) :
  findContentByTextDensity doc = Some e ->
  firstBest node Q calculateTextDensity
            (fun x => gtQ (calculateTextDensity x) textDensityThreshold)
            (fun a b => (a < b)%Q) 0%Q (densityCandidates doc) e.
Proof.
  rewrite findContentByTextDensity_scan.
  apply (scan_some _ _ _ _ gtQ (fun a b => (a < b)%Q)).
  - intros a b. apply gtQ_lt.
  - intros a b c. apply Qlt_trans.
  - intros a b c. apply Qnot_lt_lt_trans.
Qed.

Lemma findContentByTextDensity_none (doc : list node) :
  findContentByTextDensity doc = None <->
  noneQualifies node Q calculateTextDensity
                (fun x => gtQ (calculateTextDensity x) textDensityThreshold)
                (fun a b => (a < b)%Q) 0%Q (densityCandidates doc).
Proof.
  rewrite findContentByTextDensity_scan.
  apply (scan_none _ _ _ _ gtQ (fun a b => (a < b)%Q)).
  - intros a b. apply gtQ_lt.
  - intros a b c. apply Qlt_trans.
  - intros a b c. apply Qnot_lt_lt_trans.
Qed.

Lemma threshold_positive : (0 < textDensityThreshold)%Q.
Proof. reflexivity. Qed.

Lemma densityCandidates_spec (doc : list node) (x : node) :
  In x (densityCandidates doc) <->
  In x (elementsIn doc) /\ In (nodeName x) ["div"; "section"; "main"].
Proof.
  unfold densityCandidates, querySelectorAllIn. rewrite filter_In.
  split; intros [Hin H]; (split; [exact Hin |]);
    pose proof (elementsIn_isElement doc x Hin) as He;
    unfold matches, matchesSimple in *; simpl in *; rewrite He in *; simpl in *.
  - rewrite !orb_true_iff, !String.eqb_eq in H.
    destruct H as [H | [H | [H | H]]]; auto; discriminate.
  - rewrite !orb_true_iff, !String.eqb_eq.
    destruct H as [H | [H | [H | []]]]; auto.
Qed.

(** C4. For every tree on which stage 1 finds nothing, stage 2 returns,
    among the [div], [section] and [main] elements in document order, the
    first one of maximal density provided that density exceeds 25 (every
    earlier candidate has a strictly smaller score, no later one a greater
    score); when no candidate exceeds 25 the locator goes on to stage 3. *)
Theorem findContentByTextDensity_firstMax (doc : list node) :
  findContentBySelectors doc = None ->
  (forall x, In x (densityCandidates doc) <->
             In x (elementsIn doc) /\ In (nodeName x) ["div"; "section"; "main"]) /\
  (forall e, findContentByTextDensity doc = Some e ->
     (textDensityThreshold < calculateTextDensity e)%Q /\
     (exists p1 p2, densityCandidates doc = p1 ++ e :: p2 /\
        (forall x, In x p1 -> (calculateTextDensity x < calculateTextDensity e)%Q) /\
        (forall x, In x p2 -> (calculateTextDensity x <= calculateTextDensity e)%Q)) /\
     extractMainContentRun doc = (Some e, [Stage1; Stage2])) /\
  ((exists x, In x (densityCandidates doc) /\
              (textDensityThreshold < calculateTextDensity x)%Q) ->
   exists e, findContentByTextDensity doc = Some e) /\
  ((forall x, In x (densityCandidates doc) ->
              (calculateTextDensity x <= textDensityThreshold)%Q) ->
   findContentByTextDensity doc = None /\
   extractMainContentRun doc = (findLargestTextBlock doc, [Stage1; Stage2; Stage3])).
Proof.
  intros H1. split; [exact (densityCandidates_spec doc) |].
  split; [| split].
  - intros e He.
    destruct (findContentByTextDensity_some doc e He) as (Hg & _ & p1 & p2 & Hl & Hb & Ha).
    apply gtQ_lt in Hg. split; [exact Hg |]. split.
    + exists p1, p2. split; [exact Hl |]. split.
      * intros x Hx.
        destruct (gtQ (calculateTextDensity x) textDensityThreshold) eqn:G.
        -- now apply Hb.
        -- apply gtQ_false in G. exact (Qle_lt_trans _ _ _ G Hg).
      * intros x Hx.
        destruct (gtQ (calculateTextDensity x) textDensityThreshold) eqn:G.
        -- apply Qnot_lt_le. now apply Ha.
        -- apply gtQ_false in G. apply Qlt_le_weak.
           exact (Qle_lt_trans _ _ _ G Hg).
    + unfold extractMainContentRun. rewrite H1, He. reflexivity.
  - intros (x & Hx & Hgx).
    destruct (findContentByTextDensity doc) as [e |] eqn:E; [now exists e |].
    exfalso. apply findContentByTextDensity_none in E.
    apply (E x Hx); [now apply gtQ_lt |].
    exact (Qlt_trans _ _ _ threshold_positive Hgx).
  - intros Hall.
    assert (E : findContentByTextDensity doc = None).
    { apply findContentByTextDensity_none.
      intros x Hx Hg. apply gtQ_lt in Hg. exfalso.
      exact (Qlt_not_le _ _ Hg (Hall x Hx)). }
    split; [exact E |].
    unfold extractMainContentRun. rewrite H1, E. reflexivity.
Qed.

Lemma findContentByTextDensity_firstMax_witness :
  findContentBySelectors equalDensities = None /\
  extractMainContentRun equalDensities
  = (Some (Element 2 "section" [] [Element 3 "p" [] [textOf 100]]),
     [Stage1; Stage2]).
Proof.
  assert (H : findContentBySelectors equalDensities = None) by reflexivity.
  split; [exact H |].
  destruct (findContentByTextDensity_firstMax equalDensities H)
    as (_ & Hsome & _).
  apply (Hsome (Element 2 "section" [] [Element 3 "p" [] [textOf 100]])).
  reflexivity.
Defined.

(** ** Stage 3 *)

Lemma findLargestTextBlock_scan (doc : list node) :
  findLargestTextBlock doc
  = fst (scan node nat trimmedTextLength (fun x => isValidContent (Some x))
              (fun a b => b <? a) 0 (allElements doc)).
Proof. reflexivity. Qed.

Lemma findLargestTextBlock_some (doc : list node) (e : node) :
  findLargestTextBlock doc = Some e ->
  firstBest node nat trimmedTextLength (fun x => isValidContent (Some x))
            lt 0 (allElements doc) e.
Proof.
  rewrite findLargestTextBlock_scan.
  apply (scan_some _ _ _ _ (fun a b => b <? a) lt).
  - intros a b. apply Nat.ltb_lt.
  - intros a b c. apply Nat.lt_trans.
  - intros a b c. lia.
Qed.

Lemma findLargestTextBlock_none (doc : list node) :
  findLargestTextBlock doc = None <->
  noneQualifies node nat trimmedTextLength (fun x => isValidContent (Some x))
                lt 0 (allElements doc).
Proof.
  rewrite findLargestTextBlock_scan.
  apply (scan_none _ _ _ _ (fun a b => b <? a) lt).
  - intros a b. apply Nat.ltb_lt.
  - intros a b c. apply Nat.lt_trans.
  - intros a b c. lia.
Qed.

(** C6. For every tree on which stages 1 and 2 find nothing, stage 3 goes
    through every element of the tree in document order and returns the
    first one of greatest trimmed text length among those that pass the
    validity filter (every earlier valid element is strictly shorter, no
    later valid element is longer), and nothing when no element passes the
    filter. *)
Theorem findLargestTextBlock_firstMax (doc : list node) :
  findContentBySelectors doc = None ->
  findContentByTextDensity doc = None ->
  allElements doc = elementsIn doc /\
  (forall e, findLargestTextBlock doc = Some e ->
     isValidContent (Some e) = true /\
     (exists p1 p2, elementsIn doc = p1 ++ e :: p2 /\
        (forall x, In x p1 -> isValidContent (Some x) = true ->
                   trimmedTextLength x < trimmedTextLength e) /\
        (forall x, In x p2 -> isValidContent (Some x) = true ->
                   trimmedTextLength x <= trimmedTextLength e)) /\
     extractMainContentRun doc = (Some e, [Stage1; Stage2; Stage3])) /\
  ((exists x, In x (elementsIn doc) /\ isValidContent (Some x) = true) ->
   exists e, findLargestTextBlock doc = Some e) /\
  ((forall x, In x (elementsIn doc) -> isValidContent (Some x) = false) ->
   findLargestTextBlock doc = None /\
   extractMainContentRun doc = (None, [Stage1; Stage2; Stage3])).
Proof.
  intros H1 H2.
  assert (Hall : allElements doc = elementsIn doc)
    by apply querySelectorAllIn_universal.
  split; [exact Hall |]. split; [| split].
  - intros e He.
    destruct (findLargestTextBlock_some doc e He)
      as (Hg & _ & p1 & p2 & Hl & Hb & Ha).
    split; [exact Hg |]. split.
    + exists p1, p2. rewrite <- Hall. split; [exact Hl |]. split.
      * exact Hb.
      * intros x Hx Hv. specialize (Ha x Hx Hv). lia.
    + unfold extractMainContentRun. rewrite H1, H2, He. reflexivity.
  - intros (x & Hx & Hv).
    destruct (findLargestTextBlock doc) as [e |] eqn:E; [now exists e |].
    exfalso. apply findLargestTextBlock_none in E.
    rewrite <- Hall in Hx. apply (E x Hx Hv).
    apply isValidContent_lengths in Hv. lia.
  - intros Hno.
    assert (E : findLargestTextBlock doc = None).
    { apply findLargestTextBlock_none. intros x Hx Hv.
      rewrite Hall in Hx. rewrite (Hno x Hx) in Hv. discriminate. }
    split; [exact E |].
    unfold extractMainContentRun. rewrite H1, H2, E. reflexivity.
Qed.

Lemma findLargestTextBlock_firstMax_witness :
  (exists e, nodeId e = 0 /\
             extractMainContentRun equalLengths
             = (Some e, [Stage1; Stage2; Stage3])) /\
  extractMainContentRun onlyShortTexts = (None, [Stage1; Stage2; Stage3]).
Proof.
  split.
  - destruct (findLargestTextBlock_firstMax equalLengths eq_refl eq_refl)
      as (_ & Hsome & _).
    eexists. split; [| apply Hsome; reflexivity]. reflexivity.
  - destruct (findLargestTextBlock_firstMax onlyShortTexts eq_refl eq_refl)
      as (_ & _ & _ & Hnone).
    apply Hnone. intros x Hx. simpl in Hx.
    destruct Hx as [<- | [<- | []]]; reflexivity.
Defined.

(* ================================================================== *)
(** * Trees: identities, detaching, attribute updates *)

Lemma find_app_l {A : Type} (p : A -> bool) (l1 l2 : list A) (x : A) :
  find p l1 = Some x -> find p (l1 ++ l2) = Some x.
Proof.
  induction l1 as [| y l1 IH]; simpl; [discriminate |].
  destruct (p y); [trivial | exact IH].
Qed.

Lemma find_app_r {A : Type} (p : A -> bool) (l1 l2 : list A) :
  (forall x, In x l1 -> p x = false) -> find p (l1 ++ l2) = find p l2.
Proof.
  induction l1 as [| y l1 IH]; simpl; intros H; [reflexivity |].
  rewrite (H y (or_introl eq_refl)). apply IH. intros x Hx. apply H. now right.
Qed.

Lemma elementsIn_app (l1 l2 : list node) :
  elementsIn (l1 ++ l2) = elementsIn l1 ++ elementsIn l2.
Proof. unfold elementsIn. apply flat_map_app. Qed.

Lemma elementsOf_self (n : node) :
  isElement n = true -> exists rest, elementsOf n = n :: rest.
Proof.
  destruct n as [i t a cs | d]; simpl; [| discriminate].
  intros _. now exists (flat_map elementsOf cs).
Qed.

Lemma elementsOf_cons (n : node) :
  isElement n = true -> elementsOf n = n :: descendants n.
Proof. destruct n; simpl; [reflexivity | discriminate]. Qed.

Lemma in_elementsIn (cs : list node) (c e : node) :
  In c cs -> In e (elementsOf c) -> In e (elementsIn cs).
Proof. intros Hc He. apply in_flat_map. now exists c. Qed.

Lemma descendants_trans (n c e : node) :
  In c (descendants n) -> In e (descendants c) -> In e (descendants n).
Proof.
  revert c e. induction n as [i t a cs IH | d] using node_rect';
    intros c e Hc He; [| destruct Hc].
  unfold descendants in *. simpl in *.
  apply in_flat_map in Hc as (k & Hk & Hc).
  apply in_flat_map. exists k. split; [exact Hk |].
  destruct k as [j u b ks | d']; [| destruct Hc].
  simpl in Hc. destruct Hc as [<- | Hc].
  - simpl. right. exact He.
  - simpl. right. rewrite Forall_forall in IH.
    exact (IH _ Hk c e Hc He).
Qed.

Lemma prune_sameShell (r : nat) (n : node) : sameShell (prune r n) n.
Proof. destruct n; repeat split. Qed.

Lemma hasId_prune (r x : nat) (n : node) : hasId x (prune r n) = hasId x n.
Proof. now destruct n. Qed.

Lemma matches_shell (sel : selector) (e e0 : node) :
  sameShell e e0 -> matches sel e = matches sel e0.
Proof.
  intros (H1 & _ & H3 & H4). unfold matches, matchesSimple.
  now rewrite H1, H3, H4.
Qed.

(** What is left below [n] once [r] is detached: copies of descendants of
    [n] whose identity is not [r]. *)
Lemma descendants_prune (r : nat) (n e : node) :
  In e (descendants (prune r n)) ->
  exists e0, In e0 (descendants n) /\ e = prune r e0 /\ nodeId e0 <> r.
Proof.
  revert e. induction n as [i t a cs IH | d] using node_rect';
    intros e He; [| destruct He].
  unfold descendants in *. simpl in He.
  apply in_flat_map in He as (c' & Hc' & He).
  apply filter_In in Hc' as (Hc' & Hid).
  apply in_map_iff in Hc' as (c & <- & Hc).
  rewrite hasId_prune in Hid.
  destruct c as [j u b ks | d']; [| destruct He].
  rewrite elementsOf_cons in He by reflexivity.
  destruct He as [<- | He].
  - exists (Element j u b ks). split; [| split; [reflexivity |]].
    + simpl. apply in_flat_map. exists (Element j u b ks).
      split; [exact Hc | now left].
    + unfold hasId in Hid. simpl in Hid.
      apply negb_true_iff, Nat.eqb_neq in Hid. exact Hid.
  - rewrite Forall_forall in IH.
    destruct (IH _ Hc e He) as (e0 & He0 & -> & Hne).
    exists e0. split; [| split; [reflexivity | exact Hne]].
    simpl. apply in_flat_map. exists (Element j u b ks).
    split; [exact Hc |]. simpl. right. exact He0.
Qed.

(** Detaching an element that the tree does not hold changes nothing. *)
Lemma prune_absent (r : nat) (n : node) :
  (forall e, In e (elementsOf n) -> nodeId e <> r) -> prune r n = n.
Proof.
  induction n as [i t a cs IH | d] using node_rect'; intros H; [| reflexivity].
  simpl. f_equal.
  assert (Hm : map (prune r) cs = cs).
  { rewrite <- (map_id cs) at 2. apply map_ext_in. intros c Hc.
    rewrite Forall_forall in IH. apply (IH c Hc).
    intros e He. apply H. simpl. right. now apply (in_elementsIn cs c). }
  rewrite Hm. apply filter_all. intros c Hc.
  destruct c as [j u b ks | d]; [| reflexivity].
  unfold hasId. simpl. apply negb_true_iff, Nat.eqb_neq.
  apply (H (Element j u b ks)). simpl. right.
  apply (in_elementsIn cs (Element j u b ks)); [exact Hc | now left].
Qed.

Lemma updateAttrs_absent (r : nat) (f : list attribute -> list attribute)
  (n : node) :
  (forall e, In e (elementsOf n) -> nodeId e <> r) -> updateAttrs r f n = n.
Proof.
  induction n as [i t a cs IH | d] using node_rect'; intros H; [| reflexivity].
  simpl.
  assert (Hi : (i =? r) = false).
  { apply Nat.eqb_neq. apply (H (Element i t a cs)). now left. }
  rewrite Hi. f_equal.
  rewrite <- (map_id cs) at 2. apply map_ext_in. intros c Hc.
  rewrite Forall_forall in IH. apply (IH c Hc).
  intros e He. apply H. simpl. right. now apply (in_elementsIn cs c).
Qed.

Lemma updateAttrs_shell (r : nat) (f : list attribute -> list attribute)
  (n : node) :
  isElement (updateAttrs r f n) = isElement n /\
  nodeId (updateAttrs r f n) = nodeId n /\
  nodeName (updateAttrs r f n) = nodeName n /\
  nodeAttributes (updateAttrs r f n)
  = (if isElement n && (nodeId n =? r) then f (nodeAttributes n)
     else nodeAttributes n).
Proof. destruct n; simpl; repeat split; reflexivity. Qed.

Lemma elementsOf_updateAttrs (r : nat) (f : list attribute -> list attribute)
  (n : node) :
  elementsOf (updateAttrs r f n) = map (updateAttrs r f) (elementsOf n).
Proof.
  induction n as [i t a cs IH | d] using node_rect'; [| reflexivity].
  simpl. f_equal.
  induction cs as [| c cs IHcs]; [reflexivity |].
  simpl. rewrite map_app. inversion IH as [| ? ? Hc Hcs]; subst.
  rewrite Hc. f_equal. now apply IHcs.
Qed.

Lemma descendants_updateAttrs (r : nat) (f : list attribute -> list attribute)
  (n : node) :
  descendants (updateAttrs r f n) = map (updateAttrs r f) (descendants n).
Proof.
  destruct n as [i t a cs | d]; [| reflexivity].
  unfold descendants, elementsIn. simpl.
  induction cs as [| c cs IH]; [reflexivity |].
  simpl. rewrite map_app, elementsOf_updateAttrs. now f_equal.
Qed.

(** ** Copies *)

Lemma cloneTree_unfold (i : nat) (t : string) (a : list attribute)
  (cs : list node) (nx : nat) :
  cloneTree (Element i t a cs) nx
  = (Element nx t a (fst (cloneList cs (S nx))), snd (cloneList cs (S nx))).
Proof.
  change (cloneTree (Element i t a cs) nx)
    with (let '(cs', next') := cloneList cs (S nx) in (Element nx t a cs', next')).
  now destruct (cloneList cs (S nx)).
Qed.

Lemma cloneList_cons (c : node) (l : list node) (nx : nat) :
  cloneList (c :: l) nx
  = (fst (cloneTree c nx) :: fst (cloneList l (snd (cloneTree c nx))),
     snd (cloneList l (snd (cloneTree c nx)))).
Proof.
  simpl. destruct (cloneTree c nx) as [c' nx1]. simpl.
  now destruct (cloneList l nx1).
Qed.

(** The elements of a copy are numbered consecutively, in document
    order, from the first free identity on. *)
Lemma cloneTree_ids (n : node) (nx : nat) :
  nx <= snd (cloneTree n nx) /\
  map nodeId (elementsOf (fst (cloneTree n nx)))
  = seq nx (snd (cloneTree n nx) - nx).
Proof.
  revert nx. induction n as [i t a cs IH | d] using node_rect'; intros nx.
  - rewrite cloneTree_unfold. simpl.
    assert (Hl : forall k, k <= snd (cloneList cs k) /\
                 map nodeId (elementsIn (fst (cloneList cs k)))
                 = seq k (snd (cloneList cs k) - k)).
    { clear nx. induction cs as [| c cs IHcs]; intros k.
      - simpl. split; [lia |]. now rewrite Nat.sub_diag.
      - inversion IH as [| ? ? Hc Hcs]; subst.
        rewrite cloneList_cons. simpl.
        destruct (Hc k) as [Hle1 Hs1].
        destruct (IHcs Hcs (snd (cloneTree c k))) as [Hle2 Hs2].
        split; [lia |].
        unfold elementsIn in *. rewrite map_app, Hs1, Hs2.
        replace (snd (cloneList cs (snd (cloneTree c k))) - k)
          with ((snd (cloneTree c k) - k)
                + (snd (cloneList cs (snd (cloneTree c k)))
                   - snd (cloneTree c k))) by lia.
        rewrite seq_app. do 2 f_equal. lia. }
    destruct (Hl (S nx)) as [Hle Hs]. split; [lia |].
    fold (elementsIn (fst (cloneList cs (S nx)))). rewrite Hs.
    replace (snd (cloneList cs (S nx)) - nx)
      with (S (snd (cloneList cs (S nx)) - S nx)) by lia.
    reflexivity.
  - simpl. split; [lia |]. now rewrite Nat.sub_diag.
Qed.

Lemma cloneTree_root (n : node) (nx : nat) :
  isElement n = true ->
  isElement (fst (cloneTree n nx)) = true /\
  nodeId (fst (cloneTree n nx)) = nx /\
  nodeName (fst (cloneTree n nx)) = nodeName n /\
  nodeAttributes (fst (cloneTree n nx)) = nodeAttributes n.
Proof.
  destruct n as [i t a cs | d]; [| discriminate].
  intros _. rewrite cloneTree_unfold. repeat split.
Qed.

(** A copy has the text of the original. *)
Lemma cloneTree_textContent (n : node) (nx : nat) :
  textContent (fst (cloneTree n nx)) = textContent n.
Proof.
  revert nx. induction n as [i t a cs IH | d] using node_rect'; intros nx;
    [| reflexivity].
  rewrite cloneTree_unfold. simpl. f_equal.
  generalize (S nx). clear nx.
  induction cs as [| c cs IHcs]; intros k; [reflexivity |].
  inversion IH as [| ? ? Hc Hcs]; subst.
  rewrite cloneList_cons. simpl. rewrite Hc. f_equal. now apply IHcs.
Qed.

(* ================================================================== *)
(** * The heap: a fragment next to the trees it was copied from *)

Section Frame.

(** The trees [D] and [old] were there before the identity [lo] was
    given out; the fragment is the last detached tree. *)
Variable lo : nat.
Variables D old : list node.
Hypothesis below : forall e, In e (elementsIn (D ++ old)) -> nodeId e < lo.

Lemma below_absent (r : nat) (n : node) :
  lo <= r -> In n (D ++ old) ->
  forall e, In e (elementsOf n) -> nodeId e <> r.
Proof.
  intros Hr Hn e He.
  assert (nodeId e < lo) by (apply below; now apply (in_elementsIn _ n)).
  lia.
Qed.

Lemma resolve_fragHeap (r nx : nat) (t : node) :
  lo <= r -> resolve r (fragHeap D old nx t) = find (hasId r) (elementsOf t).
Proof.
  intros Hr. unfold resolve, fragHeap. simpl.
  rewrite app_assoc, elementsIn_app. unfold elementsIn at 2. simpl.
  rewrite app_nil_r. apply find_app_r. intros e He.
  apply below in He. unfold hasId.
  replace (nodeId e =? r) with false by (symmetry; apply Nat.eqb_neq; lia).
  apply andb_false_r.
Qed.

Lemma resolve_root (nx : nat) (t : node) :
  isFrag lo t -> resolve lo (fragHeap D old nx t) = Some t.
Proof.
  intros (He & Hid & _). rewrite resolve_fragHeap by lia.
  rewrite elementsOf_cons by exact He. simpl.
  unfold hasId. now rewrite He, Hid, Nat.eqb_refl.
Qed.

Lemma prune_below (r : nat) (l : list node) :
  lo <= r -> incl l (D ++ old) -> map (prune r) l = l.
Proof.
  intros Hr Hl. rewrite <- (map_id l) at 2. apply map_ext_in.
  intros n Hn. apply prune_absent. apply below_absent; auto.
Qed.

Lemma updateAttrs_below (r : nat) (f : list attribute -> list attribute)
  (l : list node) :
  lo <= r -> incl l (D ++ old) -> map (updateAttrs r f) l = l.
Proof.
  intros Hr Hl. rewrite <- (map_id l) at 2. apply map_ext_in.
  intros n Hn. apply updateAttrs_absent. apply below_absent; auto.
Qed.

Lemma remove_fragHeap (r nx : nat) (t : node) :
  lo <= r -> remove r (fragHeap D old nx t) = Some (tt, fragHeap D old nx (prune r t)).
Proof.
  intros Hr. unfold remove, fragHeap, pruneForest. simpl.
  rewrite map_app, !prune_below by (auto using incl_appl, incl_appr, incl_refl).
  rewrite filter_all; [reflexivity |].
  intros c Hc. destruct c as [j u b ks | d]; [| reflexivity].
  unfold hasId. simpl. apply negb_true_iff, Nat.eqb_neq.
  change (nodeId (Element j u b ks) <> r).
  apply (below_absent r (Element j u b ks)); [exact Hr | | now left].
  apply in_or_app. now left.
Qed.

Lemma modifyAttrs_fragHeap (r nx : nat)
  (f : list attribute -> list attribute) (t : node) :
  lo <= r ->
  modifyAttrs r f (fragHeap D old nx t)
  = Some (tt, fragHeap D old nx (updateAttrs r f t)).
Proof.
  intros Hr. unfold modifyAttrs, fragHeap. simpl.
  rewrite map_app, !updateAttrs_below
    by (auto using incl_appl, incl_appr, incl_refl).
  reflexivity.
Qed.

Lemma isFrag_prune (r : nat) (t : node) : isFrag lo t -> isFrag lo (prune r t).
Proof.
  intros (He & Hid & Hd).
  destruct (prune_sameShell r t) as (H1 & H2 & _).
  split; [congruence |]. split; [congruence |].
  intros e Hin. apply descendants_prune in Hin as (e0 & He0 & -> & _).
  destruct (prune_sameShell r e0) as (_ & -> & _). now apply Hd.
Qed.

Lemma isFrag_updateAttrs (r : nat) (f : list attribute -> list attribute)
  (t : node) : isFrag lo t -> isFrag lo (updateAttrs r f t).
Proof.
  intros (He & Hid & Hd).
  destruct (updateAttrs_shell r f t) as (H1 & H2 & _).
  split; [congruence |]. split; [congruence |].
  intros e Hin. rewrite descendants_updateAttrs in Hin.
  apply in_map_iff in Hin as (e0 & <- & He0).
  destruct (updateAttrs_shell r f e0) as (_ & -> & _). now apply Hd.
Qed.

(** A [forEach] whose turns act on the fragment alone acts on the
    fragment alone, as the fold of its turns. *)
Lemma forEach_fragHeap {A : Type} (I : node -> Prop) (f : A -> M unit)
  (g : node -> A -> node) (l : list A) :
  (forall x t nx, In x l -> I t ->
     f x (fragHeap D old nx t) = Some (tt, fragHeap D old nx (g t x)) /\ I (g t x)) ->
  forall t nx, I t ->
    forEach l f (fragHeap D old nx t) = Some (tt, fragHeap D old nx (fold_left g l t)) /\
    I (fold_left g l t).
Proof.
  induction l as [| x l IH]; intros Hstep t nx Ht.
  - simpl. split; [reflexivity | exact Ht].
  - simpl. unfold bind.
    destruct (Hstep x t nx (or_introl eq_refl) Ht) as [-> Hg].
    apply IH; [| exact Hg].
    intros y t' nx' Hy. apply Hstep. now right.
Qed.

End Frame.

(* ================================================================== *)
(** * The sanitizer on the fragment *)

Lemma bind_some {A B : Type} (m : M A) (k : A -> M B) (h h' : heap) (a : A) :
  m h = Some (a, h') -> bind m k h = k a h'.
Proof. unfold bind. now intros ->. Qed.

Lemma nextElement_some (l rest : list node) (i : nat) :
  nextElement l = Some (i, rest) ->
  List.length rest < List.length l /\ walkElements l = i :: walkElements rest.
Proof.
  induction l as [| [j t a cs | d] l IH]; simpl; intros H.
  - discriminate.
  - injection H as -> ->. split; [lia | reflexivity].
  - destruct (IH H) as [Hlen Hw]. split; [lia | exact Hw].
Qed.

Lemma nextElement_none (l : list node) :
  nextElement l = None -> walkElements l = [].
Proof.
  induction l as [| [j t a cs | d] l IH]; simpl; intros H;
    [reflexivity | discriminate | now apply IH].
Qed.

(** The loop ends because [nextNode] returns [null], with fuel to spare,
    and has then collected the elements that followed the walker. *)
Lemma collectNodes_walk (fuel : nat) (w : treeWalker) :
  List.length (following w) < fuel ->
  collectNodes fuel w = walkElements (following w).
Proof.
  revert w. induction fuel as [| fuel IH]; intros w Hlen; [lia |].
  simpl. unfold nextNode.
  destruct (nextElement (following w)) as [[i rest] |] eqn:E.
  - destruct (nextElement_some _ _ _ E) as [Hl Hw].
    rewrite Hw. f_equal. rewrite IH; [reflexivity | simpl; lia].
  - symmetry. now apply nextElement_none.
Qed.

(** The walker visits the element descendants of its root, in document
    order; the root itself, on which it stands at first, is not visited. *)
Lemma walkElements_nodesOf (cs : list node) :
  walkElements (flat_map nodesOf cs) = map nodeId (elementsIn cs).
Proof.
  assert (Happ : forall l1 l2,
             walkElements (l1 ++ l2) = walkElements l1 ++ walkElements l2).
  { induction l1 as [| [i t a ks | d] l1 IH]; intros l2; simpl;
      [reflexivity | now rewrite IH | apply IH]. }
  assert (Hn : forall n, walkElements (nodesOf n) = map nodeId (elementsOf n)).
  { induction n as [i t a ks IH | d] using node_rect'; [| reflexivity].
    simpl. f_equal.
    induction ks as [| k ks IHks]; [reflexivity |].
    inversion IH as [| ? ? Hk Hks]; subst.
    simpl. rewrite Happ, map_app, Hk. f_equal. now apply IHks. }
  induction cs as [| c cs IH]; [reflexivity |].
  unfold elementsIn in *. simpl. now rewrite Happ, map_app, Hn, IH.
Qed.

Lemma find_hasId_live (r : nat) (t : node) :
  In r (map nodeId (elementsOf t)) ->
  exists n, find (hasId r) (elementsOf t) = Some n.
Proof.
  intros H. destruct (find (hasId r) (elementsOf t)) as [n |] eqn:E;
    [now exists n |].
  exfalso. apply in_map_iff in H as (e & Hid & He).
  pose proof (find_none _ _ E e He) as Hf.
  unfold hasId in Hf.
  rewrite (elementsOf_isElement t e He), Hid, Nat.eqb_refl in Hf.
  discriminate.
Qed.

Lemma ids_updateAttrs (r : nat) (f : list attribute -> list attribute)
  (t : node) :
  map nodeId (elementsOf (updateAttrs r f t)) = map nodeId (elementsOf t).
Proof.
  rewrite elementsOf_updateAttrs, map_map. apply map_ext. intros e.
  now destruct (updateAttrs_shell r f e) as (_ & -> & _).
Qed.

Lemma descendants_incl (t : node) : incl (descendants t) (elementsOf t).
Proof.
  destruct t as [i u a cs | d]; [| intros e []].
  intros e He. simpl. right. exact He.
Qed.

Section Sanitizer.

Variable lo : nat.
Variables D old : list node.
Hypothesis below : forall e, In e (elementsIn (D ++ old)) -> nodeId e < lo.

Lemma isFragOf_updateAttrs (ids : list nat) (r : nat)
  (f : list attribute -> list attribute) (t : node) :
  isFragOf lo ids t -> isFragOf lo ids (updateAttrs r f t).
Proof.
  intros [Hf Hi]. split; [now apply isFrag_updateAttrs |].
  now rewrite ids_updateAttrs.
Qed.

Lemma descendant_ref (t : node) (r : nat) :
  isFrag lo t -> In r (map nodeId (descendants t)) ->
  lo <= r /\ In r (map nodeId (elementsOf t)).
Proof.
  intros (_ & _ & Hd) Hr. apply in_map_iff in Hr as (e & <- & He).
  split; [apply Nat.lt_le_incl; now apply Hd |].
  apply in_map. now apply descendants_incl.
Qed.

Lemma deref_root (nx : nat) (t : node) :
  isFrag lo t -> deref lo (fragHeap D old nx t) = Some (t, fragHeap D old nx t).
Proof.
  intros Ht. unfold deref. now rewrite (resolve_root lo D old below nx t Ht).
Qed.

Lemma attributesOf_fragHeap (ids : list nat) (r nx : nat) (t : node) :
  isFragOf lo ids t -> lo <= r -> In r ids ->
  attributesOf r (fragHeap D old nx t) = Some (attrsAt r t, fragHeap D old nx t).
Proof.
  intros [Hf Hi] Hr Hin. unfold attributesOf, bind, deref, attrsAt.
  rewrite (resolve_fragHeap lo D old below r nx t Hr).
  rewrite <- Hi in Hin.
  now destruct (find_hasId_live r t Hin) as [n ->].
Qed.

Lemma querySelectorAllRefs_root (nx : nat) (t : node) (sel : selector) :
  isFrag lo t ->
  querySelectorAllRefs lo sel (fragHeap D old nx t)
  = Some (map nodeId (querySelectorAll t sel), fragHeap D old nx t).
Proof.
  intros Ht. unfold querySelectorAllRefs.
  now rewrite (bind_some _ _ _ _ _ (deref_root nx t Ht)).
Qed.

Lemma querySelectorAll_refs (t : node) (sel : selector) (r : nat) :
  In r (map nodeId (querySelectorAll t sel)) ->
  In r (map nodeId (descendants t)).
Proof.
  intros H. apply in_map_iff in H as (e & <- & He).
  apply in_map. apply filter_In in He. exact (proj1 He).
Qed.

Lemma removeAll_fragHeap (refs : list nat) (nx : nat) (t : node) :
  (forall r, In r refs -> lo <= r) -> isFrag lo t ->
  forEach refs (fun el => remove el) (fragHeap D old nx t)
  = Some (tt, fragHeap D old nx (removeAll t refs)) /\
  isFrag lo (removeAll t refs).
Proof.
  intros Hrefs Ht.
  apply (forEach_fragHeap D old (isFrag lo)); [| exact Ht].
  intros r t' nx' Hr Ht'. split.
  - apply (remove_fragHeap lo D old below). now apply Hrefs.
  - now apply isFrag_prune.
Qed.

Lemma removeNoise_fragHeap (nx : nat) (t : node) :
  isFrag lo t ->
  removeNoise lo (fragHeap D old nx t) = Some (tt, fragHeap D old nx (removeNoiseTree t)) /\
  isFrag lo (removeNoiseTree t).
Proof.
  intros Ht. unfold removeNoise, removeNoiseTree.
  apply (forEach_fragHeap D old (isFrag lo)); [| exact Ht].
  intros sel t' nx' _ Ht'.
  rewrite (bind_some _ _ _ _ _ (querySelectorAllRefs_root nx' t' sel Ht')).
  apply removeAll_fragHeap; [| exact Ht'].
  intros r Hr. apply querySelectorAll_refs in Hr.
  exact (proj1 (descendant_ref t' r Ht' Hr)).
Qed.

Lemma cleanElement_fragHeap (ids : list nat) (el nx : nat) (t : node) :
  isFragOf lo ids t -> lo <= el -> In el ids ->
  bind (attributesOf el)
       (fun attributes =>
          forEach attributes (fun attr =>
            if negb (isAllowed (fst attr))
            then removeAttribute el (fst attr)
            else ret tt))
       (fragHeap D old nx t)
  = Some (tt, fragHeap D old nx (cleanElement t el)) /\
  isFragOf lo ids (cleanElement t el).
Proof.
  intros Ht Hlo Hin.
  rewrite (bind_some _ _ _ _ _ (attributesOf_fragHeap ids el nx t Ht Hlo Hin)).
  apply (forEach_fragHeap D old (isFragOf lo ids)); [| exact Ht].
  intros attr t' nx' _ Ht'. unfold stripStep.
  destruct (negb (isAllowed (fst attr))).
  - split; [| now apply isFragOf_updateAttrs].
    now apply (modifyAttrs_fragHeap lo D old below).
  - split; [reflexivity | exact Ht'].
Qed.

Lemma cleanAttributes_fragHeap (nx : nat) (t : node) :
  isFrag lo t ->
  cleanAttributes lo (fragHeap D old nx t)
  = Some (tt, fragHeap D old nx (cleanAttributesTree t)) /\
  isFrag lo (cleanAttributesTree t).
Proof.
  intros Ht. unfold cleanAttributes, createTreeWalker.
  rewrite (bind_some _ _ _ _ _
             (bind_some _ _ _ _ _ (deref_root nx t Ht))).
  rewrite collectNodes_walk by (cbn [following]; lia).
  cbn [following]. rewrite walkElements_nodesOf.
  fold (descendants t). unfold cleanAttributesTree.
  set (ids := map nodeId (elementsOf t)).
  assert (Hof : isFragOf lo ids t) by (split; [exact Ht | reflexivity]).
  destruct (forEach_fragHeap D old (isFragOf lo ids)
              (fun el =>
                 bind (attributesOf el)
                   (fun attributes =>
                      forEach attributes (fun attr =>
                        if negb (isAllowed (fst attr))
                        then removeAttribute el (fst attr)
                        else ret tt)))
              cleanElement (map nodeId (descendants t))) with (t := t) (nx := nx)
    as [Hrun Hinv].
  - intros el t' nx' Hel Ht'.
    destruct (descendant_ref t el Ht Hel) as [Hlo Hlive].
    now apply cleanElement_fragHeap.
  - exact Hof.
  - split; [exact Hrun | exact (proj1 Hinv)].
Qed.

Lemma getLoading_fragHeap (ids : list nat) (r nx : nat) (t : node) :
  isFragOf lo ids t -> lo <= r -> In r ids ->
  getLoading r (fragHeap D old nx t)
  = Some (loadingOf (attrsAt r t), fragHeap D old nx t).
Proof.
  intros [Hf Hi] Hr Hin. unfold getLoading, bind, deref, attrsAt.
  rewrite (resolve_fragHeap lo D old below r nx t Hr).
  rewrite <- Hi in Hin.
  now destruct (find_hasId_live r t Hin) as [n ->].
Qed.

Lemma getAlt_fragHeap (ids : list nat) (r nx : nat) (t : node) :
  isFragOf lo ids t -> lo <= r -> In r ids ->
  getAlt r (fragHeap D old nx t)
  = Some (altOf (attrsAt r t), fragHeap D old nx t).
Proof.
  intros [Hf Hi] Hr Hin. unfold getAlt, bind, deref, attrsAt.
  rewrite (resolve_fragHeap lo D old below r nx t Hr).
  rewrite <- Hi in Hin.
  now destruct (find_hasId_live r t Hin) as [n ->].
Qed.

Lemma setAttribute_fragHeap (ids : list nat) (r nx : nat) (name value : string)
  (t : node) :
  isFragOf lo ids t -> lo <= r ->
  setAttribute r name value (fragHeap D old nx t)
  = Some (tt, fragHeap D old nx (updateAttrs r (setAttr name value) t)).
Proof.
  intros _ Hr. now apply (modifyAttrs_fragHeap lo D old below).
Qed.

Lemma optimizeImage_fragHeap (ids : list nat) (img nx : nat) (t : node) :
  isFragOf lo ids t -> lo <= img -> In img ids ->
  optimizeImageBody img (fragHeap D old nx t)
  = Some (tt, fragHeap D old nx (optimizeImage t img)) /\
  isFragOf lo ids (optimizeImage t img).
Proof.
  intros Ht Hlo Hin. unfold optimizeImageBody, optimizeImage.
  rewrite (bind_some _ _ _ _ _ (getLoading_fragHeap ids img nx t Ht Hlo Hin)).
  set (t1 := if Str.isEmpty (loadingOf (attrsAt img t))
             then updateAttrs img (setAttr "loading" "lazy") t else t).
  assert (H1 : (if Str.isEmpty (loadingOf (attrsAt img t))
                then setAttribute img "loading" "lazy" else ret tt)
               (fragHeap D old nx t) = Some (tt, fragHeap D old nx t1)
               /\ isFragOf lo ids t1).
  { unfold t1. destruct (Str.isEmpty (loadingOf (attrsAt img t))).
    - split; [now apply (setAttribute_fragHeap ids)
             | now apply isFragOf_updateAttrs].
    - split; [reflexivity | exact Ht]. }
  destruct H1 as [E1 Ht1]. rewrite (bind_some _ _ _ _ _ E1).
  rewrite (bind_some _ _ _ _ _ (getAlt_fragHeap ids img nx t1 Ht1 Hlo Hin)).
  set (t2 := if Str.isEmpty (altOf (attrsAt img t1))
             then updateAttrs img (setAttr "alt" defaultAlt) t1 else t1).
  assert (H2 : (if Str.isEmpty (altOf (attrsAt img t1))
                then setAttribute img "alt" defaultAlt else ret tt)
               (fragHeap D old nx t1) = Some (tt, fragHeap D old nx t2)
               /\ isFragOf lo ids t2).
  { unfold t2. destruct (Str.isEmpty (altOf (attrsAt img t1))).
    - split; [now apply (setAttribute_fragHeap ids)
             | now apply isFragOf_updateAttrs].
    - split; [reflexivity | exact Ht1]. }
  destruct H2 as [E2 Ht2]. rewrite (bind_some _ _ _ _ _ E2).
  split; [| now apply isFragOf_updateAttrs].
  now apply (modifyAttrs_fragHeap lo D old below).
Qed.

Lemma optimizeImages_fragHeap (nx : nat) (t : node) :
  isFrag lo t ->
  optimizeImages lo (fragHeap D old nx t)
  = Some (tt, fragHeap D old nx (optimizeImagesTree t)) /\
  isFrag lo (optimizeImagesTree t).
Proof.
  intros Ht. unfold optimizeImages.
  rewrite (bind_some _ _ _ _ _
             (querySelectorAllRefs_root nx t [TypeSel "img"] Ht)).
  unfold optimizeImagesTree.
  set (ids := map nodeId (elementsOf t)).
  assert (Hof : isFragOf lo ids t) by (split; [exact Ht | reflexivity]).
  destruct (forEach_fragHeap D old (isFragOf lo ids) optimizeImageBody
              optimizeImage
              (map nodeId (querySelectorAll t [TypeSel "img"])))
    with (t := t) (nx := nx) as [Hrun Hinv].
  - intros img t' nx' Himg Ht'.
    apply querySelectorAll_refs in Himg.
    destruct (descendant_ref t img Ht Himg) as [Hlo Hlive].
    now apply optimizeImage_fragHeap.
  - exact Hof.
  - split; [exact Hrun | exact (proj1 Hinv)].
Qed.

(** The three steps of [cleanContent] on a fragment. *)
Lemma sanitize_fragHeap (nx : nat) (t : node) :
  isFrag lo t ->
  (removeNoise lo ;; cleanAttributes lo ;; optimizeImages lo ;;
   ret (Some lo))%dom (fragHeap D old nx t)
  = Some (Some lo, fragHeap D old nx (sanitizeTree t)) /\
  isFrag lo (sanitizeTree t).
Proof.
  intros Ht. unfold sanitizeTree.
  destruct (removeNoise_fragHeap nx t Ht) as [E1 H1].
  rewrite (bind_some _ _ _ _ _ E1).
  destruct (cleanAttributes_fragHeap nx _ H1) as [E2 H2].
  rewrite (bind_some _ _ _ _ _ E2).
  destruct (optimizeImages_fragHeap nx _ H2) as [E3 H3].
  rewrite (bind_some _ _ _ _ _ E3).
  split; [reflexivity | exact H3].
Qed.

End Sanitizer.

(** ** [cleanContent] on a well-formed heap *)

Lemma resolve_isElement (r : nat) (h : heap) (n : node) :
  resolve r h = Some n -> isElement n = true.
Proof.
  unfold resolve. intros H. apply find_some in H as [_ H].
  unfold hasId in H. now apply andb_true_iff in H.
Qed.

Lemma cloneTree_isFrag (n : node) (lo : nat) :
  isElement n = true -> isFrag lo (fst (cloneTree n lo)).
Proof.
  intros Hn. destruct (cloneTree_root n lo Hn) as (He & Hid & _).
  split; [exact He |]. split; [exact Hid |].
  intros e Hin. destruct (cloneTree_ids n lo) as [Hle Hs].
  rewrite elementsOf_cons in Hs by exact He. simpl in Hs.
  assert (Hm : In (nodeId e) (map nodeId (descendants (fst (cloneTree n lo)))))
    by now apply in_map.
  destruct (snd (cloneTree n lo) - lo) as [| k]; [discriminate |].
  simpl in Hs. injection Hs as _ Hs. rewrite Hs in Hm.
  apply in_seq in Hm. lia.
Qed.

(** The sanitizer allocates one copy of the candidate, next to the trees
    of the heap, and works on that copy alone. *)
Lemma cleanContent_refines (h : heap) (c : nat) (n : node) :
  wellFormed h -> resolve c h = Some n ->
  cleanContent (Some c) h
  = Some (Some (nextId h),
          mkHeap (snd (cloneTree n (nextId h))) (documentNodes h)
                 (detachedTrees h ++ [sanitizeTree (fst (cloneTree n (nextId h)))]))
  /\ isFrag (nextId h) (sanitizeTree (fst (cloneTree n (nextId h)))).
Proof.
  intros Hwf Hc. unfold cleanContent.
  pose proof (resolve_isElement c h n Hc) as Hn.
  assert (Hclone : cloneNode c h
                   = Some (nextId h,
                           fragHeap (documentNodes h) (detachedTrees h)
                                    (snd (cloneTree n (nextId h)))
                                    (fst (cloneTree n (nextId h))))).
  { unfold cloneNode. rewrite Hc.
    destruct (cloneTree_root n (nextId h) Hn) as (_ & Hid & _).
    destruct (cloneTree n (nextId h)) as [n' nx']. simpl in *.
    now rewrite Hid. }
  rewrite (bind_some _ _ _ _ _ Hclone).
  apply (sanitize_fragHeap (nextId h) (documentNodes h) (detachedTrees h) Hwf).
  now apply cloneTree_isFrag.
Qed.

(* ================================================================== *)
(** * Selectors under the steps of the sanitizer *)

Lemma noNew_refl (sel : selector) (t : node) : noNew sel t t.
Proof. intros e He Hm. now exists e. Qed.

Lemma noNew_trans (sel : selector) (t2 t1 t0 : node) :
  noNew sel t2 t1 -> noNew sel t1 t0 -> noNew sel t2 t0.
Proof.
  intros H21 H10 e He Hm.
  destruct (H21 e He Hm) as (e1 & He1 & Hm1). exact (H10 e1 He1 Hm1).
Qed.

Lemma noNew_fold {A : Type} (sel : selector) (g : node -> A -> node)
  (l : list A) :
  (forall t x, noNew sel (g t x) t) ->
  forall t, noNew sel (fold_left g l t) t.
Proof.
  intros Hg. induction l as [| x l IH]; intros t; simpl.
  - apply noNew_refl.
  - exact (noNew_trans sel _ _ _ (IH (g t x)) (Hg t x)).
Qed.

Lemma noNew_empty (sel : selector) (t' t : node) :
  noNew sel t' t -> querySelectorAll t sel = [] -> querySelectorAll t' sel = [].
Proof.
  intros Hn He. unfold querySelectorAll, querySelectorAllIn.
  apply filter_none. intros e Hin.
  destruct (matches sel e) eqn:Hm; [| reflexivity].
  destruct (Hn e Hin Hm) as (e0 & He0 & Hm0).
  assert (Hf : In e0 (querySelectorAll t sel)) by (apply filter_In; now split).
  rewrite He in Hf. destruct Hf.
Qed.

Lemma noNew_prune (sel : selector) (r : nat) (t : node) :
  noNew sel (prune r t) t.
Proof.
  intros e He Hm. apply descendants_prune in He as (e0 & He0 & -> & _).
  exists e0. split; [exact He0 |].
  now rewrite <- (matches_shell sel _ _ (prune_sameShell r e0)).
Qed.

(** ** Detaching the matches of a selector *)

Lemma descendants_removeAll (refs : list nat) (t e : node) :
  In e (descendants (removeAll t refs)) ->
  exists e0, In e0 (descendants t) /\ sameShell e e0 /\ ~ In (nodeId e0) refs.
Proof.
  revert t. induction refs as [| r refs IH]; intros t He.
  - exists e. split; [exact He |]. split; [repeat split | intros []].
  - simpl in He. destruct (IH (prune r t) He) as (e1 & He1 & Hs1 & Hn1).
    apply descendants_prune in He1 as (e0 & He0 & -> & Hne).
    exists e0. split; [exact He0 |].
    destruct Hs1 as (A1 & A2 & A3 & A4).
    destruct (prune_sameShell r e0) as (B1 & B2 & B3 & B4).
    split; [repeat split; congruence |].
    intros [Hr | Hr]; [congruence |]. apply Hn1. now rewrite B2.
Qed.

Lemma removeNoiseStep_empty (sel : selector) (t : node) :
  querySelectorAll (removeNoiseStep t sel) sel = [].
Proof.
  unfold querySelectorAll at 1, querySelectorAllIn.
  apply filter_none. intros e He.
  destruct (matches sel e) eqn:Hm; [| reflexivity]. exfalso.
  apply descendants_removeAll in He as (e0 & He0 & Hs & Hn).
  apply Hn. apply in_map. apply filter_In. split; [exact He0 |].
  now rewrite <- (matches_shell sel e e0 Hs).
Qed.

Lemma noNew_removeNoiseStep (sel s : selector) (t : node) :
  noNew sel (removeNoiseStep t s) t.
Proof.
  unfold removeNoiseStep, removeAll.
  apply noNew_fold. intros t' r. apply noNew_prune.
Qed.

(** After the noise loop over [sels], no descendant matches any of them. *)
Lemma removeNoise_empty (sels : list selector) (t : node) (sel : selector) :
  In sel sels ->
  querySelectorAll (fold_left removeNoiseStep sels t) sel = [].
Proof.
  revert t. induction sels as [| s sels IH]; intros t Hin; [destruct Hin |].
  simpl. destruct Hin as [-> | Hin]; [| now apply IH].
  apply (noNew_empty sel _ (removeNoiseStep t sel)).
  - apply noNew_fold. intros t' x. apply noNew_removeNoiseStep.
  - apply removeNoiseStep_empty.
Qed.

(** ** Attribute updates *)

Lemma getAttribute_removeAttr (k name : string) (a : list attribute) :
  getAttribute k (removeAttr name a)
  = if (name =? k)%string then None else getAttribute k a.
Proof.
  induction a as [| [k0 v0] a IH]; simpl.
  - now destruct (name =? k)%string.
  - destruct (k0 =? name)%string eqn:E0; simpl.
    + rewrite IH. apply String.eqb_eq in E0. subst k0.
      now destruct (name =? k)%string.
    + rewrite IH. destruct (k0 =? k)%string eqn:E1; [| reflexivity].
      apply String.eqb_eq in E1. subst k0.
      rewrite String.eqb_sym in E0. now rewrite E0.
Qed.

Lemma getAttribute_setAttr_other (k name value : string) (a : list attribute) :
  (name =? k)%string = false ->
  getAttribute k (setAttr name value a) = getAttribute k a.
Proof.
  intros Hk. induction a as [| [k0 v0] a IH]; simpl.
  - now rewrite Hk.
  - destruct (k0 =? name)%string eqn:E0; simpl.
    + apply String.eqb_eq in E0. subst k0. now rewrite Hk.
    + now rewrite IH.
Qed.

Lemma keeps_removeAttr (sel : selector) (name : string) :
  keeps sel (removeAttr name).
Proof.
  intros s tag a _. destruct s; simpl; try rewrite getAttribute_removeAttr;
    try (destruct (name =? _)%string; [discriminate | trivial]); trivial.
Qed.

Lemma keeps_setAttr (sel : selector) (name value : string) :
  forallb (fun s => negb (readsAttr s name)) sel = true ->
  keeps sel (setAttr name value).
Proof.
  intros Hr s tag a Hs. rewrite forallb_forall in Hr.
  specialize (Hr s Hs). apply negb_true_iff in Hr.
  destruct s; simpl in *; try rewrite getAttribute_setAttr_other by exact Hr;
    trivial.
Qed.

Lemma noNew_updateAttrs (sel : selector) (r : nat)
  (f : list attribute -> list attribute) (t : node) :
  keeps sel f -> noNew sel (updateAttrs r f t) t.
Proof.
  intros Hk e He Hm. rewrite descendants_updateAttrs in He.
  apply in_map_iff in He as (e0 & <- & He0).
  exists e0. split; [exact He0 |].
  destruct (updateAttrs_shell r f e0) as (H1 & _ & H3 & H4).
  unfold matches, matchesSimple in *. rewrite H1, H3, H4 in Hm.
  apply existsb_exists in Hm as (s & Hs & Hm).
  apply existsb_exists. exists s. split; [exact Hs |].
  apply andb_true_iff in Hm as [Hel Hm]. rewrite Hel. simpl.
  destruct (isElement e0 && (nodeId e0 =? r)); [| exact Hm].
  exact (Hk s _ _ Hs Hm).
Qed.

Lemma noNew_cleanAttributesTree (sel : selector) (t : node) :
  noNew sel (cleanAttributesTree t) t.
Proof.
  unfold cleanAttributesTree. apply noNew_fold. intros t1 el.
  unfold cleanElement. apply noNew_fold. intros t2 attr.
  unfold stripStep. destruct (negb (isAllowed (fst attr))).
  - apply noNew_updateAttrs, keeps_removeAttr.
  - apply noNew_refl.
Qed.

Lemma noNew_optimizeImagesTree (sel : selector) (t : node) :
  forallb (fun s => negb (readsAttr s "loading")) sel = true ->
  forallb (fun s => negb (readsAttr s "alt")) sel = true ->
  noNew sel (optimizeImagesTree t) t.
Proof.
  intros Hl Ha. unfold optimizeImagesTree. apply noNew_fold. intros t0 img.
  unfold optimizeImage.
  eapply noNew_trans; [apply noNew_updateAttrs, keeps_removeAttr |].
  eapply noNew_trans.
  - destruct (Str.isEmpty (altOf _));
      [apply noNew_updateAttrs, keeps_setAttr, Ha | apply noNew_refl].
  - destruct (Str.isEmpty (loadingOf _));
      [apply noNew_updateAttrs, keeps_setAttr, Hl | apply noNew_refl].
Qed.

Lemma noise_reads_neither (sel : selector) :
  In sel noiseSelectors ->
  forallb (fun s => negb (readsAttr s "loading")) sel = true /\
  forallb (fun s => negb (readsAttr s "alt")) sel = true.
Proof.
  intros H.
  assert (Hall : forallb (fun sel =>
                    forallb (fun s => negb (readsAttr s "loading")) sel
                    && forallb (fun s => negb (readsAttr s "alt")) sel)
                   noiseSelectors = true) by reflexivity.
  rewrite forallb_forall in Hall. specialize (Hall sel H).
  now apply andb_true_iff in Hall.
Qed.

(** No descendant of the sanitized tree matches a noise selector. *)
Lemma sanitizeTree_noise_free (t : node) (sel : selector) :
  In sel noiseSelectors -> querySelectorAll (sanitizeTree t) sel = [].
Proof.
  intros Hin. unfold sanitizeTree.
  destruct (noise_reads_neither sel Hin) as [Hl Ha].
  apply (noNew_empty sel _ (removeNoiseTree t)).
  - eapply noNew_trans; [now apply noNew_optimizeImagesTree |].
    apply noNew_cleanAttributesTree.
  - now apply removeNoise_empty.
Qed.

(* ================================================================== *)
(** * The sanitizer: frame, noise, attributes, totality *)

Lemma resolve_fresh (h : heap) (r : nat) :
  wellFormed h -> nextId h <= r -> resolve r h = None.
Proof.
  intros Hwf Hr. unfold resolve.
  rewrite <- (app_nil_r (elementsIn _)).
  rewrite find_app_r; [reflexivity |].
  intros e He. apply Hwf in He. unfold hasId.
  replace (nodeId e =? r) with false by (symmetry; apply Nat.eqb_neq; lia).
  apply andb_false_r.
Qed.

Lemma resolve_extend (h : heap) (nx : nat) (t : node) (x : nat) (m : node) :
  resolve x h = Some m ->
  resolve x (mkHeap nx (documentNodes h) (detachedTrees h ++ [t])) = Some m.
Proof.
  unfold resolve. simpl. intros H.
  rewrite app_assoc, elementsIn_app. now apply find_app_l.
Qed.

(** No element of a fragment made after the heap [h] is an element of [h]. *)
Lemma isFrag_fresh (h : heap) (t e : node) :
  wellFormed h -> isFrag (nextId h) t -> In e (elementsOf t) ->
  resolve (nodeId e) h = None.
Proof.
  intros Hwf (He & Hid & Hd) Hin. apply resolve_fresh; [exact Hwf |].
  rewrite elementsOf_cons in Hin by exact He.
  destruct Hin as [<- | Hin]; [lia |].
  apply Nat.lt_le_incl. exact (Hd e Hin).
Qed.

Lemma isFrag_root (lo : nat) (t : node) :
  isFrag lo t -> isElement t = true /\ nodeId t = lo.
Proof. intros (He & Hid & _). now split. Qed.

(** C7. The sanitizer never mutates the candidate or the live tree: on a
    heap whose elements were all created before [nextId], [cleanContent]
    returns a new element, the root of a tree of new elements added to the
    detached trees; the child nodes of the document and the detached trees
    that were there are unchanged, so every reference, the candidate among
    them, denotes the subtree it denoted before. *)
Theorem cleanContent_frame (h : heap) (c : nat) (n : node) :
  wellFormed h -> resolve c h = Some n ->
  exists r nx t,
    cleanContent (Some c) h
    = Some (Some r, mkHeap nx (documentNodes h) (detachedTrees h ++ [t])) /\
    isElement t = true /\ nodeId t = r /\
    (forall e, In e (elementsOf t) -> resolve (nodeId e) h = None) /\
    resolve c (mkHeap nx (documentNodes h) (detachedTrees h ++ [t])) = Some n /\
    (forall x m, resolve x h = Some m ->
       resolve x (mkHeap nx (documentNodes h) (detachedTrees h ++ [t])) = Some m).
Proof.
  intros Hwf Hc.
  destruct (cleanContent_refines h c n Hwf Hc) as [Hrun Hfrag].
  exists (nextId h), (snd (cloneTree n (nextId h))),
         (sanitizeTree (fst (cloneTree n (nextId h)))).
  split; [exact Hrun |].
  split; [exact (proj1 (isFrag_root _ _ Hfrag)) |].
  split; [exact (proj2 (isFrag_root _ _ Hfrag)) |].
  split; [intros e; exact (isFrag_fresh h _ e Hwf Hfrag) |].
  split; [apply resolve_extend; exact Hc |].
  intros x m. apply resolve_extend.
Qed.

Lemma articleHeap_wellFormed : wellFormed articleHeap.
Proof.
  intros e He. vm_compute in He.
  repeat (destruct He as [<- | He]; [vm_compute; lia |]). destruct He.
Qed.

Lemma cleanContent_frame_witness :
  exists r nx t,
    cleanContent (Some 2) articleHeap = Some (Some r, mkHeap nx articlePage [t]) /\
    resolve 2 (mkHeap nx articlePage [t]) = Some article.
Proof.
  destruct (cleanContent_frame articleHeap 2 article
              articleHeap_wellFormed eq_refl)
    as (r & nx & t & Hrun & _ & _ & _ & Hc & _).
  exists r, nx, t. split; [exact Hrun | exact Hc].
Defined.

(** ** Noise *)

(** C8, as stated, fails: the locator proposes the [aside] of [asidePage]
    (it has the class [content] and passes the validity filter), and the
    fragment that [cleanContent] returns for it is an [aside] element, which
    matches the noise selector [aside]. *)
Lemma noise_free_counterexample :
  option_map nodeId (extractMainContent asidePage) = Some 2 /\
  exists h' frag,
    cleanContent (Some 2) (mkHeap 5 asidePage []) = Some (Some 5, h') /\
    resolve 5 h' = Some frag /\
    In frag (elementsOf frag) /\
    In [TypeSel "aside"] noiseSelectors /\
    matches [TypeSel "aside"] frag = true.
Proof.
  split; [vm_compute; reflexivity |].
  eexists. eexists.
  split; [vm_compute; reflexivity |].
  split; [vm_compute; reflexivity |].
  split; [now left |]. split; [| vm_compute; reflexivity].
  simpl. right. right. now left.
Qed.

(** C8, amended. For every candidate, below the root of the fragment that
    [cleanContent] returns no element matches a noise selector, however
    deep such elements were nested in the candidate: on the fragment,
    [querySelectorAll] finds nothing for any noise selector. *)
Theorem cleanContent_noise_free (h : heap) (c : nat) (n : node) :
  wellFormed h -> resolve c h = Some n ->
  exists r h' frag,
    cleanContent (Some c) h = Some (Some r, h') /\
    resolve r h' = Some frag /\
    forall sel, In sel noiseSelectors -> querySelectorAll frag sel = [].
Proof.
  intros Hwf Hc.
  destruct (cleanContent_refines h c n Hwf Hc) as [Hrun Hfrag].
  eexists. eexists. eexists. split; [exact Hrun |]. split.
  - apply (resolve_root (nextId h) (documentNodes h) (detachedTrees h) Hwf).
    exact Hfrag.
  - intros sel Hsel. apply sanitizeTree_noise_free. exact Hsel.
Qed.

Lemma nestedNoiseHeap_wellFormed : wellFormed nestedNoiseHeap.
Proof.
  intros e He. vm_compute in He.
  repeat (destruct He as [<- | He]; [vm_compute; lia |]). destruct He.
Qed.

Lemma cleanContent_noise_free_witness :
  exists r h' frag,
    cleanContent (Some 2) nestedNoiseHeap = Some (Some r, h') /\
    resolve r h' = Some frag /\
    forall sel, In sel noiseSelectors -> querySelectorAll frag sel = [].
Proof.
  exact (cleanContent_noise_free nestedNoiseHeap 2 nestedNoiseArticle
           nestedNoiseHeap_wellFormed eq_refl).
Defined.

(** ** Attributes *)

Lemma updateAttrs_other_root (r : nat) (f : list attribute -> list attribute)
  (t : node) :
  nodeId t <> r -> sameShell (updateAttrs r f t) t.
Proof.
  intros Hne. destruct (updateAttrs_shell r f t) as (H1 & H2 & H3 & H4).
  repeat split; try assumption. rewrite H4.
  replace (nodeId t =? r) with false by (symmetry; now apply Nat.eqb_neq).
  now rewrite andb_false_r.
Qed.

Lemma sameShell_trans (a b c : node) :
  sameShell a b -> sameShell b c -> sameShell a c.
Proof.
  intros (A1 & A2 & A3 & A4) (B1 & B2 & B3 & B4). repeat split; congruence.
Qed.

Lemma sameShell_fold {A : Type} (lo : nat) (g : node -> A -> node)
  (l : list A) :
  (forall t x, In x l -> nodeId t = lo -> sameShell (g t x) t) ->
  forall t, nodeId t = lo -> sameShell (fold_left g l t) t.
Proof.
  induction l as [| x l IH]; intros Hg t Ht; simpl.
  - repeat split.
  - pose proof (Hg t x (or_introl eq_refl) Ht) as Hs.
    apply (sameShell_trans _ (g t x)); [| exact Hs].
    apply IH.
    + intros t' y Hy. apply Hg. now right.
    + destruct Hs as (_ & -> & _). exact Ht.
Qed.

Lemma removeNoiseTree_root (t : node) : sameShell (removeNoiseTree t) t.
Proof.
  unfold removeNoiseTree. apply (sameShell_fold (nodeId t)); [| reflexivity].
  intros t1 sel _ H1. unfold removeNoiseStep, removeAll.
  apply (sameShell_fold (nodeId t)); [| exact H1].
  intros t2 r _ _. apply prune_sameShell.
Qed.

Lemma cleanElement_root (t : node) (el : nat) :
  nodeId t <> el -> sameShell (cleanElement t el) t.
Proof.
  intros Hne. unfold cleanElement.
  apply (sameShell_fold (nodeId t)); [| reflexivity].
  intros t2 attr _ Hid. unfold stripStep.
  destruct (negb (isAllowed (fst attr))); [| repeat split].
  apply updateAttrs_other_root. rewrite Hid. exact Hne.
Qed.

Lemma updateAttrs_if_root (b : bool) (r : nat)
  (f : list attribute -> list attribute) (t : node) :
  nodeId t <> r -> sameShell (if b then updateAttrs r f t else t) t.
Proof.
  intros Hne. destruct b; [now apply updateAttrs_other_root | repeat split].
Qed.

Lemma optimizeImage_root (t : node) (img : nat) :
  nodeId t <> img -> sameShell (optimizeImage t img) t.
Proof.
  intros Hne. unfold optimizeImage.
  pose proof (updateAttrs_if_root
                (Str.isEmpty (loadingOf (attrsAt img t))) img
                (setAttr "loading" "lazy") t Hne) as H1.
  set (t1 := if Str.isEmpty (loadingOf (attrsAt img t))
             then updateAttrs img (setAttr "loading" "lazy") t else t) in *.
  assert (Hne1 : nodeId t1 <> img).
  { destruct H1 as (_ & E & _). rewrite E. exact Hne. }
  pose proof (updateAttrs_if_root
                (Str.isEmpty (altOf (attrsAt img t1))) img
                (setAttr "alt" defaultAlt) t1 Hne1) as H2.
  set (t2 := if Str.isEmpty (altOf (attrsAt img t1))
             then updateAttrs img (setAttr "alt" defaultAlt) t1 else t1) in *.
  assert (Hne2 : nodeId t2 <> img).
  { destruct H2 as (_ & E & _). rewrite E. exact Hne1. }
  apply (sameShell_trans _ t2); [| exact (sameShell_trans _ _ _ H2 H1)].
  apply updateAttrs_other_root. exact Hne2.
Qed.

Lemma cleanAttributesTree_root (lo : nat) (t : node) :
  isFrag lo t -> sameShell (cleanAttributesTree t) t.
Proof.
  intros (_ & Hid & Hd). unfold cleanAttributesTree.
  apply (sameShell_fold lo); [| exact Hid].
  intros t1 el Hel Hid1. apply cleanElement_root. rewrite Hid1.
  apply in_map_iff in Hel as (e & <- & He). specialize (Hd e He). lia.
Qed.

Lemma optimizeImagesTree_root (lo : nat) (t : node) :
  isFrag lo t -> sameShell (optimizeImagesTree t) t.
Proof.
  intros (_ & Hid & Hd). unfold optimizeImagesTree.
  apply (sameShell_fold lo); [| exact Hid].
  intros t1 img Himg Hid1. apply optimizeImage_root. rewrite Hid1.
  apply in_map_iff in Himg as (e & <- & He).
  apply filter_In in He as [He _]. specialize (Hd e He). lia.
Qed.

Lemma no_trees (lo : nat) (e : node) :
  In e (elementsIn ([] ++ [])) -> nodeId e < lo.
Proof. intros []. Qed.

(** The steps of the sanitizer leave the root of the fragment as it is:
    they reach the elements through [querySelectorAll] and through the
    walker, and neither of them yields the root. *)
Lemma sanitizeTree_root (lo : nat) (t : node) :
  isFrag lo t -> sameShell (sanitizeTree t) t.
Proof.
  intros Ht.
  pose proof (proj2 (removeNoise_fragHeap lo [] [] (no_trees lo) 0 t Ht)) as H1.
  pose proof (proj2 (cleanAttributes_fragHeap lo [] [] (no_trees lo) 0 _ H1))
    as H2.
  unfold sanitizeTree.
  apply (sameShell_trans _ _ _ (optimizeImagesTree_root lo _ H2)).
  apply (sameShell_trans _ _ _ (cleanAttributesTree_root lo _ H1)).
  apply removeNoiseTree_root.
Qed.

(** X8. On every heap the root of the fragment has the name and all the
    attributes of the candidate. *)
Lemma cleanContent_root_kept (h : heap) (c : nat) (n : node) :
  wellFormed h -> resolve c h = Some n ->
  exists r h' frag,
    cleanContent (Some c) h = Some (Some r, h') /\
    resolve r h' = Some frag /\
    nodeName frag = nodeName n /\
    nodeAttributes frag = nodeAttributes n.
Proof.
  intros Hwf Hc.
  destruct (cleanContent_refines h c n Hwf Hc) as [Hrun Hfrag].
  pose proof (resolve_isElement c h n Hc) as Hn.
  destruct (cloneTree_root n (nextId h) Hn) as (_ & _ & Hname & Hattrs).
  destruct (sanitizeTree_root (nextId h) _ (cloneTree_isFrag n (nextId h) Hn))
    as (_ & _ & Sname & Sattrs).
  eexists. eexists. eexists. split; [exact Hrun |]. split.
  - apply (resolve_root (nextId h) (documentNodes h) (detachedTrees h) Hwf).
    exact Hfrag.
  - split; [rewrite Sname; exact Hname | rewrite Sattrs; exact Hattrs].
Qed.

(** *** Below the root *)



Lemma coherent_updateAttrs (r : nat) (f : list attribute -> list attribute)
  (t : node) : coherent t -> coherent (updateAttrs r f t).
Proof.
  intros Hc e1 e2 H1 H2 Hid. rewrite elementsOf_updateAttrs in H1, H2.
  apply in_map_iff in H1 as (a1 & <- & Ha1).
  apply in_map_iff in H2 as (a2 & <- & Ha2).
  destruct (updateAttrs_shell r f a1) as (_ & I1 & _ & A1).
  destruct (updateAttrs_shell r f a2) as (_ & I2 & _ & A2).
  rewrite I1, I2 in Hid. rewrite A1, A2.
  rewrite (elementsOf_isElement t a1 Ha1), (elementsOf_isElement t a2 Ha2).
  rewrite (Hc a1 a2 Ha1 Ha2 Hid), Hid. reflexivity.
Qed.





Lemma updateAttrs_ext (r : nat) (f g : list attribute -> list attribute)
  (t : node) :
  (forall a, f a = g a) -> updateAttrs r f t = updateAttrs r g t.
Proof.
  intros Hfg. induction t as [i u a cs IH | d] using node_rect';
    [| reflexivity].
  simpl. rewrite Hfg. f_equal. apply map_ext_in. intros c Hc.
  rewrite Forall_forall in IH. now apply IH.
Qed.

Lemma updateAttrs_id (r : nat) (t : node) : updateAttrs r (fun a => a) t = t.
Proof.
  induction t as [i u a cs IH | d] using node_rect'; [| reflexivity].
  simpl. destruct (i =? r); f_equal;
    (rewrite <- (map_id cs) at 2; apply map_ext_in; intros c Hc;
     rewrite Forall_forall in IH; now apply IH).
Qed.

Lemma updateAttrs_compose (r : nat) (f g : list attribute -> list attribute)
  (t : node) :
  updateAttrs r g (updateAttrs r f t) = updateAttrs r (fun a => g (f a)) t.
Proof.
  induction t as [i u a cs IH | d] using node_rect'; [| reflexivity].
  simpl. destruct (i =? r); f_equal;
    (rewrite map_map; apply map_ext_in; intros c Hc;
     rewrite Forall_forall in IH; now apply IH).
Qed.

(** The inner loop of [cleanAttributes] is one update of the element. *)
Lemma stripStep_fold (el : nat) (l : list attribute) (t : node) :
  fold_left (stripStep el) l t = updateAttrs el (stripAttrs l) t.
Proof.
  revert t. induction l as [| x l IH]; intros t; simpl.
  - symmetry. apply updateAttrs_id.
  - rewrite IH. unfold stripStep.
    destruct (negb (isAllowed (fst x))) eqn:E.
    + rewrite updateAttrs_compose. apply updateAttrs_ext. intros a.
      unfold stripAttrs. simpl. now rewrite E.
    + apply updateAttrs_ext. intros a. unfold stripAttrs. simpl. now rewrite E.
Qed.

Lemma stripAttrs_in (l a : list attribute) (x : attribute) :
  In x (stripAttrs l a) ->
  In x a /\ (In (fst x) (map fst l) -> isAllowed (fst x) = true).
Proof.
  revert a. induction l as [| y l IH]; intros a Hx.
  - split; [exact Hx | intros []].
  - unfold stripAttrs in Hx. simpl in Hx. fold (stripAttrs l) in Hx.
    destruct (negb (isAllowed (fst y))) eqn:E.
    + fold (stripAttrs l (removeAttr (fst y) a)) in Hx.
      destruct (IH _ Hx) as [Hin Hl].
      apply filter_In in Hin as [Hin Hne]. split; [exact Hin |].
      intros [Hy | Hy]; [| now apply Hl].
      rewrite <- Hy, String.eqb_refl in Hne. discriminate.
    + fold (stripAttrs l a) in Hx. destruct (IH _ Hx) as [Hin Hl].
      split; [exact Hin |].
      intros [Hy | Hy]; [| now apply Hl].
      rewrite <- Hy. now apply negb_false_iff in E.
Qed.


Lemma stripAttrs_allowedOnly (l a : list attribute) :
  allowedOnly a = true -> allowedOnly (stripAttrs l a) = true.
Proof.
  intros Ha. apply forallb_forall. intros x Hx.
  destruct (stripAttrs_in l a x Hx) as [Hin _].
  unfold allowedOnly in Ha. rewrite forallb_forall in Ha. now apply Ha.
Qed.

Lemma attrsAt_coherent (t e : node) :
  coherent t -> In e (elementsOf t) -> attrsAt (nodeId e) t = nodeAttributes e.
Proof.
  intros Hc He. unfold attrsAt.
  destruct (find_hasId_live (nodeId e) t (in_map nodeId _ _ He)) as [n Hn].
  rewrite Hn. apply find_some in Hn as [Hin Hid].
  unfold hasId in Hid. apply andb_true_iff in Hid as [_ Hid].
  apply Nat.eqb_eq in Hid. now apply Hc.
Qed.





Lemma allowedOnly_removeAttr (name : string) (a : list attribute) :
  allowedOnly a = true -> allowedOnly (removeAttr name a) = true.
Proof.
  unfold allowedOnly, removeAttr. rewrite !forallb_forall.
  intros H x Hx. apply filter_In in Hx. now apply H.
Qed.

Lemma allowedOnly_setAttr (name value : string) (a : list attribute) :
  isAllowed name = true -> allowedOnly a = true ->
  allowedOnly (setAttr name value a) = true.
Proof.
  intros Hn. induction a as [| [k v] a IH]; simpl.
  - intros _. now rewrite Hn.
  - intros H. apply andb_true_iff in H as [Hk Ha].
    destruct (k =? name)%string; simpl; rewrite Hk; simpl; auto.
Qed.

(** [img.loading] is never empty, so [optimizeImages] never sets it. *)
Lemma loadingOf_nonempty (a : list attribute) :
  Str.isEmpty (loadingOf a) = false.
Proof.
  unfold loadingOf. destruct (getAttribute "loading" a) as [v |];
    [destruct (Str.toLower v =? "lazy")%string |]; reflexivity.
Qed.





(** C1, on the failing input. The candidate [article] carries the
    attributes [src], [onclick], [style], [class] and [alt]; its copy comes
    back from [cleanContent] with all five, while below it the paragraph
    keeps [title] only and the image [src] and [alt] only: the walker of
    [cleanAttributes] starts on the root and [nextNode] never returns it. *)
Theorem cleanContent_root_attributes_kept :
  exists h' frag,
    cleanContent (Some 2) articleHeap = Some (Some 8, h') /\
    resolve 8 h' = Some frag /\
    map fst (nodeAttributes frag) = ["src"; "onclick"; "style"; "class"; "alt"] /\
    map (fun e => (nodeName e, map fst (nodeAttributes e))) (descendants frag)
    = [("p", ["title"]); ("img", ["src"; "alt"])].
Proof.
  eexists. eexists.
  split; [vm_compute; reflexivity |].
  split; [vm_compute; reflexivity |].
  split; vm_compute; reflexivity.
Qed.

(** ** Totality *)

Lemma extractMainContent_none (doc : list node) :
  extractMainContent doc = None <->
  findContentBySelectors doc = None /\
  findContentByTextDensity doc = None /\
  findLargestTextBlock doc = None.
Proof.
  unfold extractMainContent, extractMainContentRun.
  destruct (findContentBySelectors doc) as [e1 |]; simpl.
  - split; [discriminate | intros (H & _); discriminate].
  - destruct (findContentByTextDensity doc) as [e2 |]; simpl.
    + split; [discriminate | intros (_ & H & _); discriminate].
    + split; [intros H; now repeat split | intros (_ & _ & H); exact H].
Qed.



(* ================================================================== *)
(** * The noise loop as one pass *)

Lemma dropWhere_shell (p : node -> bool) (n : node) :
  sameShell (dropWhere p n) n.
Proof. destruct n; repeat split. Qed.

Lemma matches_text (sel : selector) (d : string) : matches sel (Text d) = false.
Proof.
  unfold matches. induction sel as [| s sel IH]; [reflexivity |].
  simpl. exact IH.
Qed.

Lemma shellPred_hasId (r : nat) : shellPred (hasId r).
Proof.
  intros a b (H1 & H2 & _). unfold hasId. now rewrite H1, H2.
Qed.

Lemma shellPred_matches (sel : selector) : shellPred (matches sel).
Proof. intros a b H. now apply matches_shell. Qed.

Lemma shellPred_existsb {A : Type} (f : A -> node -> bool) (l : list A) :
  (forall x, shellPred (f x)) -> shellPred (fun c => existsb (fun x => f x c) l).
Proof.
  intros Hf a b Hab. induction l as [| x l IH]; [reflexivity |].
  simpl. now rewrite (Hf x a b Hab), IH.
Qed.

Lemma prune_dropWhere (r : nat) (n : node) : prune r n = dropWhere (hasId r) n.
Proof.
  induction n as [i t a cs IH | d] using node_rect'; [| reflexivity].
  simpl. f_equal.
  induction cs as [| c cs IHcs]; [reflexivity |].
  inversion IH as [| ? ? Hc Hcs]; subst.
  simpl. rewrite hasId_prune.
  destruct (hasId r c); simpl; [now apply IHcs |].
  rewrite Hc. f_equal. now apply IHcs.
Qed.

Lemma dropWhere_ext_in (p q : node -> bool) (n : node) :
  (forall c, In c (descendants n) -> p c = q c) ->
  (forall d, p (Text d) = q (Text d)) ->
  dropWhere p n = dropWhere q n.
Proof.
  intros Hin Htext.
  induction n as [i t a cs IH | d] using node_rect'; [| reflexivity].
  simpl. f_equal.
  assert (Hcs : forall c, In c cs ->
            p c = q c /\ dropWhere p c = dropWhere q c).
  { intros c Hc. rewrite Forall_forall in IH.
    destruct c as [j u b ks | d].
    - assert (Hd : In (Element j u b ks) (descendants (Element i t a cs))).
      { apply (in_elementsIn cs (Element j u b ks)); [exact Hc | now left]. }
      split; [now apply Hin |].
      apply (IH _ Hc). intros e He. apply Hin.
      exact (descendants_trans _ _ _ Hd He).
    - split; [apply Htext | reflexivity]. }
  clear IH Hin. induction cs as [| c cs IHcs]; [reflexivity |].
  simpl. destruct (Hcs c (or_introl eq_refl)) as [-> ->].
  f_equal. apply IHcs. intros x Hx. apply Hcs. now right.
Qed.

Lemma dropWhere_ext (p q : node -> bool) (n : node) :
  (forall c, p c = q c) -> dropWhere p n = dropWhere q n.
Proof. intros H. apply dropWhere_ext_in; intros; apply H. Qed.

Lemma dropWhere_none (n : node) : dropWhere (fun _ => false) n = n.
Proof.
  induction n as [i t a cs IH | d] using node_rect'; [| reflexivity].
  simpl. f_equal.
  induction cs as [| c cs IHcs]; [reflexivity |].
  inversion IH as [| ? ? Hc Hcs]; subst.
  simpl. rewrite Hc. f_equal. now apply IHcs.
Qed.

Lemma dropWhere_compose (p q : node -> bool) (n : node) :
  shellPred p ->
  dropWhere p (dropWhere q n) = dropWhere (fun c => q c || p c) n.
Proof.
  intros Hp.
  induction n as [i t a cs IH | d] using node_rect'; [| reflexivity].
  simpl. f_equal.
  induction cs as [| c cs IHcs]; [reflexivity |].
  inversion IH as [| ? ? Hc Hcs]; subst.
  simpl. destruct (q c) eqn:Q; simpl; [now apply IHcs |].
  rewrite (Hp _ _ (dropWhere_shell q c)).
  destruct (p c); simpl; [now apply IHcs |].
  rewrite Hc. f_equal. now apply IHcs.
Qed.

(** What is below the root after the pass: copies of descendants. *)
Lemma descendants_dropWhere (p : node -> bool) (n e : node) :
  In e (descendants (dropWhere p n)) ->
  exists e0, In e0 (descendants n) /\ e = dropWhere p e0 /\ p e0 = false.
Proof.
  revert e. induction n as [i t a cs IH | d] using node_rect';
    intros e He; [| destruct He].
  unfold descendants in *. simpl in He.
  apply in_flat_map in He as (c' & Hc' & He).
  apply in_flat_map in Hc' as (c & Hc & Hc').
  destruct (p c) eqn:P; [destruct Hc' |].
  destruct Hc' as [<- | []].
  destruct c as [j u b ks | d']; [| destruct He].
  rewrite elementsOf_cons in He by reflexivity.
  destruct He as [<- | He].
  - exists (Element j u b ks). split; [| split; [reflexivity | exact P]].
    simpl. apply in_flat_map. exists (Element j u b ks).
    split; [exact Hc | now left].
  - rewrite Forall_forall in IH.
    destruct (IH _ Hc e He) as (e0 & He0 & -> & P0).
    exists e0. split; [| split; [reflexivity | exact P0]].
    simpl. apply in_flat_map. exists (Element j u b ks).
    split; [exact Hc |]. simpl. right. exact He0.
Qed.

Lemma elementsOf_dropWhere (p : node -> bool) (n e : node) :
  In e (elementsOf (dropWhere p n)) ->
  exists e0, In e0 (elementsOf n) /\ e = dropWhere p e0.
Proof.
  destruct n as [i u a cs | d]; [| intros []].
  intros He. rewrite elementsOf_cons in He by reflexivity.
  destruct He as [<- | He].
  - exists (Element i u a cs). split; [now left | reflexivity].
  - apply descendants_dropWhere in He as (e0 & He0 & -> & _).
    exists e0. split; [now apply descendants_incl | reflexivity].
Qed.

Lemma unambiguous_dropWhere (p : node -> bool) (t : node) :
  unambiguous t -> unambiguous (dropWhere p t).
Proof.
  intros Hu e1 e2 H1 H2 Hid.
  apply elementsOf_dropWhere in H1 as (a1 & Ha1 & ->).
  apply elementsOf_dropWhere in H2 as (a2 & Ha2 & ->).
  destruct (dropWhere_shell p a1) as (_ & I1 & N1 & A1).
  destruct (dropWhere_shell p a2) as (_ & I2 & N2 & A2).
  rewrite N1, N2, A1, A2. apply Hu; congruence.
Qed.

Lemma NoDup_ids_unambiguous (t : node) :
  NoDup (map nodeId (elementsOf t)) -> unambiguous t.
Proof.
  intros Hnd e1 e2 H1 H2 Hid.
  assert (Hinj : forall l : list node, NoDup (map nodeId l) ->
            In e1 l -> In e2 l -> e1 = e2).
  { induction l as [| x l IH]; simpl; intros Hn Hx1 Hx2; [destruct Hx1 |].
    inversion Hn as [| ? ? Hnot Hrest]; subst.
    destruct Hx1 as [Hx1 | Hx1], Hx2 as [Hx2 | Hx2].
    - congruence.
    - exfalso. apply Hnot. subst x. rewrite Hid. now apply in_map.
    - exfalso. apply Hnot. subst x. rewrite <- Hid. now apply in_map.
    - now apply IH. }
  rewrite (Hinj _ Hnd H1 H2). now split.
Qed.

Lemma removeAll_dropWhere (refs : list nat) (t : node) :
  removeAll t refs = dropWhere (fun c => existsb (fun r => hasId r c) refs) t.
Proof.
  revert t. induction refs as [| r refs IH]; intros t.
  - simpl. symmetry. apply dropWhere_none.
  - unfold removeAll in *. simpl. rewrite IH, prune_dropWhere.
    rewrite dropWhere_compose; [reflexivity |].
    apply (shellPred_existsb (fun r c => hasId r c)). apply shellPred_hasId.
Qed.

(** One turn of the noise loop drops the matches of its selector. *)
Lemma removeNoiseStep_dropWhere (sel : selector) (t : node) :
  unambiguous t -> removeNoiseStep t sel = dropWhere (matches sel) t.
Proof.
  intros Hu. unfold removeNoiseStep. rewrite removeAll_dropWhere.
  apply dropWhere_ext_in.
  - intros c Hc.
    destruct (matches sel c) eqn:Hm.
    + apply existsb_exists. exists (nodeId c). split.
      * apply in_map. apply filter_In. now split.
      * unfold hasId.
        rewrite (elementsIn_isElement _ _ Hc), Nat.eqb_refl. reflexivity.
    + destruct (existsb _ _) eqn:E; [| reflexivity].
      apply existsb_exists in E as (r & Hr & Hid).
      apply in_map_iff in Hr as (e & <- & He).
      apply filter_In in He as [He Hme].
      unfold hasId in Hid. apply andb_true_iff in Hid as [_ Hid].
      apply Nat.eqb_eq in Hid.
      destruct (Hu c e (descendants_incl t c Hc) (descendants_incl t e He) Hid)
        as [Hn Ha].
      assert (Hs : sameShell c e).
      { repeat split; try assumption.
        now rewrite (elementsIn_isElement _ _ Hc), (elementsIn_isElement _ _ He). }
      rewrite (matches_shell sel c e Hs) in Hm. congruence.
  - intros d. rewrite matches_text.
    induction (map nodeId (querySelectorAll t sel)) as [| r l IH];
      [reflexivity | exact IH].
Qed.

Lemma removeNoise_dropWhere (sels : list selector) (t : node) :
  unambiguous t ->
  fold_left removeNoiseStep sels t
  = dropWhere (fun c => existsb (fun sel => matches sel c) sels) t.
Proof.
  revert t. induction sels as [| s sels IH]; intros t Hu.
  - simpl. symmetry. apply dropWhere_none.
  - simpl. rewrite (removeNoiseStep_dropWhere s t Hu).
    rewrite IH by now apply unambiguous_dropWhere.
    apply dropWhere_compose.
    apply (shellPred_existsb (fun sel c => matches sel c)).
    apply shellPred_matches.
Qed.

Lemma removeNoiseTree_dropNoise (t : node) :
  unambiguous t -> removeNoiseTree t = dropNoise t.
Proof. intros Hu. exact (removeNoise_dropWhere noiseSelectors t Hu). Qed.
(* ================================================================== *)
(** * The attribute loops as one pass *)

Lemma updateAttrs_mapAttrs (r : nat) (f : list attribute -> list attribute)
  (n : node) :
  updateAttrs r f n = mapAttrs (fun i _ a => if i =? r then f a else a) n.
Proof.
  induction n as [i t a cs IH | d] using node_rect'; [| reflexivity].
  simpl. f_equal. apply map_ext_in. intros c Hc.
  rewrite Forall_forall in IH. now apply IH.
Qed.

Lemma mapAttrs_shell (G : nat -> string -> list attribute -> list attribute)
  (n : node) :
  isElement (mapAttrs G n) = isElement n /\
  nodeId (mapAttrs G n) = nodeId n /\
  nodeName (mapAttrs G n) = nodeName n.
Proof. destruct n; repeat split. Qed.

Lemma elementsOf_mapAttrs (G : nat -> string -> list attribute -> list attribute)
  (n : node) :
  elementsOf (mapAttrs G n) = map (mapAttrs G) (elementsOf n).
Proof.
  induction n as [i t a cs IH | d] using node_rect'; [| reflexivity].
  simpl. f_equal.
  induction cs as [| c cs IHcs]; [reflexivity |].
  simpl. rewrite map_app. inversion IH as [| ? ? Hc Hcs]; subst.
  rewrite Hc. f_equal. now apply IHcs.
Qed.

Lemma mapAttrs_ext_in (G G' : nat -> string -> list attribute -> list attribute)
  (n : node) :
  (forall e, In e (elementsOf n) ->
     G (nodeId e) (nodeName e) (nodeAttributes e)
     = G' (nodeId e) (nodeName e) (nodeAttributes e)) ->
  mapAttrs G n = mapAttrs G' n.
Proof.
  induction n as [i t a cs IH | d] using node_rect'; intros H; [| reflexivity].
  pose proof (H (Element i t a cs) (or_introl eq_refl)) as H0.
  simpl in H0. simpl. rewrite H0. f_equal.
  apply map_ext_in. intros c Hc. rewrite Forall_forall in IH.
  apply (IH c Hc). intros e He. apply H. simpl. right.
  now apply (in_elementsIn cs c).
Qed.

Lemma mapAttrs_compose (G1 G2 : nat -> string -> list attribute -> list attribute)
  (n : node) :
  mapAttrs G2 (mapAttrs G1 n) = mapAttrs (fun i t a => G2 i t (G1 i t a)) n.
Proof.
  induction n as [i t a cs IH | d] using node_rect'; [| reflexivity].
  simpl. f_equal. rewrite map_map. apply map_ext_in. intros c Hc.
  rewrite Forall_forall in IH. now apply IH.
Qed.

Lemma mapAttrs_id (n : node) : mapAttrs (fun _ _ a => a) n = n.
Proof.
  induction n as [i t a cs IH | d] using node_rect'; [| reflexivity].
  simpl. f_equal. rewrite <- (map_id cs) at 2. apply map_ext_in.
  intros c Hc. rewrite Forall_forall in IH. now apply IH.
Qed.

Lemma unambiguous_mapAttrs
  (G : nat -> string -> list attribute -> list attribute) (t : node) :
  unambiguous t -> unambiguous (mapAttrs G t).
Proof.
  intros Hu e1 e2 H1 H2 Hid. rewrite elementsOf_mapAttrs in H1, H2.
  apply in_map_iff in H1 as (a1 & <- & Ha1).
  apply in_map_iff in H2 as (a2 & <- & Ha2).
  destruct (mapAttrs_shell G a1) as (_ & I1 & N1).
  destruct (mapAttrs_shell G a2) as (_ & I2 & N2).
  rewrite I1, I2 in Hid. destruct (Hu a1 a2 Ha1 Ha2 Hid) as [Hn Ha].
  split; [congruence |].
  pose proof (elementsOf_isElement t a1 Ha1) as E1.
  pose proof (elementsOf_isElement t a2 Ha2) as E2.
  destruct a1 as [i1 t1 b1 k1 | ]; [| discriminate].
  destruct a2 as [i2 t2 b2 k2 | ]; [| discriminate].
  simpl in *. now subst.
Qed.

Lemma unambiguous_coherent (t : node) : unambiguous t -> coherent t.
Proof. intros Hu e1 e2 H1 H2 Hid. exact (proj2 (Hu e1 e2 H1 H2 Hid)). Qed.

Lemma unambiguous_updateAttrs (r : nat) (f : list attribute -> list attribute)
  (t : node) : unambiguous t -> unambiguous (updateAttrs r f t).
Proof. rewrite updateAttrs_mapAttrs. apply unambiguous_mapAttrs. Qed.

(** An update of the element [r] depends on [f] at the attributes of the
    elements whose identity is [r] only. *)
Lemma updateAttrs_ext_in (r : nat) (f g : list attribute -> list attribute)
  (t : node) :
  (forall e, In e (elementsOf t) -> nodeId e = r ->
             f (nodeAttributes e) = g (nodeAttributes e)) ->
  updateAttrs r f t = updateAttrs r g t.
Proof.
  intros H. rewrite !updateAttrs_mapAttrs. apply mapAttrs_ext_in.
  intros e He. destruct (nodeId e =? r) eqn:E; [| reflexivity].
  apply Nat.eqb_eq in E. now apply H.
Qed.

(** A guarded update whose guard reads the attributes of the element. *)
Lemma updateAttrs_guard (r : nat) (c : list attribute -> bool)
  (f : list attribute -> list attribute) (t : node) :
  coherent t ->
  (if c (attrsAt r t) then updateAttrs r f t else t)
  = updateAttrs r (fun a => if c a then f a else a) t.
Proof.
  intros Hc.
  assert (Hat : forall e, In e (elementsOf t) -> nodeId e = r ->
                          attrsAt r t = nodeAttributes e).
  { intros e He <-. now apply attrsAt_coherent. }
  destruct (c (attrsAt r t)) eqn:C.
  - apply updateAttrs_ext_in. intros e He Hid.
    now rewrite <- (Hat e He Hid), C.
  - rewrite <- (updateAttrs_id r t) at 1.
    apply updateAttrs_ext_in. intros e He Hid.
    now rewrite <- (Hat e He Hid), C.
Qed.

(** ** The attributes left by the inner loop of [cleanAttributes] *)

Lemma filter_filter {A : Type} (p q : A -> bool) (l : list A) :
  filter p (filter q l) = filter (fun x => q x && p x) l.
Proof.
  induction l as [| x l IH]; [reflexivity |].
  simpl. destruct (q x); simpl; [destruct (p x) |]; now rewrite IH.
Qed.

Lemma stripAttrs_filter (l a : list attribute) :
  stripAttrs l a
  = filter (fun x => negb (existsb (fun y => negb (isAllowed (fst y))
                                             && (fst x =? fst y)%string) l)) a.
Proof.
  revert a. induction l as [| y l IH]; intros a.
  - simpl. symmetry. now apply filter_all.
  - unfold stripAttrs in *. simpl. rewrite IH.
    destruct (negb (isAllowed (fst y))) eqn:E; simpl.
    + unfold removeAttr. rewrite filter_filter.
      apply filter_ext. intros x. now rewrite negb_orb.
    + reflexivity.
Qed.

(** Removing from an attribute list, one by one, the attributes it holds
    that are not allowed leaves its allowed attributes, in their order. *)
Lemma stripAttrs_exact (a : list attribute) : stripAttrs a a = filterAllowed a.
Proof.
  rewrite stripAttrs_filter. unfold filterAllowed.
  apply filter_ext_in. intros x Hx.
  destruct (isAllowed (fst x)) eqn:E.
  - apply negb_true_iff.
    match goal with |- ?b = false => destruct b eqn:X end; [| reflexivity].
    apply existsb_exists in X as (y & _ & Hy).
    apply andb_true_iff in Hy as [Hy1 Hy2].
    apply String.eqb_eq in Hy2. rewrite <- Hy2, E in Hy1. discriminate.
  - apply negb_false_iff. apply existsb_exists. exists x.
    split; [exact Hx |]. now rewrite E, String.eqb_refl.
Qed.

Lemma filterAllowed_idem (a : list attribute) :
  filterAllowed (filterAllowed a) = filterAllowed a.
Proof.
  unfold filterAllowed. rewrite filter_filter. apply filter_ext.
  intros x. now destruct (isAllowed (fst x)).
Qed.

Lemma cleanElement_update (t : node) (el : nat) :
  coherent t -> cleanElement t el = updateAttrs el filterAllowed t.
Proof.
  intros Hc. unfold cleanElement. rewrite stripStep_fold.
  apply updateAttrs_ext_in. intros e He <-.
  rewrite (attrsAt_coherent t e Hc He). apply stripAttrs_exact.
Qed.

(** ** Loops of updates by an idempotent function *)

Lemma updateIn_nil (F : list attribute -> list attribute) (t : node) :
  updateIn [] F t = t.
Proof. apply mapAttrs_id. Qed.

Lemma updateAttrs_updateIn (el : nat) (S : list nat)
  (F : list attribute -> list attribute) (t : node) :
  (forall a, F (F a) = F a) ->
  updateAttrs el F (updateIn S F t) = updateIn (el :: S) F t.
Proof.
  intros Hidem. unfold updateIn. rewrite updateAttrs_mapAttrs, mapAttrs_compose.
  apply mapAttrs_ext_in. intros e _. simpl.
  destruct (nodeId e =? el) eqn:E; simpl; [| reflexivity].
  destruct (existsb (Nat.eqb (nodeId e)) S); [apply Hidem | reflexivity].
Qed.

Lemma updateIn_fold (step : node -> nat -> node)
  (F : list attribute -> list attribute) (l S : list nat) (t : node) :
  (forall a, F (F a) = F a) ->
  (forall u el, unambiguous u -> step u el = updateAttrs el F u) ->
  unambiguous t ->
  fold_left step l (updateIn S F t) = updateIn (rev l ++ S) F t.
Proof.
  intros Hidem Hstep Hu. revert S.
  induction l as [| el l IH]; intros S; [reflexivity |].
  simpl. rewrite Hstep by (now apply unambiguous_mapAttrs).
  rewrite updateAttrs_updateIn by exact Hidem.
  rewrite IH. now rewrite <- app_assoc.
Qed.

(** Updating the elements whose identities are in [S], when these are the
    elements below the root that satisfy [p]. *)
Lemma updateIn_belowRoot (S : list nat) (p : string -> bool)
  (F : list attribute -> list attribute) (t : node) :
  ~ In (nodeId t) S ->
  (forall e, In e (descendants t) -> (In (nodeId e) S <-> p (nodeName e) = true)) ->
  updateIn S F t = belowRoot (mapAttrs (fun _ n a => if p n then F a else a)) t.
Proof.
  destruct t as [i u a cs | d]; [| reflexivity].
  intros Hroot Hdesc. unfold updateIn. simpl.
  assert (Hi : existsb (Nat.eqb i) S = false).
  { destruct (existsb (Nat.eqb i) S) eqn:E; [| reflexivity].
    apply existsb_exists in E as (x & Hx & Hix). apply Nat.eqb_eq in Hix.
    subst x. now destruct Hroot. }
  rewrite Hi. f_equal. apply map_ext_in. intros c Hc.
  apply mapAttrs_ext_in. intros e He.
  assert (Hd : In e (descendants (Element i u a cs)))
    by now apply (in_elementsIn cs c).
  specialize (Hdesc e Hd).
  destruct (p (nodeName e)) eqn:P.
  - assert (Hin : In (nodeId e) S) by now apply Hdesc.
    assert (E : existsb (Nat.eqb (nodeId e)) S = true).
    { apply existsb_exists. exists (nodeId e). split; [exact Hin |].
      apply Nat.eqb_refl. }
    now rewrite E.
  - destruct (existsb (Nat.eqb (nodeId e)) S) eqn:E; [| reflexivity].
    apply existsb_exists in E as (x & Hx & Hix). apply Nat.eqb_eq in Hix.
    subst x. apply Hdesc in Hx. congruence.
Qed.

Lemma cleanAttributesTree_updateIn (t : node) :
  unambiguous t ->
  cleanAttributesTree t
  = updateIn (rev (map nodeId (descendants t))) filterAllowed t.
Proof.
  intros Hu. unfold cleanAttributesTree.
  rewrite <- (updateIn_nil filterAllowed t) at 2.
  rewrite (updateIn_fold cleanElement filterAllowed);
    [| exact filterAllowed_idem
     | intros u el Hu'; apply cleanElement_update;
       now apply unambiguous_coherent
     | exact Hu].
  now rewrite app_nil_r.
Qed.

(** [cleanAttributes] strips every element below the root. *)
Lemma cleanAttributesTree_stripAll (lo : nat) (t : node) :
  isFrag lo t -> unambiguous t ->
  cleanAttributesTree t = belowRoot stripAll t.
Proof.
  intros (Hel & Hid & Hd) Hu. rewrite (cleanAttributesTree_updateIn t Hu).
  rewrite (updateIn_belowRoot _ (fun _ => true)).
  - reflexivity.
  - intros Hin. apply in_rev in Hin.
    apply in_map_iff in Hin as (e & He & Hin). specialize (Hd e Hin). lia.
  - intros e He. split; [reflexivity |]. intros _.
    apply in_rev. rewrite rev_involutive. now apply in_map.
Qed.

(** ** The loop of [optimizeImages] *)

Lemma getAttribute_setAttr_same (name value : string) (a : list attribute) :
  getAttribute name (setAttr name value a) = Some value.
Proof.
  induction a as [| [k v] a IH]; simpl.
  - now rewrite String.eqb_refl.
  - destruct (k =? name)%string eqn:E; simpl; rewrite E; [reflexivity | exact IH].
Qed.

Lemma removeAttr_idem (name : string) (a : list attribute) :
  removeAttr name (removeAttr name a) = removeAttr name a.
Proof.
  unfold removeAttr. rewrite filter_filter. apply filter_ext.
  intros x. now destruct (fst x =? name)%string.
Qed.

Lemma altOf_removeStyle (a : list attribute) :
  altOf (removeAttr "style" a) = altOf a.
Proof. unfold altOf. now rewrite getAttribute_removeAttr. Qed.

(** After the normalization an image has an alternative text. *)
Lemma imgFix_alt (a : list attribute) : Str.isEmpty (altOf (imgFix a)) = false.
Proof.
  unfold imgFix. rewrite loadingOf_nonempty, altOf_removeStyle.
  destruct (Str.isEmpty (altOf a)) eqn:E; [| exact E].
  unfold altOf. now rewrite getAttribute_setAttr_same.
Qed.

Lemma imgFix_idem (a : list attribute) : imgFix (imgFix a) = imgFix a.
Proof.
  pose proof (imgFix_alt a) as Halt.
  unfold imgFix at 1. rewrite loadingOf_nonempty, Halt.
  unfold imgFix. apply removeAttr_idem.
Qed.

Lemma optimizeImage_update (t : node) (img : nat) :
  coherent t -> optimizeImage t img = updateAttrs img imgFix t.
Proof.
  intros Hc. unfold optimizeImage.
  rewrite (updateAttrs_guard img (fun a => Str.isEmpty (loadingOf a))
             (setAttr "loading" "lazy") t Hc).
  set (t1 := updateAttrs img _ t).
  assert (Hc1 : coherent t1) by now apply coherent_updateAttrs.
  rewrite (updateAttrs_guard img (fun a => Str.isEmpty (altOf a))
             (setAttr "alt" defaultAlt) t1 Hc1).
  unfold t1. rewrite !updateAttrs_compose. reflexivity.
Qed.

Lemma matches_img (e : node) :
  isElement e = true ->
  matches [TypeSel "img"] e = (nodeName e =? "img")%string.
Proof.
  intros He. unfold matches, matchesSimple. simpl. rewrite He. simpl.
  apply orb_false_r.
Qed.

Lemma optimizeImagesTree_updateIn (t : node) :
  unambiguous t ->
  optimizeImagesTree t
  = updateIn (rev (map nodeId (querySelectorAll t [TypeSel "img"]))) imgFix t.
Proof.
  intros Hu. unfold optimizeImagesTree.
  rewrite <- (updateIn_nil imgFix t) at 2.
  rewrite (updateIn_fold optimizeImage imgFix);
    [| exact imgFix_idem
     | intros u el Hu'; apply optimizeImage_update;
       now apply unambiguous_coherent
     | exact Hu].
  now rewrite app_nil_r.
Qed.

(** [optimizeImages] normalizes every image below the root. *)
Lemma optimizeImagesTree_imgAll (lo : nat) (t : node) :
  isFrag lo t -> unambiguous t ->
  optimizeImagesTree t = belowRoot imgAll t.
Proof.
  intros (Hel & Hid & Hd) Hu. rewrite (optimizeImagesTree_updateIn t Hu).
  rewrite (updateIn_belowRoot _ (fun n => (n =? "img")%string)).
  - reflexivity.
  - intros Hin. apply in_rev in Hin.
    apply in_map_iff in Hin as (e & He & Hin).
    apply filter_In in Hin as [Hin _]. specialize (Hd e Hin). lia.
  - intros e He. pose proof (elementsIn_isElement _ _ He) as Hee.
    rewrite <- in_rev. split.
    + intros Hin. apply in_map_iff in Hin as (e' & Hid' & Hin).
      apply filter_In in Hin as [Hin Hm].
      rewrite matches_img in Hm by exact (elementsIn_isElement _ _ Hin).
      destruct (Hu e' e (descendants_incl t e' Hin) (descendants_incl t e He) Hid')
        as [Hn _].
      now rewrite <- Hn.
    + intros Hn. apply in_map. apply filter_In. split; [exact He |].
      now rewrite matches_img.
Qed.

(* ================================================================== *)
(** * The three steps of the sanitizer as three passes *)

Lemma isFrag_removeNoiseTree (lo : nat) (t : node) :
  isFrag lo t -> isFrag lo (removeNoiseTree t).
Proof.
  intros Ht. exact (proj2 (removeNoise_fragHeap lo [] [] (no_trees lo) 0 t Ht)).
Qed.

Lemma isFrag_cleanAttributesTree (lo : nat) (t : node) :
  isFrag lo t -> isFrag lo (cleanAttributesTree t).
Proof.
  intros Ht.
  exact (proj2 (cleanAttributes_fragHeap lo [] [] (no_trees lo) 0 t Ht)).
Qed.

Lemma isFrag_optimizeImagesTree (lo : nat) (t : node) :
  isFrag lo t -> isFrag lo (optimizeImagesTree t).
Proof.
  intros Ht.
  exact (proj2 (optimizeImages_fragHeap lo [] [] (no_trees lo) 0 t Ht)).
Qed.

Lemma unambiguous_removeNoiseTree (t : node) :
  unambiguous t -> unambiguous (removeNoiseTree t).
Proof.
  intros Hu. rewrite (removeNoiseTree_dropNoise t Hu).
  now apply unambiguous_dropWhere.
Qed.

Lemma unambiguous_cleanAttributesTree (t : node) :
  unambiguous t -> unambiguous (cleanAttributesTree t).
Proof.
  intros Hu. rewrite (cleanAttributesTree_updateIn t Hu).
  now apply unambiguous_mapAttrs.
Qed.

Lemma unambiguous_optimizeImagesTree (t : node) :
  unambiguous t -> unambiguous (optimizeImagesTree t).
Proof.
  intros Hu. rewrite (optimizeImagesTree_updateIn t Hu).
  now apply unambiguous_mapAttrs.
Qed.

(** On a fragment whose elements have distinct identities, the loops of
    [cleanContent] amount to the three passes. *)
Lemma sanitizeTree_spec (lo : nat) (t : node) :
  isFrag lo t -> unambiguous t -> sanitizeTree t = sanitizeSpec t.
Proof.
  intros Ht Hu. unfold sanitizeTree, sanitizeSpec.
  pose proof (isFrag_removeNoiseTree lo t Ht) as H1.
  pose proof (unambiguous_removeNoiseTree t Hu) as U1.
  pose proof (isFrag_cleanAttributesTree lo _ H1) as H2.
  pose proof (unambiguous_cleanAttributesTree _ U1) as U2.
  rewrite (optimizeImagesTree_imgAll lo _ H2 U2).
  rewrite (cleanAttributesTree_stripAll lo _ H1 U1).
  now rewrite (removeNoiseTree_dropNoise t Hu).
Qed.

(** ** Forgetting the identities *)

Lemma shape_cloneTree (n : node) (nx : nat) :
  shape (fst (cloneTree n nx)) = shape n.
Proof.
  revert nx. induction n as [i t a cs IH | d] using node_rect'; intros nx;
    [| reflexivity].
  rewrite cloneTree_unfold. simpl. f_equal.
  generalize (S nx). clear nx.
  induction cs as [| c cs IHcs]; intros k; [reflexivity |].
  inversion IH as [| ? ? Hc Hcs]; subst.
  rewrite cloneList_cons. simpl. rewrite Hc. f_equal. now apply IHcs.
Qed.

Lemma shape_shell (n : node) :
  isElement (shape n) = isElement n /\ nodeName (shape n) = nodeName n /\
  nodeAttributes (shape n) = nodeAttributes n.
Proof. destruct n; repeat split. Qed.

Lemma matches_shape (sel : selector) (n : node) :
  matches sel (shape n) = matches sel n.
Proof.
  destruct (shape_shell n) as (H1 & H2 & H3).
  unfold matches, matchesSimple. now rewrite H1, H2, H3.
Qed.

Lemma isNoise_shape (n : node) : isNoise (shape n) = isNoise n.
Proof.
  unfold isNoise. induction noiseSelectors as [| s l IH]; [reflexivity |].
  simpl. now rewrite matches_shape, IH.
Qed.

Lemma shape_dropWhere (p : node -> bool) (n : node) :
  (forall c, p (shape c) = p c) ->
  shape (dropWhere p n) = dropWhere p (shape n).
Proof.
  intros Hp. induction n as [i t a cs IH | d] using node_rect'; [| reflexivity].
  simpl. f_equal.
  induction cs as [| c cs IHcs]; [reflexivity |].
  inversion IH as [| ? ? Hc Hcs]; subst.
  simpl. rewrite Hp. destruct (p c); simpl; [now apply IHcs |].
  rewrite Hc. f_equal. now apply IHcs.
Qed.

Lemma shape_mapAttrs (G : string -> list attribute -> list attribute)
  (n : node) :
  shape (mapAttrs (fun _ => G) n) = mapAttrs (fun _ => G) (shape n).
Proof.
  induction n as [i t a cs IH | d] using node_rect'; [| reflexivity].
  simpl. f_equal. rewrite !map_map. apply map_ext_in. intros c Hc.
  rewrite Forall_forall in IH. now apply IH.
Qed.

Lemma shape_belowRoot (f : node -> node) (n : node) :
  (forall c, shape (f c) = f (shape c)) ->
  shape (belowRoot f n) = belowRoot f (shape n).
Proof.
  intros Hf. destruct n as [i t a cs | d]; [| reflexivity].
  simpl. f_equal. rewrite !map_map. apply map_ext. intros c. apply Hf.
Qed.

(** The passes do not look at the identities. *)
Lemma shape_sanitizeSpec (n : node) :
  shape (sanitizeSpec n) = sanitizeSpec (shape n).
Proof.
  unfold sanitizeSpec, dropNoise.
  rewrite shape_belowRoot by (intros c; apply shape_mapAttrs).
  rewrite shape_belowRoot by (intros c; apply shape_mapAttrs).
  now rewrite shape_dropWhere by exact isNoise_shape.
Qed.

Lemma cloneTree_unambiguous (n : node) (nx : nat) :
  unambiguous (fst (cloneTree n nx)).
Proof.
  apply NoDup_ids_unambiguous.
  rewrite (proj2 (cloneTree_ids n nx)). apply seq_NoDup.
Qed.

(** The fragment of [cleanContent], in terms of the passes. *)
Lemma cleanContent_sanitizeSpec (h : heap) (c : nat) (n : node) :
  wellFormed h -> resolve c h = Some n ->
  cleanContent (Some c) h
  = Some (Some (nextId h),
          fragHeap (documentNodes h) (detachedTrees h)
                   (snd (cloneTree n (nextId h)))
                   (sanitizeSpec (fst (cloneTree n (nextId h)))))
  /\ isFrag (nextId h) (sanitizeSpec (fst (cloneTree n (nextId h)))).
Proof.
  intros Hwf Hc.
  destruct (cleanContent_refines h c n Hwf Hc) as [Hrun Hfrag].
  pose proof (resolve_isElement c h n Hc) as Hn.
  rewrite (sanitizeTree_spec (nextId h) _
             (cloneTree_isFrag n (nextId h) Hn)
             (cloneTree_unambiguous n (nextId h))) in Hrun, Hfrag.
  split; [exact Hrun | exact Hfrag].
Qed.

(* ================================================================== *)
(** * What the fragment holds *)

Lemma isNoise_text (d : string) : isNoise (Text d) = false.
Proof.
  unfold isNoise. induction noiseSelectors as [| s l IH]; [reflexivity |].
  simpl. now rewrite matches_text.
Qed.

Lemma textContent_mapAttrs
  (G : nat -> string -> list attribute -> list attribute) (n : node) :
  textContent (mapAttrs G n) = textContent n.
Proof.
  induction n as [i t a cs IH | d] using node_rect'; [| reflexivity].
  simpl. f_equal. rewrite map_map. apply map_ext_in. intros c Hc.
  rewrite Forall_forall in IH. now apply IH.
Qed.

Lemma textContent_belowRoot_mapAttrs
  (G : nat -> string -> list attribute -> list attribute) (n : node) :
  textContent (belowRoot (mapAttrs G) n) = textContent n.
Proof.
  destruct n as [i t a cs | d]; [| reflexivity].
  simpl. f_equal. rewrite map_map. apply map_ext. intros c.
  apply textContent_mapAttrs.
Qed.

Lemma textContent_shape (n : node) : textContent (shape n) = textContent n.
Proof.
  induction n as [i t a cs IH | d] using node_rect'; [| reflexivity].
  simpl. f_equal. rewrite map_map. apply map_ext_in. intros c Hc.
  rewrite Forall_forall in IH. now apply IH.
Qed.

Lemma names_mapAttrs
  (G : nat -> string -> list attribute -> list attribute) (n : node) :
  map nodeName (elementsOf (mapAttrs G n)) = map nodeName (elementsOf n).
Proof.
  rewrite elementsOf_mapAttrs, map_map. apply map_ext. intros e.
  now destruct (mapAttrs_shell G e) as (_ & _ & ->).
Qed.

Lemma elementsOf_belowRoot_mapAttrs
  (G : nat -> string -> list attribute -> list attribute) (n : node) :
  isElement n = true ->
  elementsOf (belowRoot (mapAttrs G) n)
  = belowRoot (mapAttrs G) n :: map (mapAttrs G) (descendants n).
Proof.
  destruct n as [i t a cs | d]; [| discriminate]. intros _.
  simpl. f_equal. unfold descendants, elementsIn. simpl.
  induction cs as [| c cs IH]; [reflexivity |].
  simpl. now rewrite map_app, elementsOf_mapAttrs, IH.
Qed.

Lemma names_belowRoot_mapAttrs
  (G : nat -> string -> list attribute -> list attribute) (n : node) :
  map nodeName (elementsOf (belowRoot (mapAttrs G) n))
  = map nodeName (elementsOf n).
Proof.
  destruct n as [i t a cs | d]; [| reflexivity].
  rewrite elementsOf_belowRoot_mapAttrs by reflexivity.
  rewrite elementsOf_cons by reflexivity. simpl. f_equal.
  rewrite map_map. apply map_ext. intros e.
  now destruct (mapAttrs_shell G e) as (_ & _ & ->).
Qed.

Lemma ids_belowRoot_mapAttrs
  (G : nat -> string -> list attribute -> list attribute) (n : node) :
  map nodeId (elementsOf (belowRoot (mapAttrs G) n))
  = map nodeId (elementsOf n).
Proof.
  destruct n as [i t a cs | d]; [| reflexivity].
  rewrite elementsOf_belowRoot_mapAttrs by reflexivity.
  rewrite elementsOf_cons by reflexivity. simpl. f_equal.
  rewrite map_map. apply map_ext. intros e.
  now destruct (mapAttrs_shell G e) as (_ & -> & _).
Qed.

Lemma names_shape (n : node) :
  map nodeName (elementsOf (shape n)) = map nodeName (elementsOf n).
Proof.
  induction n as [i t a cs IH | d] using node_rect'; [| reflexivity].
  simpl. f_equal.
  induction cs as [| c cs IHcs]; [reflexivity |].
  inversion IH as [| ? ? Hc Hcs]; subst.
  simpl. rewrite !map_app, Hc. f_equal. now apply IHcs.
Qed.

Lemma dropNoise_clean (n : node) :
  (forall e, In e (descendants n) -> isNoise e = false) -> dropNoise n = n.
Proof.
  intros H. unfold dropNoise. rewrite <- (dropWhere_none n) at 2.
  apply dropWhere_ext_in; [exact H | exact isNoise_text].
Qed.

(** The text and the element names of the three passes are those of the
    first one. *)
Lemma sanitizeSpec_content (n : node) :
  textContent (sanitizeSpec n) = textContent (dropNoise n) /\
  map nodeName (elementsOf (sanitizeSpec n))
  = map nodeName (elementsOf (dropNoise n)).
Proof.
  unfold sanitizeSpec, imgAll, stripAll. split.
  - now rewrite !textContent_belowRoot_mapAttrs.
  - now rewrite !names_belowRoot_mapAttrs.
Qed.

Lemma shape_dropNoise (n : node) : shape (dropNoise n) = dropNoise (shape n).
Proof. apply shape_dropWhere. exact isNoise_shape. Qed.

Lemma ids_sanitizeSpec (t e : node) :
  In e (elementsOf (sanitizeSpec t)) ->
  In (nodeId e) (map nodeId (elementsOf t)).
Proof.
  intros He. apply (in_map nodeId) in He.
  unfold sanitizeSpec, imgAll, stripAll in He.
  rewrite !ids_belowRoot_mapAttrs in He.
  apply in_map_iff in He as (e1 & <- & He1).
  apply elementsOf_dropWhere in He1 as (e0 & He0 & ->).
  destruct (dropWhere_shell isNoise e0) as (_ & -> & _).
  now apply in_map.
Qed.

(** [cleanContent] leaves a well-formed heap. *)
Lemma wellFormed_fragHeap (h : heap) (n : node) :
  wellFormed h -> isElement n = true ->
  wellFormed (fragHeap (documentNodes h) (detachedTrees h)
                       (snd (cloneTree n (nextId h)))
                       (sanitizeSpec (fst (cloneTree n (nextId h))))) /\
  nextId h < snd (cloneTree n (nextId h)).
Proof.
  intros Hwf Hn. destruct (cloneTree_ids n (nextId h)) as [Hle Hids].
  assert (Hlt : nextId h < snd (cloneTree n (nextId h))).
  { destruct (cloneTree_root n (nextId h) Hn) as (He & _).
    rewrite elementsOf_cons in Hids by exact He. simpl in Hids.
    destruct (snd (cloneTree n (nextId h)) - nextId h) eqn:E;
      [discriminate | lia]. }
  split; [| exact Hlt].
  intros e He. unfold fragHeap in *. simpl in *.
  rewrite app_assoc, elementsIn_app in He.
  apply in_app_or in He as [He | He].
  - apply Hwf in He. lia.
  - unfold elementsIn in He. simpl in He. rewrite app_nil_r in He.
    apply ids_sanitizeSpec in He. rewrite Hids in He.
    apply in_seq in He. lia.
Qed.

(** A run of [cleanContent] on a candidate: the heap it leaves and the
    fragment, in terms of the three passes. *)
Lemma cleanContent_run (h : heap) (c : nat) (n : node) :
  wellFormed h -> resolve c h = Some n ->
  exists h' frag,
    cleanContent (Some c) h = Some (Some (nextId h), h') /\
    resolve (nextId h) h' = Some frag /\
    wellFormed h' /\ nextId h < nextId h' /\
    isFrag (nextId h) frag /\
    frag = sanitizeSpec (fst (cloneTree n (nextId h))) /\
    shape frag = sanitizeSpec (shape n) /\
    (forall x m, resolve x h = Some m -> resolve x h' = Some m).
Proof.
  intros Hwf Hc.
  destruct (cleanContent_sanitizeSpec h c n Hwf Hc) as [Hrun Hfrag].
  pose proof (resolve_isElement c h n Hc) as Hn.
  destruct (wellFormed_fragHeap h n Hwf Hn) as [Hwf' Hlt].
  eexists. eexists. split; [exact Hrun |]. split.
  { apply (resolve_root (nextId h) (documentNodes h) (detachedTrees h) Hwf).
    exact Hfrag. }
  split; [exact Hwf' |]. split; [exact Hlt |]. split; [exact Hfrag |].
  split; [reflexivity |]. split.
  - now rewrite shape_sanitizeSpec, shape_cloneTree.
  - intros x m. apply resolve_extend.
Qed.

(* ================================================================== *)
(** * The sanitizer: further properties *)

Lemma plainHeap_wellFormed : wellFormed plainHeap.
Proof.
  intros e He. vm_compute in He.
  repeat (destruct He as [<- | He]; [vm_compute; lia |]). destruct He.
Qed.



(** X2. [cleanContent] can be applied again to the same candidate: the
    heap it leaves is well formed, the second call returns another new
    element, its fragment has the structure of the first one (the same
    names, attributes, text and nesting), and the first fragment is not
    touched by the second call. *)
Theorem cleanContent_twice (h : heap) (c : nat) (n : node) :
  wellFormed h -> resolve c h = Some n ->
  exists r1 h1 f1 r2 h2 f2,
    cleanContent (Some c) h = Some (Some r1, h1) /\
    resolve r1 h1 = Some f1 /\
    wellFormed h1 /\
    cleanContent (Some c) h1 = Some (Some r2, h2) /\
    resolve r2 h2 = Some f2 /\
    r1 <> r2 /\
    shape f2 = shape f1 /\
    resolve r1 h2 = Some f1.
Proof.
  intros Hwf Hc.
  destruct (cleanContent_run h c n Hwf Hc)
    as (h1 & f1 & Hrun1 & Hr1 & Hwf1 & Hlt1 & _ & _ & Hs1 & Hold1).
  destruct (cleanContent_run h1 c n Hwf1 (Hold1 c n Hc))
    as (h2 & f2 & Hrun2 & Hr2 & _ & _ & _ & _ & Hs2 & Hold2).
  exists (nextId h), h1, f1, (nextId h1), h2, f2.
  repeat split; try assumption.
  - lia.
  - now rewrite Hs1, Hs2.
  - exact (Hold2 _ _ Hr1).
Qed.

Lemma cleanContent_twice_witness :
  exists r1 h1 f1 r2 h2 f2,
    cleanContent (Some 2) articleHeap = Some (Some r1, h1) /\
    resolve r1 h1 = Some f1 /\
    wellFormed h1 /\
    cleanContent (Some 2) h1 = Some (Some r2, h2) /\
    resolve r2 h2 = Some f2 /\
    r1 <> r2 /\
    shape f2 = shape f1 /\
    resolve r1 h2 = Some f1.
Proof.
  exact (cleanContent_twice articleHeap 2 article
           articleHeap_wellFormed eq_refl).
Defined.

Lemma descendants_belowRoot_mapAttrs
  (G : nat -> string -> list attribute -> list attribute) (n : node) :
  descendants (belowRoot (mapAttrs G) n) = map (mapAttrs G) (descendants n).
Proof.
  destruct n as [i t a cs | d]; [| reflexivity].
  unfold descendants, elementsIn. simpl.
  induction cs as [| c cs IH]; [reflexivity |].
  simpl. now rewrite map_app, elementsOf_mapAttrs, IH.
Qed.

Lemma mapAttrs_attributes
  (G : nat -> string -> list attribute -> list attribute) (e : node) :
  isElement e = true ->
  nodeAttributes (mapAttrs G e) = G (nodeId e) (nodeName e) (nodeAttributes e).
Proof. destruct e; [reflexivity | discriminate]. Qed.

(** The images below the root of the three passes. *)
Lemma sanitizeSpec_images (t e : node) :
  In e (descendants (sanitizeSpec t)) -> nodeName e = "img" ->
  Str.isEmpty (altOf (nodeAttributes e)) = false /\
  getAttribute "style" (nodeAttributes e) = None.
Proof.
  unfold sanitizeSpec, imgAll. intros He Hn.
  rewrite descendants_belowRoot_mapAttrs in He.
  apply in_map_iff in He as (e0 & <- & He0).
  pose proof (elementsIn_isElement _ _ He0) as Hel.
  destruct (mapAttrs_shell
              (fun _ t a => if (t =? "img")%string then imgFix a else a) e0)
    as (_ & _ & Hname).
  rewrite Hname in Hn. rewrite mapAttrs_attributes by exact Hel.
  rewrite Hn. simpl. split; [apply imgFix_alt |].
  unfold imgFix. now rewrite getAttribute_removeAttr.
Qed.

(** X3. In the fragment that [cleanContent] returns, every image below
    the root has a non-empty alternative text and no [style] attribute. *)
Theorem cleanContent_images (h : heap) (c : nat) (n : node) :
  wellFormed h -> resolve c h = Some n ->
  exists r h' frag,
    cleanContent (Some c) h = Some (Some r, h') /\
    resolve r h' = Some frag /\
    forall e, In e (descendants frag) -> nodeName e = "img" ->
      Str.isEmpty (altOf (nodeAttributes e)) = false /\
      getAttribute "style" (nodeAttributes e) = None.
Proof.
  intros Hwf Hc.
  destruct (cleanContent_run h c n Hwf Hc)
    as (h' & frag & H1 & H2 & _ & _ & _ & Hf & _).
  exists (nextId h), h', frag. split; [exact H1 |]. split; [exact H2 |].
  rewrite Hf. intros e. apply sanitizeSpec_images.
Qed.

Lemma cleanContent_images_witness :
  exists r h' frag,
    cleanContent (Some 2) plainHeap = Some (Some r, h') /\
    resolve r h' = Some frag /\
    forall e, In e (descendants frag) -> nodeName e = "img" ->
      Str.isEmpty (altOf (nodeAttributes e)) = false /\
      getAttribute "style" (nodeAttributes e) = None.
Proof.
  exact (cleanContent_images plainHeap 2 plainArticle
           plainHeap_wellFormed eq_refl).
Defined.

Lemma descendants_shape (n : node) :
  descendants (shape n) = map shape (descendants n).
Proof.
  assert (H : forall m, elementsOf (shape m) = map shape (elementsOf m)).
  { induction m as [i t a cs IH | d] using node_rect'; [| reflexivity].
    simpl. f_equal.
    induction cs as [| c cs IHcs]; [reflexivity |].
    inversion IH as [| ? ? Hc Hcs]; subst.
    simpl. rewrite map_app, Hc. f_equal. now apply IHcs. }
  destruct n as [i t a cs | d]; [| reflexivity].
  unfold descendants, elementsIn. simpl.
  induction cs as [| c cs IH]; [reflexivity |].
  simpl. now rewrite map_app, H, IH.
Qed.

(** X4. The fragment that [cleanContent] returns holds the text and the
    elements of the candidate that are not inside a noise element below
    the root, in their order; for a candidate without a noise element
    below its root these are all its text and all its elements. *)
Theorem cleanContent_content (h : heap) (c : nat) (n : node) :
  wellFormed h -> resolve c h = Some n ->
  exists r h' frag,
    cleanContent (Some c) h = Some (Some r, h') /\
    resolve r h' = Some frag /\
    textContent frag = textContent (dropNoise n) /\
    map nodeName (elementsOf frag) = map nodeName (elementsOf (dropNoise n)) /\
    ((forall e, In e (descendants n) -> isNoise e = false) ->
     textContent frag = textContent n /\
     map nodeName (elementsOf frag) = map nodeName (elementsOf n)).
Proof.
  intros Hwf Hc.
  destruct (cleanContent_run h c n Hwf Hc)
    as (h' & frag & H1 & H2 & _ & _ & _ & _ & Hs & _).
  exists (nextId h), h', frag. split; [exact H1 |]. split; [exact H2 |].
  destruct (sanitizeSpec_content (shape n)) as [Ht Hn].
  rewrite <- Hs, <- shape_dropNoise in Ht, Hn.
  rewrite !textContent_shape in Ht. rewrite !names_shape in Hn.
  split; [exact Ht |]. split; [exact Hn |].
  intros Hclean. rewrite (dropNoise_clean n Hclean) in Ht, Hn. now split.
Qed.

Lemma cleanContent_content_witness :
  exists r h' frag,
    cleanContent (Some 2) plainHeap = Some (Some r, h') /\
    resolve r h' = Some frag /\
    textContent frag = textContent plainArticle /\
    map nodeName (elementsOf frag) = map nodeName (elementsOf plainArticle).
Proof.
  destruct (cleanContent_content plainHeap 2 plainArticle
              plainHeap_wellFormed eq_refl)
    as (r & h' & frag & H1 & H2 & _ & _ & H3).
  exists r, h', frag. split; [exact H1 |]. split; [exact H2 |].
  apply H3. intros e He. vm_compute in He.
  repeat (destruct He as [<- | He]; [vm_compute; reflexivity |]). destruct He.
Defined.

(** ** Sanitizing a sanitized fragment *)

Lemma noise_free_isNoise (s e : node) :
  (forall sel, In sel noiseSelectors -> querySelectorAll s sel = []) ->
  In e (descendants s) -> isNoise e = false.
Proof.
  intros Hnone Hin. unfold isNoise.
  match goal with |- ?b = false => destruct b eqn:X end; [| reflexivity].
  apply existsb_exists in X as (sel & Hsel & Hm).
  assert (Hf : In e (querySelectorAll s sel)).
  { apply filter_In. split; [exact Hin | exact Hm]. }
  rewrite (Hnone sel Hsel) in Hf. destruct Hf.
Qed.

Lemma sanitizeSpec_noise_free_via (c t e : node) :
  isFrag 0 c -> unambiguous c -> shape c = shape t ->
  In e (descendants (sanitizeSpec t)) -> isNoise e = false.
Proof.
  intros Hc Hu Hct He.
  assert (Hs : shape (sanitizeSpec c) = shape (sanitizeSpec t)).
  { rewrite !shape_sanitizeSpec. now rewrite Hct. }
  apply (in_map shape) in He. rewrite <- descendants_shape, <- Hs in He.
  rewrite descendants_shape in He.
  apply in_map_iff in He as (e' & He' & Hin).
  rewrite <- isNoise_shape, <- He', isNoise_shape.
  apply (noise_free_isNoise (sanitizeSpec c)); [| exact Hin].
  intros sel Hsel. rewrite <- (sanitizeTree_spec 0 c Hc Hu).
  now apply sanitizeTree_noise_free.
Qed.

Lemma sanitizeSpec_noise_free (t e : node) :
  In e (descendants (sanitizeSpec t)) -> isNoise e = false.
Proof.
  destruct (isElement t) eqn:Ht.
  - apply (sanitizeSpec_noise_free_via (fst (cloneTree t 0))).
    + now apply cloneTree_isFrag.
    + apply cloneTree_unambiguous.
    + apply shape_cloneTree.
  - destruct t; [discriminate | intros []].
Qed.

Lemma belowRoot_compose (f g : node -> node) (n : node) :
  belowRoot f (belowRoot g n) = belowRoot (fun x => f (g x)) n.
Proof.
  destruct n as [i t a cs | d]; [| reflexivity].
  simpl. now rewrite map_map.
Qed.

Lemma belowRoot_ext (f g : node -> node) (n : node) :
  (forall x, f x = g x) -> belowRoot f n = belowRoot g n.
Proof.
  intros H. destruct n as [i t a cs | d]; [| reflexivity].
  simpl. f_equal. apply map_ext. exact H.
Qed.

Lemma filterAllowed_allowedOnly (a : list attribute) :
  allowedOnly (filterAllowed a) = true.
Proof.
  unfold allowedOnly, filterAllowed. apply forallb_forall.
  intros x Hx. now apply filter_In in Hx.
Qed.

Lemma filterAllowed_fixed (a : list attribute) :
  allowedOnly a = true -> filterAllowed a = a.
Proof.
  intros H. apply filter_all. intros x Hx.
  unfold allowedOnly in H. rewrite forallb_forall in H. now apply H.
Qed.

(** [img.loading] is never empty, so [optimizeImages] never writes it. *)
Lemma imgFix_unfold (a : list attribute) :
  imgFix a
  = removeAttr "style"
      (if Str.isEmpty (altOf a) then setAttr "alt" defaultAlt a else a).
Proof. unfold imgFix. now rewrite loadingOf_nonempty. Qed.

Lemma allowedOnly_imgFix (a : list attribute) :
  allowedOnly a = true -> allowedOnly (imgFix a) = true.
Proof.
  intros H. rewrite imgFix_unfold. apply allowedOnly_removeAttr.
  destruct (Str.isEmpty (altOf a)); [| exact H].
  now apply allowedOnly_setAttr.
Qed.

Lemma sanitizeSpec_idem (t : node) :
  sanitizeSpec (sanitizeSpec t) = sanitizeSpec t.
Proof.
  unfold sanitizeSpec at 1.
  rewrite (dropNoise_clean _ (sanitizeSpec_noise_free t)).
  unfold sanitizeSpec. rewrite !belowRoot_compose.
  apply belowRoot_ext. intros x. unfold imgAll, stripAll.
  rewrite !mapAttrs_compose. apply mapAttrs_ext_in. intros e _.
  cbv beta.
  destruct (nodeName e =? "img")%string.
  - rewrite (filterAllowed_fixed (imgFix _))
      by apply allowedOnly_imgFix, filterAllowed_allowedOnly.
    apply imgFix_idem.
  - apply filterAllowed_idem.
Qed.

(** X7. Sanitizing is idempotent: [cleanContent] applied to a fragment it
    returned gives a fragment of the same structure (names, attributes,
    text and nesting). *)
Theorem cleanContent_idempotent (h : heap) (c : nat) (n : node) :
  wellFormed h -> resolve c h = Some n ->
  exists r1 h1 f1 r2 h2 f2,
    cleanContent (Some c) h = Some (Some r1, h1) /\
    resolve r1 h1 = Some f1 /\
    cleanContent (Some r1) h1 = Some (Some r2, h2) /\
    resolve r2 h2 = Some f2 /\
    shape f2 = shape f1.
Proof.
  intros Hwf Hc.
  destruct (cleanContent_run h c n Hwf Hc)
    as (h1 & f1 & Hrun1 & Hr1 & Hwf1 & _ & _ & _ & Hs1 & _).
  destruct (cleanContent_run h1 (nextId h) f1 Hwf1 Hr1)
    as (h2 & f2 & Hrun2 & Hr2 & _ & _ & _ & _ & Hs2 & _).
  exists (nextId h), h1, f1, (nextId h1), h2, f2.
  repeat split; try assumption.
  rewrite Hs2, Hs1. apply sanitizeSpec_idem.
Qed.

Lemma cleanContent_idempotent_witness :
  exists r1 h1 f1 r2 h2 f2,
    cleanContent (Some 2) articleHeap = Some (Some r1, h1) /\
    resolve r1 h1 = Some f1 /\
    cleanContent (Some r1) h1 = Some (Some r2, h2) /\
    resolve r2 h2 = Some f2 /\
    shape f2 = shape f1.
Proof.
  exact (cleanContent_idempotent articleHeap 2 article
           articleHeap_wellFormed eq_refl).
Defined.

Lemma cleanContent_root_kept_witness :
  exists r h' frag,
    cleanContent (Some 2) articleHeap = Some (Some r, h') /\
    resolve r h' = Some frag /\
    nodeName frag = nodeName article /\
    nodeAttributes frag = nodeAttributes article.
Proof.
  exact (cleanContent_root_kept articleHeap 2 article
           articleHeap_wellFormed eq_refl).
Defined.


(* ================================================================== *)
(** * The locator as a whole *)

Lemma tagCount_length (e : node) :
  tagCount e = List.length (descendants e).
Proof.
  unfold tagCount, querySelectorAll. now rewrite querySelectorAllIn_universal.
Qed.

(** A density above the threshold takes more than 25 characters of text
    that is not link text for every element below. *)
Lemma dense_lengths (e : node) :
  gtQ (calculateTextDensity e) textDensityThreshold = true ->
  0 < tagCount e /\
  25 * tagCount e + linkTextLength e < trimmedTextLength e.
Proof.
  intros H. apply gtQ_lt in H. rewrite calculateTextDensity_unfold in H.
  destruct (0 <? tagCount e) eqn:Htc.
  - apply Nat.ltb_lt in Htc. split; [exact Htc |].
    assert (Hpos : (0 < inject_Z (Z.of_nat (tagCount e)))%Q).
    { unfold Qlt. cbn [Qnum Qden inject_Z]. lia. }
    apply (Qmult_lt_compat_r _ _ _ Hpos) in H.
    rewrite Qmult_comm in H. rewrite (Qmult_comm (_ / _)) in H.
    rewrite Qmult_div_r in H
      by (intros E; rewrite E in Hpos; discriminate).
    unfold Qlt, Qmult, textDensityThreshold in H.
    cbn [Qnum Qden inject_Z] in H. lia.
  - unfold Qlt, textDensityThreshold in H. cbn [Qnum Qden] in H. lia.
Qed.

(** X5. What the locator returns is an element of the page with at least
    26 characters of trimmed text; it passes the validity filter when stage
    1 or stage 3 found it, while stage 2 applies no such filter: its result
    is a [div], [section] or [main] with a density above 25 that stage 1
    did not prefer, valid or not. *)
Theorem extractMainContent_result (doc : list node) (e : node) :
  extractMainContent doc = Some e ->
  In e (elementsIn doc) /\
  26 <= trimmedTextLength e /\
  (isValidContent (Some e) = true \/
   (findContentBySelectors doc = None /\
    findContentByTextDensity doc = Some e /\
    In (nodeName e) ["div"; "section"; "main"] /\
    gtQ (calculateTextDensity e) textDensityThreshold = true)).
Proof.
  unfold extractMainContent, extractMainContentRun.
  destruct (findContentBySelectors doc) as [e1 |] eqn:H1; cbn [isNull fst].
  - intros [= ->].
    assert (Hex : exists s, In s contentSelectors /\
                   isValidContent (querySelectorIn doc s) = true).
    { destruct (findContentBySelectorsFrom_none doc contentSelectors) as [_ Hn].
      assert (Hdec : forall sels,
                 (forall s, In s sels ->
                    isValidContent (querySelectorIn doc s) = false) \/
                 exists s, In s sels /\
                    isValidContent (querySelectorIn doc s) = true).
      { induction sels as [| s sels IH]; [left; intros ? [] |].
        destruct (isValidContent (querySelectorIn doc s)) eqn:Hs.
        - right. exists s. split; [now left | exact Hs].
        - destruct IH as [IH | (s' & Hin & Hv)].
          + left. intros s' [<- | Hin]; [exact Hs | now apply IH].
          + right. exists s'. split; [now right | exact Hv]. }
      destruct (Hdec contentSelectors) as [Hall | Hex]; [| exact Hex].
      unfold findContentBySelectors in H1. rewrite (Hn Hall) in H1.
      discriminate. }
    destruct (findContentBySelectorsFrom_some doc contentSelectors Hex)
      as (pre & sel & post & e' & _ & _ & Hq & Hv & Hres).
    unfold findContentBySelectors in H1. rewrite Hres in H1.
    injection H1 as ->.
    destruct (querySelectorIn_some doc sel e Hq) as (_ & Hin & _).
    split; [exact Hin |].
    apply isValidContent_lengths in Hv as Hl.
    split; [lia | now left].
  - destruct (findContentByTextDensity doc) as [e2 |] eqn:H2; cbn [isNull fst].
    + intros [= ->].
      destruct (findContentByTextDensity_some doc e H2)
        as (Hgate & _ & p1 & p2 & Hl & _).
      assert (Hin : In e (densityCandidates doc)).
      { rewrite Hl. apply in_or_app. right. now left. }
      apply densityCandidates_spec in Hin as [Hin Hname].
      destruct (dense_lengths e Hgate) as [Htc Hlen].
      split; [exact Hin |]. split; [lia |].
      right. repeat split; assumption.
    + intros H3.
      destruct (findLargestTextBlock_some doc e H3)
        as (Hv & _ & p1 & p2 & Hl & _).
      assert (Hin : In e (allElements doc)).
      { rewrite Hl. apply in_or_app. right. now left. }
      unfold allElements in Hin. rewrite querySelectorAllIn_universal in Hin.
      apply isValidContent_lengths in Hv as Hlen.
      split; [exact Hin |]. split; [lia | now left].
Qed.

Lemma extractMainContent_result_witness :
  exists e,
    extractMainContent equalDensities = Some e /\
    In e (elementsIn equalDensities) /\
    26 <= trimmedTextLength e.
Proof.
  eexists. split; [vm_compute; reflexivity |].
  destruct (extractMainContent_result equalDensities _ eq_refl)
    as (Hin & Hlen & _).
  split; [exact Hin | exact Hlen].
Defined.

(** X6. The locator returns nothing exactly when no element of the page
    passes the validity filter and no [div], [section] or [main] has a
    density above 25. *)
Theorem extractMainContent_fails (doc : list node) :
  extractMainContent doc = None <->
  (forall x, In x (elementsIn doc) -> isValidContent (Some x) = false) /\
  (forall x, In x (elementsIn doc) ->
     In (nodeName x) ["div"; "section"; "main"] ->
     (calculateTextDensity x <= 25)%Q).
Proof.
  rewrite extractMainContent_none, findContentByTextDensity_none,
    findLargestTextBlock_none.
  unfold findContentBySelectors. rewrite findContentBySelectorsFrom_none.
  unfold noneQualifies, allElements. rewrite querySelectorAllIn_universal.
  split.
  - intros (_ & H2 & H3). split.
    + intros x Hx. destruct (isValidContent (Some x)) eqn:Hv; [| reflexivity].
      exfalso. apply (H3 x Hx Hv).
      apply isValidContent_lengths in Hv. lia.
    + intros x Hx Hn.
      destruct (gtQ (calculateTextDensity x) textDensityThreshold) eqn:Hg;
        [| apply gtQ_false in Hg; exact Hg].
      exfalso. apply (H2 x); [now apply densityCandidates_spec | exact Hg |].
      apply gtQ_lt in Hg. apply Qlt_trans with (y := textDensityThreshold);
        [reflexivity | exact Hg].
  - intros [Hv Hd]. split; [| split].
    + intros s _. destruct (querySelectorIn doc s) as [e |] eqn:Hq;
        [| reflexivity].
      apply Hv. now destruct (querySelectorIn_some doc s e Hq) as (_ & Hin & _).
    + intros x Hx Hg _. apply densityCandidates_spec in Hx as [Hx Hn].
      apply gtQ_lt in Hg. apply (Qlt_not_le _ _ Hg). now apply Hd.
    + intros x Hx Hval _. rewrite (Hv x Hx) in Hval. discriminate.
Qed.

Lemma extractMainContent_fails_witness :
  extractMainContent onlyShortTexts = None /\
  forall x, In x (elementsIn onlyShortTexts) -> isValidContent (Some x) = false.
Proof.
  split; [reflexivity |].
  apply (extractMainContent_fails onlyShortTexts). reflexivity.
Defined.


(* ================================================================== *)
(** * Class lists *)

Lemma hasAsciiWhitespace_app (a b : string) :
  DOMTokenList.hasAsciiWhitespace (a ++ b)
  = DOMTokenList.hasAsciiWhitespace a || DOMTokenList.hasAsciiWhitespace b.
Proof.
  induction a as [| c a IH]; simpl; [reflexivity |].
  now rewrite IH, orb_assoc.
Qed.

Lemma string_app_nil_r (s : string) : (s ++ "")%string = s.
Proof. induction s as [| c s IH]; simpl; [reflexivity | now rewrite IH]. Qed.

Lemma string_app_assoc (a b c : string) :
  ((a ++ b) ++ c)%string = (a ++ (b ++ c))%string.
Proof. induction a as [| x a IH]; simpl; [reflexivity | now rewrite IH]. Qed.

Lemma isEmpty_app (a b : string) :
  Str.isEmpty (a ++ b) = Str.isEmpty a && Str.isEmpty b.
Proof. now destruct a. Qed.

Lemma isEmpty_true (s : string) : Str.isEmpty s = true -> s = "".
Proof. now destruct s. Qed.

(** The tokens of a string are not empty and hold no white space. *)
Lemma tokensFrom_valid (s cur t : string) :
  DOMTokenList.hasAsciiWhitespace cur = false ->
  In t (Str.tokensFrom cur s) -> validToken t = true.
Proof.
  revert cur. induction s as [| c s IH]; simpl; intros cur Hcur Hin.
  - destruct (Str.isEmpty cur) eqn:E; [destruct Hin |].
    destruct Hin as [<- | []]. unfold validToken. now rewrite E, Hcur.
  - destruct (Str.isAsciiWhitespace c) eqn:Ec.
    + destruct (Str.isEmpty cur) eqn:E.
      * now apply (IH "").
      * destruct Hin as [<- | Hin]; [| now apply (IH "")].
        unfold validToken. now rewrite E, Hcur.
    + apply (IH (cur ++ String c "")%string); [| exact Hin].
      rewrite hasAsciiWhitespace_app, Hcur. simpl. now rewrite Ec.
Qed.

Lemma tokens_valid (s t : string) :
  In t (Str.tokens s) -> validToken t = true.
Proof. now apply tokensFrom_valid. Qed.

Lemma tokensFrom_token (t s cur : string) :
  DOMTokenList.hasAsciiWhitespace t = false ->
  Str.tokensFrom cur (t ++ s) = Str.tokensFrom (cur ++ t) s.
Proof.
  revert cur. induction t as [| c t IH]; simpl; intros cur H.
  - now rewrite string_app_nil_r.
  - apply orb_false_iff in H as [Hc Ht]. rewrite Hc.
    rewrite (IH _ Ht), string_app_assoc. reflexivity.
Qed.

(** Parsing a serialized token set gives its tokens back. *)
Lemma tokens_serialize (ts : list string) :
  forallb validToken ts = true ->
  Str.tokens (DOMTokenList.serialize ts) = ts.
Proof.
  unfold Str.tokens, DOMTokenList.serialize.
  induction ts as [| t ts IH]; [reflexivity |].
  intros H. apply andb_prop in H as [Ht Hts].
  unfold validToken in Ht. apply andb_prop in Ht as [Hne Hws].
  apply negb_true_iff in Hne, Hws.
  destruct ts as [| u ts].
  - simpl. rewrite <- (string_app_nil_r t) at 1.
    rewrite (tokensFrom_token t "" "" Hws). simpl. now rewrite Hne.
  - change (String.concat " " (t :: u :: ts))
      with (t ++ " " ++ String.concat " " (u :: ts))%string.
    rewrite (tokensFrom_token t _ "" Hws).
    change ("" ++ t)%string with t.
    change (" " ++ String.concat " " (u :: ts))%string
      with (String " " (String.concat " " (u :: ts))).
    cbn [Str.tokensFrom]. 
    change (Str.isAsciiWhitespace " ") with true. cbv iota.
    rewrite Hne. f_equal. now apply IH.
Qed.

Lemma existsb_eqb_In (x : string) (l : list string) :
  existsb (String.eqb x) l = true <-> In x l.
Proof.
  rewrite existsb_exists. split.
  - intros (y & Hy & E). apply String.eqb_eq in E. now subst.
  - intros H. exists x. split; [exact H | apply String.eqb_refl].
Qed.

Lemma existsb_eqb_false (x : string) (l : list string) :
  existsb (String.eqb x) l = false <-> ~ In x l.
Proof.
  rewrite <- existsb_eqb_In. now destruct (existsb (String.eqb x) l).
Qed.

Lemma appendToken_In (ts : list string) (t x : string) :
  In x (DOMTokenList.appendToken ts t) <-> In x ts \/ x = t.
Proof.
  unfold DOMTokenList.appendToken.
  destruct (existsb (String.eqb t) ts) eqn:E.
  - apply existsb_eqb_In in E. split; [now left | intros [H | ->]; assumption].
  - rewrite in_app_iff. simpl. split.
    + intros [H | [<- | []]]; [now left | now right].
    + intros [H | ->]; [now left | right; now left].
Qed.

Lemma appendToken_NoDup (ts : list string) (t : string) :
  NoDup ts -> NoDup (DOMTokenList.appendToken ts t).
Proof.
  intros H. unfold DOMTokenList.appendToken.
  destruct (existsb (String.eqb t) ts) eqn:E; [exact H |].
  apply existsb_eqb_false in E.
  apply NoDup_app; [exact H | constructor; [intros [] | constructor] |].
  intros x Hx [<- | []]. now apply E.
Qed.

Lemma fold_appendToken_In (l acc : list string) (x : string) :
  In x (fold_left DOMTokenList.appendToken l acc) <-> In x acc \/ In x l.
Proof.
  revert acc. induction l as [| t l IH]; simpl; intros acc.
  - split; [now left | now intros [H | []]].
  - rewrite IH, appendToken_In. split.
    + intros [[H | ->] | H]; [now left | right; now left | right; now right].
    + intros [H | [<- | H]]; [left; now left | left; now right | now right].
Qed.

Lemma fold_appendToken_NoDup (l acc : list string) :
  NoDup acc -> NoDup (fold_left DOMTokenList.appendToken l acc).
Proof.
  revert acc. induction l as [| t l IH]; simpl; intros acc H; [exact H |].
  now apply IH, appendToken_NoDup.
Qed.

Lemma fold_appendToken_fixed (l acc : list string) :
  NoDup (acc ++ l) -> fold_left DOMTokenList.appendToken l acc = acc ++ l.
Proof.
  revert acc. induction l as [| t l IH]; simpl; intros acc H.
  - now rewrite app_nil_r.
  - assert (Ht : ~ In t acc).
    { intros Hin. apply NoDup_remove_2 in H. apply H.
      apply in_or_app. now left. }
    unfold DOMTokenList.appendToken at 2.
    apply existsb_eqb_false in Ht. rewrite Ht.
    rewrite IH; rewrite <- app_assoc; [reflexivity | exact H].
Qed.

Lemma orderedSet_fixed (l : list string) :
  NoDup l -> DOMTokenList.orderedSet l = l.
Proof. intros H. now apply (fold_appendToken_fixed l []). Qed.

Lemma orderedSet_NoDup (l : list string) : NoDup (DOMTokenList.orderedSet l).
Proof. apply fold_appendToken_NoDup. constructor. Qed.

Lemma orderedSet_In (l : list string) (x : string) :
  In x (DOMTokenList.orderedSet l) <-> In x l.
Proof.
  unfold DOMTokenList.orderedSet. rewrite fold_appendToken_In.
  split; [now intros [[] | H] | now right].
Qed.

Lemma tokenSet_NoDup (a : list attribute) : NoDup (DOMTokenList.tokenSet a).
Proof.
  unfold DOMTokenList.tokenSet.
  destruct (getAttribute "class" a); [apply orderedSet_NoDup | constructor].
Qed.

Lemma tokenSet_valid (a : list attribute) :
  forallb validToken (DOMTokenList.tokenSet a) = true.
Proof.
  apply forallb_forall. intros t Ht. unfold DOMTokenList.tokenSet in Ht.
  destruct (getAttribute "class" a) as [v |]; [| destruct Ht].
  apply (proj1 (orderedSet_In _ _)) in Ht. exact (tokens_valid v t Ht).
Qed.

(** After the update steps the token set is the one written. *)
Lemma tokenSet_update (ts : list string) (a : list attribute) :
  NoDup ts -> forallb validToken ts = true ->
  DOMTokenList.tokenSet (DOMTokenList.update ts a) = ts.
Proof.
  intros Hnd Hv.
  assert (Hset : DOMTokenList.tokenSet
                   (setAttr "class" (DOMTokenList.serialize ts) a) = ts).
  { unfold DOMTokenList.tokenSet. rewrite getAttribute_setAttr_same.
    rewrite (tokens_serialize ts Hv). now apply orderedSet_fixed. }
  unfold DOMTokenList.update.
  destruct (getAttribute "class" a) as [v |] eqn:E; [exact Hset |].
  destruct ts as [| t ts]; [| exact Hset].
  unfold DOMTokenList.tokenSet. now rewrite E.
Qed.


Lemma filter_NoDup {A : Type} (p : A -> bool) (l : list A) :
  NoDup l -> NoDup (filter p l).
Proof.
  induction 1 as [| x l Hx Hl IH]; simpl; [constructor |].
  destruct (p x); [| exact IH].
  constructor; [| exact IH]. intros H. apply filter_In in H. now apply Hx.
Qed.

Lemma forallb_filter {A : Type} (q p : A -> bool) (l : list A) :
  forallb q l = true -> forallb q (filter p l) = true.
Proof.
  rewrite !forallb_forall. intros H x Hx. apply filter_In in Hx. now apply H.
Qed.

Lemma tokenSet_removeToken (tok : string) (a : list attribute) :
  DOMTokenList.tokenSet (DOMTokenList.removeToken tok a)
  = filter (fun t => negb (t =? tok)%string) (DOMTokenList.tokenSet a).
Proof.
  unfold DOMTokenList.removeToken. apply tokenSet_update.
  - apply filter_NoDup, tokenSet_NoDup.
  - apply forallb_filter, tokenSet_valid.
Qed.

Lemma tokenSet_addToken (tok : string) (a : list attribute) :
  validToken tok = true ->
  DOMTokenList.tokenSet (DOMTokenList.addToken tok a)
  = DOMTokenList.appendToken (DOMTokenList.tokenSet a) tok.
Proof.
  intros Hv. unfold DOMTokenList.addToken. apply tokenSet_update.
  - apply appendToken_NoDup, tokenSet_NoDup.
  - apply forallb_forall. intros x Hx. apply appendToken_In in Hx.
    destruct Hx as [Hx | ->]; [| exact Hv].
    pose proof (tokenSet_valid a) as H. rewrite forallb_forall in H.
    now apply H.
Qed.

Lemma contains_In (c : string) (a : list attribute) :
  DOMTokenList.contains c a = true <-> In c (DOMTokenList.tokenSet a).
Proof. apply existsb_eqb_In. Qed.

Lemma contains_removeToken (c tok : string) (a : list attribute) :
  DOMTokenList.contains c (DOMTokenList.removeToken tok a)
  = DOMTokenList.contains c a && negb (c =? tok)%string.
Proof.
  apply eq_true_iff_eq. rewrite andb_true_iff, !contains_In.
  rewrite tokenSet_removeToken, filter_In. reflexivity.
Qed.

Lemma contains_addToken (c tok : string) (a : list attribute) :
  validToken tok = true ->
  DOMTokenList.contains c (DOMTokenList.addToken tok a)
  = DOMTokenList.contains c a || (c =? tok)%string.
Proof.
  intros Hv. apply eq_true_iff_eq. rewrite orb_true_iff, !contains_In.
  rewrite (tokenSet_addToken tok a Hv), appendToken_In, String.eqb_eq.
  reflexivity.
Qed.

(** ** The document element and its class list *)

Lemma find_isElement_map (g : node -> node) (l : list node) :
  (forall n, isElement (g n) = isElement n) ->
  find isElement (map g l) = option_map g (find isElement l).
Proof.
  intros Hg. induction l as [| n l IH]; [reflexivity |].
  simpl. rewrite Hg. now destruct (isElement n).
Qed.

Lemma documentElementOf_isElement (h : heap) (root : node) :
  documentElementOf h = Some root -> isElement root = true.
Proof. intros H. now apply find_some in H. Qed.

Lemma modifyRoot_root (f : list attribute -> list attribute) (w : world)
  (root : node) :
  documentElementOf (page w) = Some root ->
  documentElementOf (page (modifyRoot f w))
  = Some (updateAttrs (nodeId root) f root).
Proof.
  intros H. unfold modifyRoot. rewrite H.
  unfold documentElementOf in *. simpl.
  rewrite find_isElement_map by (intros n; apply updateAttrs_shell).
  now rewrite H.
Qed.

Lemma modifyRoot_rootAttributes (f : list attribute -> list attribute)
  (w : world) :
  documentElementOf (page w) <> None ->
  rootAttributes (page (modifyRoot f w)) = f (rootAttributes (page w)).
Proof.
  intros H. destruct (documentElementOf (page w)) as [root |] eqn:E;
    [| now elim H].
  unfold rootAttributes. rewrite (modifyRoot_root f w root E), E.
  destruct (updateAttrs_shell (nodeId root) f root) as (_ & _ & _ & Ha).
  rewrite Ha, (documentElementOf_isElement _ _ E), Nat.eqb_refl. reflexivity.
Qed.

Lemma modifyRoot_hasRoot (f : list attribute -> list attribute) (w : world) :
  documentElementOf (page w) <> None ->
  documentElementOf (page (modifyRoot f w)) <> None.
Proof.
  intros H. destruct (documentElementOf (page w)) as [root |] eqn:E;
    [| now elim H].
  now rewrite (modifyRoot_root f w root E).
Qed.

Lemma modifyRoot_compose (f g : list attribute -> list attribute) (w : world) :
  modifyRoot g (modifyRoot f w) = modifyRoot (fun a => g (f a)) w.
Proof.
  destruct (documentElementOf (page w)) as [root |] eqn:E.
  - unfold modifyRoot at 1. rewrite (modifyRoot_root f w root E).
    destruct (updateAttrs_shell (nodeId root) f root) as (_ & -> & _).
    unfold modifyRoot. rewrite E. unfold withPage. simpl.
    rewrite !map_map. f_equal. f_equal; apply map_ext; intros n;
      apply updateAttrs_compose.
  - unfold modifyRoot. now rewrite E, E.
Qed.

Lemma hasClass_modifyRoot (f : list attribute -> list attribute) (w : world)
  (c : string) :
  documentElementOf (page w) <> None ->
  hasClass c (modifyRoot f w)
  = DOMTokenList.contains c (f (rootAttributes (page w))).
Proof.
  intros H. unfold hasClass. now rewrite modifyRoot_rootAttributes.
Qed.

Lemma contains_removeTokens (toks : list string) (c : string)
  (a : list attribute) :
  DOMTokenList.contains c (removeTokens toks a)
  = DOMTokenList.contains c a && negb (existsb (String.eqb c) toks).
Proof.
  unfold removeTokens. revert a.
  induction toks as [| t toks IH]; simpl; intros a.
  - now rewrite andb_true_r.
  - rewrite IH, contains_removeToken, negb_orb, andb_assoc. reflexivity.
Qed.

Lemma validToken_prefixed (p s : string) :
  Str.isEmpty p = false -> DOMTokenList.hasAsciiWhitespace p = false ->
  DOMTokenList.hasAsciiWhitespace s = false ->
  validToken (p ++ s) = true.
Proof.
  intros Hp Hw Hs. unfold validToken.
  now rewrite isEmpty_app, hasAsciiWhitespace_app, Hp, Hw, Hs.
Qed.

Lemma map_updateAttrs_id (r : nat) (l : list node) :
  map (updateAttrs r (fun a => a)) l = l.
Proof.
  rewrite <- (map_id l) at 2. apply map_ext. intros x. apply updateAttrs_id.
Qed.

(** ** The runs of the three setters *)

Lemma classListRemove_root (w : world) (tok : string) :
  documentElementOf (page w) <> None -> validToken tok = true ->
  bindJ documentElement (fun root =>
    bindJ (member root) (fun el => classListRemove el tok)) w
  = (Returned tt, modifyRoot (DOMTokenList.removeToken tok) w).
Proof.
  intros H Hv. destruct (documentElementOf (page w)) as [root |] eqn:E;
    [| now elim H].
  unfold validToken in Hv. apply andb_prop in Hv as [Hne Hws].
  apply negb_true_iff in Hne, Hws.
  unfold bindJ, documentElement, member, classListRemove, validateToken,
    modifyRoot, liftM, modifyAttrs.
  rewrite E. simpl. rewrite Hne, Hws. reflexivity.
Qed.

Lemma classListAdd_root (w : world) (tok : string) :
  documentElementOf (page w) <> None -> validToken tok = true ->
  bindJ documentElement (fun root =>
    bindJ (member root) (fun el => classListAdd el tok)) w
  = (Returned tt, modifyRoot (DOMTokenList.addToken tok) w).
Proof.
  intros H Hv. destruct (documentElementOf (page w)) as [root |] eqn:E;
    [| now elim H].
  unfold validToken in Hv. apply andb_prop in Hv as [Hne Hws].
  apply negb_true_iff in Hne, Hws.
  unfold bindJ, documentElement, member, classListAdd, validateToken,
    modifyRoot, liftM, modifyAttrs.
  rewrite E. simpl. rewrite Hne, Hws. reflexivity.
Qed.

Lemma classListAdd_root_invalid (w : world) (tok : string) :
  documentElementOf (page w) <> None ->
  Str.isEmpty tok = false -> DOMTokenList.hasAsciiWhitespace tok = true ->
  bindJ documentElement (fun root =>
    bindJ (member root) (fun el => classListAdd el tok)) w
  = (Thrown InvalidCharacterError, w).
Proof.
  intros H Hne Hws. destruct (documentElementOf (page w)) as [root |] eqn:E;
    [| now elim H].
  unfold bindJ, documentElement, member, classListAdd, validateToken.
  rewrite E. simpl. rewrite Hne, Hws. reflexivity.
Qed.

Lemma removeLoop_root (toks : list string) (w : world) :
  documentElementOf (page w) <> None -> forallb validToken toks = true ->
  forEachJ toks (fun tok =>
    bindJ documentElement (fun root =>
      bindJ (member root) (fun el => classListRemove el tok))) w
  = (Returned tt, modifyRoot (removeTokens toks) w).
Proof.
  revert w. induction toks as [| t toks IH]; intros w H Hv.
  - simpl. unfold retJ, removeTokens. simpl.
    unfold modifyRoot. destruct (documentElementOf (page w)); [| reflexivity].
    unfold withPage. destruct w as [[nx D T] m ev ld st sv]. simpl.
    now rewrite !map_updateAttrs_id.
  - apply andb_prop in Hv as [Ht Hts].
    cbn [forEachJ]. unfold bindJ at 1.
    rewrite (classListRemove_root w t H Ht).
    rewrite IH by (try apply modifyRoot_hasRoot; assumption).
    now rewrite modifyRoot_compose.
Qed.

Lemma removeLoop_noRoot (t : string) (toks : list string) (w : world) :
  documentElementOf (page w) = None ->
  forEachJ (t :: toks) (fun tok =>
    bindJ documentElement (fun root =>
      bindJ (member root) (fun el => classListRemove el tok))) w
  = (Thrown TypeError, w).
Proof.
  intros E. cbn [forEachJ]. unfold bindJ, documentElement, member.
  rewrite E. reflexivity.
Qed.

Lemma bindJ_returned {A B : Type} (m : J A) (k : A -> J B) (w w' : world)
  (a : A) :
  m w = (Returned a, w') -> bindJ m k w = k a w'.
Proof. intros H. unfold bindJ. now rewrite H. Qed.

Lemma bindJ_thrown {A B : Type} (m : J A) (k : A -> J B) (w w' : world)
  (e : exn) :
  m w = (Thrown e, w') -> bindJ m k w = (Thrown e, w').
Proof. intros H. unfold bindJ. now rewrite H. Qed.

Lemma applyTheme_run (w : world) (theme : string) :
  documentElementOf (page w) <> None ->
  DOMTokenList.hasAsciiWhitespace theme = false ->
  ReadingModeManager.applyTheme theme w
  = (Returned tt,
     addEvent (mkEvent "reading-assistant-theme-changed" (ThemeDetail theme))
              (modifyRoot (themeEdit theme) w)).
Proof.
  intros H Hws. unfold ReadingModeManager.applyTheme.
  rewrite (bindJ_returned _ _ _ _ _
             (removeLoop_root ReadingModeManager.themes w H eq_refl)).
  pose proof (modifyRoot_hasRoot (removeTokens ReadingModeManager.themes) w H)
    as H'.
  unfold themeEdit.
  destruct (negb (Str.isEmpty theme) && negb (theme =? "light")%string).
  - rewrite (bindJ_returned _ _ _ _ _
               (classListAdd_root _ ("reading-assistant-" ++ theme) H'
                  (validToken_prefixed "reading-assistant-" theme
                     eq_refl eq_refl Hws))).
    rewrite modifyRoot_compose. reflexivity.
  - reflexivity.
Qed.

Lemma bindJ_assoc {A B C : Type} (m : J A) (k : A -> J B) (k' : B -> J C)
  (w : world) :
  bindJ (bindJ m k) k' w = bindJ m (fun a => bindJ (k a) k') w.
Proof.
  unfold bindJ. destruct (m w) as [[a | e |] w1]; reflexivity.
Qed.

Lemma classListAdd_root_then {B : Type} (w : world) (tok : string)
  (k : J B) :
  documentElementOf (page w) <> None -> validToken tok = true ->
  bindJ documentElement (fun root =>
    bindJ (member root) (fun el =>
      bindJ (classListAdd el tok) (fun _ => k))) w
  = k (modifyRoot (DOMTokenList.addToken tok) w).
Proof.
  intros H Hv.
  rewrite <- (bindJ_returned _ (fun _ => k) _ _ _ (classListAdd_root w tok H Hv)).
  unfold bindJ. destruct (documentElement w) as [[root | e |] w1];
    try reflexivity.
  destruct (member root w1) as [[el | e |] w2]; reflexivity.
Qed.

Lemma setFontSize_run (w : world) (size : string) :
  documentElementOf (page w) <> None ->
  DOMTokenList.hasAsciiWhitespace size = false ->
  ReadingModeManager.setFontSize size w
  = (Returned tt,
     addEvent (mkEvent "reading-assistant-font-size-changed" (SizeDetail size))
              (modifyRoot (sizeEdit size) w)).
Proof.
  intros H Hws. unfold ReadingModeManager.setFontSize.
  rewrite (bindJ_returned _ _ _ _ _
             (removeLoop_root ReadingModeManager.sizes w H eq_refl)).
  rewrite classListAdd_root_then;
    [| now apply modifyRoot_hasRoot | now apply validToken_prefixed].
  rewrite modifyRoot_compose. reflexivity.
Qed.

Lemma setLineSpacing_run (w : world) (spacing : string) :
  documentElementOf (page w) <> None ->
  DOMTokenList.hasAsciiWhitespace spacing = false ->
  ReadingModeManager.setLineSpacing spacing w
  = (Returned tt,
     addEvent (mkEvent "reading-assistant-line-spacing-changed"
                       (SpacingDetail spacing))
              (modifyRoot (spacingEdit spacing) w)).
Proof.
  intros H Hws. unfold ReadingModeManager.setLineSpacing.
  rewrite (bindJ_returned _ _ _ _ _
             (removeLoop_root ReadingModeManager.spacings w H eq_refl)).
  rewrite classListAdd_root_then;
    [| now apply modifyRoot_hasRoot | now apply validToken_prefixed].
  rewrite modifyRoot_compose. reflexivity.
Qed.

(** ** What the setters do to the class list *)

Lemma modifyRoot_fields (f : list attribute -> list attribute) (w : world) :
  this (modifyRoot f w) = this w /\
  dispatched (modifyRoot f w) = dispatched w /\
  managerLoaded (modifyRoot f w) = managerLoaded w /\
  controllerSettings (modifyRoot f w) = controllerSettings w /\
  saved (modifyRoot f w) = saved w.
Proof.
  unfold modifyRoot. now destruct (documentElementOf (page w)).
Qed.

Lemma hasClass_addEvent (e : event) (w : world) (c : string) :
  hasClass c (addEvent e w) = hasClass c w.
Proof. reflexivity. Qed.

Lemma existsb_eqb_iff (c : string) (l : list string) :
  negb (existsb (String.eqb c) l) = true <-> ~ In c l.
Proof. rewrite negb_true_iff. apply existsb_eqb_false. Qed.

Lemma guard_iff (theme : string) :
  negb (Str.isEmpty theme) && negb (theme =? "light")%string = true <->
  theme <> "" /\ theme <> "light".
Proof.
  rewrite andb_true_iff, !negb_true_iff, String.eqb_neq. split.
  - intros [H1 H2]. split; [| exact H2]. intros ->. discriminate.
  - intros [H1 H2]. split; [| exact H2]. now destruct theme.
Qed.

Lemma themeEdit_contains (theme c : string) (a : list attribute) :
  DOMTokenList.hasAsciiWhitespace theme = false ->
  DOMTokenList.contains c (themeEdit theme a) = true <->
  (theme <> "" /\ theme <> "light" /\ c = ("reading-assistant-" ++ theme)%string)
  \/ (DOMTokenList.contains c a = true /\ ~ In c ReadingModeManager.themes).
Proof.
  intros Hws. unfold themeEdit.
  destruct (negb (Str.isEmpty theme) && negb (theme =? "light")%string) eqn:G.
  - apply guard_iff in G.
    rewrite contains_addToken
      by (now apply (validToken_prefixed "reading-assistant-" theme)).
    rewrite orb_true_iff, contains_removeTokens, andb_true_iff,
      existsb_eqb_iff, String.eqb_eq.
    split.
    + intros [H | ->]; [now right | left; now destruct G].
    + intros [(_ & _ & ->) | H]; [now right | now left].
  - rewrite contains_removeTokens, andb_true_iff, existsb_eqb_iff.
    split; [now right |].
    intros [(H1 & H2 & _) | H]; [| exact H].
    assert (G' : negb (Str.isEmpty theme) && negb (theme =? "light")%string
                 = true) by (now apply guard_iff).
    rewrite G in G'. discriminate.
Qed.

(** X10. On a page with a document element, [applyTheme] of a theme
    without white space returns, dispatches one event
    [reading-assistant-theme-changed] carrying the theme, and leaves the
    fields of the manager; afterwards the document element has the class
    [c] exactly when [c] is [reading-assistant-<theme>] and the theme is
    neither empty nor [light], or when it had [c] before and [c] is none
    of the three theme classes. *)
Theorem applyTheme_classes (w : world) (theme : string) :
  documentElementOf (page w) <> None ->
  DOMTokenList.hasAsciiWhitespace theme = false ->
  exists w',
    ReadingModeManager.applyTheme theme w = (Returned tt, w') /\
    dispatched w'
    = dispatched w
      ++ [mkEvent "reading-assistant-theme-changed" (ThemeDetail theme)] /\
    this w' = this w /\
    forall c, hasClass c w' = true <->
      (theme <> "" /\ theme <> "light" /\
       c = ("reading-assistant-" ++ theme)%string) \/
      (hasClass c w = true /\ ~ In c ReadingModeManager.themes).
Proof.
  intros H Hws. eexists. split; [now apply applyTheme_run |].
  destruct (modifyRoot_fields (themeEdit theme) w) as (Ht & Hd & _).
  split; [simpl; now rewrite Hd |].
  split; [exact Ht |].
  intros c. rewrite hasClass_addEvent, hasClass_modifyRoot by exact H.
  now apply themeEdit_contains.
Qed.

Lemma startWorld_hasRoot : documentElementOf (page startWorld) <> None.
Proof. discriminate. Qed.

Lemma applyTheme_classes_witness :
  exists w',
    ReadingModeManager.applyTheme "dark" startWorld = (Returned tt, w') /\
    hasClass "reading-assistant-dark" w' = true.
Proof.
  destruct (applyTheme_classes startWorld "dark" startWorld_hasRoot eq_refl)
    as (w' & Hrun & _ & _ & Hc).
  exists w'. split; [exact Hrun |].
  apply Hc. left. repeat split; discriminate.
Defined.

Lemma string_app_inv_head (p a b : string) :
  (p ++ a)%string = (p ++ b)%string -> a = b.
Proof.
  induction p as [| c p IH]; simpl; intros H; [exact H |].
  injection H as H. now apply IH.
Qed.

Lemma hasWhitespace_guard (theme : string) :
  DOMTokenList.hasAsciiWhitespace theme = true ->
  negb (Str.isEmpty theme) && negb (theme =? "light")%string = true.
Proof.
  intros H. apply guard_iff. split; intros ->; discriminate.
Qed.

Lemma classListAdd_root_invalid_then {B : Type} (w : world) (tok : string)
  (k : J B) :
  documentElementOf (page w) <> None ->
  Str.isEmpty tok = false -> DOMTokenList.hasAsciiWhitespace tok = true ->
  bindJ documentElement (fun root =>
    bindJ (member root) (fun el =>
      bindJ (classListAdd el tok) (fun _ => k))) w
  = (Thrown InvalidCharacterError, w).
Proof.
  intros H Hne Hws.
  rewrite <- (bindJ_thrown _ (fun _ => k) _ _ _
                (classListAdd_root_invalid w tok H Hne Hws)).
  unfold bindJ. destruct (documentElement w) as [[root | e |] w1];
    try reflexivity.
  destruct (member root w1) as [[el | e |] w2]; reflexivity.
Qed.

Lemma applyTheme_invalid_run (w : world) (theme : string) :
  documentElementOf (page w) <> None ->
  DOMTokenList.hasAsciiWhitespace theme = true ->
  ReadingModeManager.applyTheme theme w
  = (Thrown InvalidCharacterError,
     modifyRoot (removeTokens ReadingModeManager.themes) w).
Proof.
  intros H Hws. unfold ReadingModeManager.applyTheme.
  rewrite (bindJ_returned _ _ _ _ _
             (removeLoop_root ReadingModeManager.themes w H eq_refl)).
  rewrite (hasWhitespace_guard theme Hws).
  apply bindJ_thrown. apply classListAdd_root_invalid.
  - now apply modifyRoot_hasRoot.
  - reflexivity.
  - rewrite hasAsciiWhitespace_app, Hws. apply orb_true_r.
Qed.

Lemma setFontSize_invalid_run (w : world) (size : string) :
  documentElementOf (page w) <> None ->
  DOMTokenList.hasAsciiWhitespace size = true ->
  ReadingModeManager.setFontSize size w
  = (Thrown InvalidCharacterError,
     modifyRoot (removeTokens ReadingModeManager.sizes) w).
Proof.
  intros H Hws. unfold ReadingModeManager.setFontSize.
  rewrite (bindJ_returned _ _ _ _ _
             (removeLoop_root ReadingModeManager.sizes w H eq_refl)).
  apply classListAdd_root_invalid_then.
  - now apply modifyRoot_hasRoot.
  - reflexivity.
  - rewrite hasAsciiWhitespace_app, Hws. apply orb_true_r.
Qed.

Lemma setLineSpacing_invalid_run (w : world) (spacing : string) :
  documentElementOf (page w) <> None ->
  DOMTokenList.hasAsciiWhitespace spacing = true ->
  ReadingModeManager.setLineSpacing spacing w
  = (Thrown InvalidCharacterError,
     modifyRoot (removeTokens ReadingModeManager.spacings) w).
Proof.
  intros H Hws. unfold ReadingModeManager.setLineSpacing.
  rewrite (bindJ_returned _ _ _ _ _
             (removeLoop_root ReadingModeManager.spacings w H eq_refl)).
  apply classListAdd_root_invalid_then.
  - now apply modifyRoot_hasRoot.
  - reflexivity.
  - rewrite hasAsciiWhitespace_app, Hws. apply orb_true_r.
Qed.

Lemma setters_noRoot (w : world) (x : string) :
  documentElementOf (page w) = None ->
  ReadingModeManager.applyTheme x w = (Thrown TypeError, w) /\
  ReadingModeManager.setFontSize x w = (Thrown TypeError, w) /\
  ReadingModeManager.setLineSpacing x w = (Thrown TypeError, w).
Proof.
  intros E. repeat split; apply bindJ_thrown, removeLoop_noRoot, E.
Qed.

(** X11. A theme class that [applyTheme] does not know is never taken
    away again: after [applyTheme] of a theme other than [light], [dark]
    and [sepia], every later [applyTheme] leaves its class on the document
    element, beside the class of the later theme. *)
Theorem applyTheme_unknown_theme_stays (w : world) (t1 t2 : string) :
  documentElementOf (page w) <> None ->
  DOMTokenList.hasAsciiWhitespace t1 = false ->
  DOMTokenList.hasAsciiWhitespace t2 = false ->
  t1 <> "" -> ~ In t1 ["light"; "dark"; "sepia"] ->
  exists w1 w2,
    ReadingModeManager.applyTheme t1 w = (Returned tt, w1) /\
    ReadingModeManager.applyTheme t2 w1 = (Returned tt, w2) /\
    hasClass ("reading-assistant-" ++ t1) w2 = true /\
    (t2 <> "" -> t2 <> "light" ->
     hasClass ("reading-assistant-" ++ t2) w2 = true).
Proof.
  intros H Hw1 Hw2 Hne Hnew.
  assert (H1 : documentElementOf
                 (page (addEvent
                          (mkEvent "reading-assistant-theme-changed"
                                   (ThemeDetail t1))
                          (modifyRoot (themeEdit t1) w))) <> None)
    by (now apply modifyRoot_hasRoot).
  eexists. eexists.
  split; [now apply applyTheme_run |].
  split; [now apply applyTheme_run |].
  rewrite !hasClass_addEvent, !hasClass_modifyRoot by assumption.
  split.
  - apply themeEdit_contains; [exact Hw2 |]. right. split.
    + change (hasClass ("reading-assistant-" ++ t1)
                (addEvent (mkEvent "reading-assistant-theme-changed"
                                   (ThemeDetail t1))
                          (modifyRoot (themeEdit t1) w)) = true).
      rewrite hasClass_addEvent, hasClass_modifyRoot by assumption.
      apply themeEdit_contains; [exact Hw1 |]. left.
      repeat split; [exact Hne |]. intros ->. apply Hnew. now left.
    + intros Hin. apply Hnew. simpl in Hin.
      destruct Hin as [E | [E | [E | []]]];
        apply (string_app_inv_head "reading-assistant-") in E; subst t1;
        simpl; auto.
  - intros Hne2 Hl2. apply themeEdit_contains; [exact Hw2 |]. left.
    now repeat split.
Qed.

Lemma applyTheme_unknown_theme_stays_witness :
  exists w1 w2,
    ReadingModeManager.applyTheme "blue" startWorld = (Returned tt, w1) /\
    ReadingModeManager.applyTheme "dark" w1 = (Returned tt, w2) /\
    hasClass "reading-assistant-blue" w2 = true /\
    hasClass "reading-assistant-dark" w2 = true.
Proof.
  destruct (applyTheme_unknown_theme_stays startWorld "blue" "dark"
              startWorld_hasRoot eq_refl eq_refl)
    as (w1 & w2 & R1 & R2 & C1 & C2).
  - discriminate.
  - simpl. intros [E | [E | [E | []]]]; discriminate.
  - exists w1, w2. split; [exact R1 |]. split; [exact R2 |].
    split; [exact C1 |]. apply C2; discriminate.
Defined.

(** X12. [applyTheme] throws in two cases, and dispatches no event then.
    Without a document element it throws a [TypeError] and changes
    nothing.  For a theme that holds white space it throws the
    [InvalidCharacterError] of [classList.add], after the three theme
    classes have been taken away: the page is left without a theme
    class. *)
Theorem applyTheme_throws (w : world) (theme : string) :
  (documentElementOf (page w) = None ->
   ReadingModeManager.applyTheme theme w = (Thrown TypeError, w)) /\
  (documentElementOf (page w) <> None ->
   DOMTokenList.hasAsciiWhitespace theme = true ->
   exists w',
     ReadingModeManager.applyTheme theme w
     = (Thrown InvalidCharacterError, w') /\
     dispatched w' = dispatched w /\
     forall c, In c ReadingModeManager.themes -> hasClass c w' = false).
Proof.
  split.
  - intros E. now apply setters_noRoot.
  - intros H Hws. eexists.
    split; [now apply applyTheme_invalid_run |].
    split; [apply modifyRoot_fields |].
    intros c Hc. rewrite hasClass_modifyRoot by exact H.
    rewrite contains_removeTokens.
    apply existsb_eqb_In in Hc. rewrite Hc. apply andb_false_r.
Qed.

Lemma applyTheme_throws_witness :
  exists w',
    ReadingModeManager.applyTheme "high contrast" startWorld
    = (Thrown InvalidCharacterError, w') /\
    dispatched w' = dispatched startWorld /\
    forall c, In c ReadingModeManager.themes -> hasClass c w' = false.
Proof.
  exact (proj2 (applyTheme_throws startWorld "high contrast")
               startWorld_hasRoot eq_refl).
Defined.

Lemma sizeEdit_contains (size c : string) (a : list attribute) :
  DOMTokenList.hasAsciiWhitespace size = false ->
  DOMTokenList.contains c (sizeEdit size a) = true <->
  c = ("reading-assistant-font-" ++ size)%string
  \/ (DOMTokenList.contains c a = true /\ ~ In c ReadingModeManager.sizes).
Proof.
  intros Hws. unfold sizeEdit.
  rewrite contains_addToken
    by (now apply (validToken_prefixed "reading-assistant-font-" size)).
  rewrite orb_true_iff, contains_removeTokens, andb_true_iff,
    existsb_eqb_iff, String.eqb_eq.
  split; (intros [H | H]; [now right | now left]).
Qed.

Lemma spacingEdit_contains (spacing c : string) (a : list attribute) :
  DOMTokenList.hasAsciiWhitespace spacing = false ->
  DOMTokenList.contains c (spacingEdit spacing a) = true <->
  c = ("reading-assistant-line-" ++ spacing)%string
  \/ (DOMTokenList.contains c a = true /\ ~ In c ReadingModeManager.spacings).
Proof.
  intros Hws. unfold spacingEdit.
  rewrite contains_addToken
    by (now apply (validToken_prefixed "reading-assistant-line-" spacing)).
  rewrite orb_true_iff, contains_removeTokens, andb_true_iff,
    existsb_eqb_iff, String.eqb_eq.
  split; (intros [H | H]; [now right | now left]).
Qed.

(** X13. On a page with a document element, [setFontSize] and
    [setLineSpacing] of a string without white space return and dispatch
    their event; afterwards the document element has the class [c]
    exactly when [c] is the class of the argument
    ([reading-assistant-font-<size>], [reading-assistant-line-<spacing>]),
    whatever the argument is, or when it had [c] before and [c] is none of
    the known size (spacing) classes. *)
Theorem setFontSize_setLineSpacing_classes (w : world) (x : string) :
  documentElementOf (page w) <> None ->
  DOMTokenList.hasAsciiWhitespace x = false ->
  (exists w',
     ReadingModeManager.setFontSize x w = (Returned tt, w') /\
     dispatched w'
     = dispatched w
       ++ [mkEvent "reading-assistant-font-size-changed" (SizeDetail x)] /\
     forall c, hasClass c w' = true <->
       c = ("reading-assistant-font-" ++ x)%string \/
       (hasClass c w = true /\ ~ In c ReadingModeManager.sizes)) /\
  (exists w',
     ReadingModeManager.setLineSpacing x w = (Returned tt, w') /\
     dispatched w'
     = dispatched w
       ++ [mkEvent "reading-assistant-line-spacing-changed"
                   (SpacingDetail x)] /\
     forall c, hasClass c w' = true <->
       c = ("reading-assistant-line-" ++ x)%string \/
       (hasClass c w = true /\ ~ In c ReadingModeManager.spacings)).
Proof.
  intros H Hws. split.
  - eexists. split; [now apply setFontSize_run |].
    destruct (modifyRoot_fields (sizeEdit x) w) as (_ & Hd & _).
    split; [simpl; now rewrite Hd |].
    intros c. rewrite hasClass_addEvent, hasClass_modifyRoot by exact H.
    now apply sizeEdit_contains.
  - eexists. split; [now apply setLineSpacing_run |].
    destruct (modifyRoot_fields (spacingEdit x) w) as (_ & Hd & _).
    split; [simpl; now rewrite Hd |].
    intros c. rewrite hasClass_addEvent, hasClass_modifyRoot by exact H.
    now apply spacingEdit_contains.
Qed.

Lemma setFontSize_setLineSpacing_classes_witness :
  (exists w',
     ReadingModeManager.setFontSize "huge" startWorld = (Returned tt, w') /\
     hasClass "reading-assistant-font-huge" w' = true) /\
  (exists w',
     ReadingModeManager.setLineSpacing "loose" startWorld = (Returned tt, w') /\
     hasClass "reading-assistant-line-loose" w' = true).
Proof.
  destruct (setFontSize_setLineSpacing_classes startWorld "huge"
              startWorld_hasRoot eq_refl)
    as [(w1 & R1 & _ & C1) _].
  destruct (setFontSize_setLineSpacing_classes startWorld "loose"
              startWorld_hasRoot eq_refl)
    as [_ (w2 & R2 & _ & C2)].
  split.
  - exists w1. split; [exact R1 | apply C1; now left].
  - exists w2. split; [exact R2 | apply C2; now left].
Defined.

(** ** The setters touch class attributes only *)

Lemma removeAttr_setAttr_same (k v : string) (a : list attribute) :
  removeAttr k (setAttr k v a) = removeAttr k a.
Proof.
  unfold removeAttr. induction a as [| [k0 v0] a IH]; simpl.
  - now rewrite String.eqb_refl.
  - destruct (k0 =? k)%string eqn:E; simpl; rewrite E; simpl;
      [reflexivity | now rewrite IH].
Qed.

Lemma classOnly_update (ts : list attribute -> list string) :
  classOnly (fun a => DOMTokenList.update (ts a) a).
Proof.
  intros a. unfold DOMTokenList.update.
  destruct (getAttribute "class" a); [| destruct (ts a); [reflexivity |]];
    apply removeAttr_setAttr_same.
Qed.

Lemma classOnly_removeToken (t : string) :
  classOnly (DOMTokenList.removeToken t).
Proof.
  exact (classOnly_update
           (fun a => filter (fun x => negb (x =? t)%string)
                            (DOMTokenList.tokenSet a))).
Qed.

Lemma classOnly_addToken (t : string) : classOnly (DOMTokenList.addToken t).
Proof.
  exact (classOnly_update
           (fun a => DOMTokenList.appendToken (DOMTokenList.tokenSet a) t)).
Qed.

Lemma classOnly_removeTokens (toks : list string) :
  classOnly (removeTokens toks).
Proof.
  unfold removeTokens. induction toks as [| t toks IH]; intros a;
    [reflexivity |].
  simpl. now rewrite IH, classOnly_removeToken.
Qed.

Lemma classOnly_themeEdit (theme : string) : classOnly (themeEdit theme).
Proof.
  intros a. unfold themeEdit.
  destruct (negb (Str.isEmpty theme) && negb (theme =? "light")%string).
  - now rewrite classOnly_addToken, classOnly_removeTokens.
  - apply classOnly_removeTokens.
Qed.

Lemma classOnly_sizeEdit (size : string) : classOnly (sizeEdit size).
Proof.
  intros a. unfold sizeEdit.
  now rewrite classOnly_addToken, classOnly_removeTokens.
Qed.

Lemma classOnly_spacingEdit (spacing : string) :
  classOnly (spacingEdit spacing).
Proof.
  intros a. unfold spacingEdit.
  now rewrite classOnly_addToken, classOnly_removeTokens.
Qed.

Lemma changesClassesOnly_cases (run : J unit)
  (F1 F2 : list attribute -> list attribute) (x : string) (e1 e2 : event) :
  classOnly F1 -> classOnly F2 ->
  (forall w, documentElementOf (page w) = None ->
             run w = (Thrown TypeError, w)) ->
  (forall w, documentElementOf (page w) <> None ->
             DOMTokenList.hasAsciiWhitespace x = false ->
             run w = (Returned tt, addEvent e1 (modifyRoot F1 w))) ->
  (forall w, documentElementOf (page w) <> None ->
             DOMTokenList.hasAsciiWhitespace x = true ->
             run w = (Thrown InvalidCharacterError, modifyRoot F2 w)) ->
  changesClassesOnly run.
Proof.
  intros C1 C2 Hnone Hok Hbad w.
  destruct (documentElementOf (page w)) as [root |] eqn:E.
  - assert (H : documentElementOf (page w) <> None) by (now rewrite E).
    destruct (DOMTokenList.hasAsciiWhitespace x) eqn:Hws.
    + exists F2. rewrite (Hbad w H eq_refl). simpl.
      split; [exact C2 |]. split; [reflexivity | apply modifyRoot_fields].
    + exists F1. rewrite (Hok w H eq_refl). simpl.
      split; [exact C1 |]. split; [reflexivity | apply modifyRoot_fields].
  - exists (fun a => a). rewrite (Hnone w E). simpl.
    split; [now intros a |]. unfold modifyRoot. now rewrite E.
Qed.

(** X14. However they end, [applyTheme], [setFontSize] and
    [setLineSpacing] change nothing in the page but the [class] attribute
    of the document element, and none of the fields of the manager: they
    return, or throw without a document element, or throw on an argument
    with white space, and in each case the page differs from the one
    before by a rewriting of the attributes of the document element that
    keeps every attribute other than [class]. *)
Theorem setters_change_classes_only (x : string) :
  changesClassesOnly (ReadingModeManager.applyTheme x) /\
  changesClassesOnly (ReadingModeManager.setFontSize x) /\
  changesClassesOnly (ReadingModeManager.setLineSpacing x).
Proof.
  split; [| split].
  - apply (changesClassesOnly_cases _ (themeEdit x)
             (removeTokens ReadingModeManager.themes) x
             (mkEvent "reading-assistant-theme-changed" (ThemeDetail x))
             (mkEvent "" NoDetail)).
    + apply classOnly_themeEdit.
    + apply classOnly_removeTokens.
    + intros w E. now apply setters_noRoot.
    + intros w H Hws. now apply applyTheme_run.
    + intros w H Hws. now apply applyTheme_invalid_run.
  - apply (changesClassesOnly_cases _ (sizeEdit x)
             (removeTokens ReadingModeManager.sizes) x
             (mkEvent "reading-assistant-font-size-changed" (SizeDetail x))
             (mkEvent "" NoDetail)).
    + apply classOnly_sizeEdit.
    + apply classOnly_removeTokens.
    + intros w E. now apply setters_noRoot.
    + intros w H Hws. now apply setFontSize_run.
    + intros w H Hws. now apply setFontSize_invalid_run.
  - apply (changesClassesOnly_cases _ (spacingEdit x)
             (removeTokens ReadingModeManager.spacings) x
             (mkEvent "reading-assistant-line-spacing-changed"
                      (SpacingDetail x))
             (mkEvent "" NoDetail)).
    + apply classOnly_spacingEdit.
    + apply classOnly_removeTokens.
    + intros w E. now apply setters_noRoot.
    + intros w H Hws. now apply setLineSpacing_run.
    + intros w H Hws. now apply setLineSpacing_invalid_run.
Qed.

(* ================================================================== *)
(** * The controller of the content script *)

Lemma next_themes (t : string) :
  ReadingAssistantController.next ["light"; "dark"; "sepia"] t
  = if ("light" =? t)%string then "dark"
    else if ("dark" =? t)%string then "sepia" else "light".
Proof.
  unfold ReadingAssistantController.next.
  cbn [ReadingAssistantController.indexOf].
  destruct ("light" =? t)%string; [reflexivity |].
  destruct ("dark" =? t)%string; [reflexivity |].
  destruct ("sepia" =? t)%string; reflexivity.
Qed.

Lemma next_sizes (t : string) :
  ReadingAssistantController.next ["small"; "medium"; "large"; "xlarge"] t
  = if ("small" =? t)%string then "medium"
    else if ("medium" =? t)%string then "large"
    else if ("large" =? t)%string then "xlarge" else "small".
Proof.
  unfold ReadingAssistantController.next.
  cbn [ReadingAssistantController.indexOf].
  destruct ("small" =? t)%string; [reflexivity |].
  destruct ("medium" =? t)%string; [reflexivity |].
  destruct ("large" =? t)%string; [reflexivity |].
  destruct ("xlarge" =? t)%string; reflexivity.
Qed.

Lemma next_spacings (t : string) :
  ReadingAssistantController.next ["compact"; "normal"; "loose"] t
  = if ("compact" =? t)%string then "normal"
    else if ("normal" =? t)%string then "loose" else "compact".
Proof.
  unfold ReadingAssistantController.next.
  cbn [ReadingAssistantController.indexOf].
  destruct ("compact" =? t)%string; [reflexivity |].
  destruct ("normal" =? t)%string; [reflexivity |].
  destruct ("loose" =? t)%string; reflexivity.
Qed.

Lemma next_themes_plain (t : string) :
  DOMTokenList.hasAsciiWhitespace
    (ReadingAssistantController.next ["light"; "dark"; "sepia"] t) = false.
Proof.
  rewrite next_themes.
  destruct ("light" =? t)%string; [reflexivity |].
  destruct ("dark" =? t)%string; reflexivity.
Qed.

Lemma next_sizes_plain (t : string) :
  DOMTokenList.hasAsciiWhitespace
    (ReadingAssistantController.next ["small"; "medium"; "large"; "xlarge"] t)
  = false.
Proof.
  rewrite next_sizes.
  destruct ("small" =? t)%string; [reflexivity |].
  destruct ("medium" =? t)%string; [reflexivity |].
  destruct ("large" =? t)%string; reflexivity.
Qed.

Lemma next_spacings_plain (t : string) :
  DOMTokenList.hasAsciiWhitespace
    (ReadingAssistantController.next ["compact"; "normal"; "loose"] t) = false.
Proof.
  rewrite next_spacings.
  destruct ("compact" =? t)%string; [reflexivity |].
  destruct ("normal" =? t)%string; reflexivity.
Qed.

(** The world after [saveSettings]. *)
Lemma saveSettings_run (w : world) :
  ReadingAssistantController.saveSettings w
  = (Returned tt,
     mkWorld (page w) (this w) (dispatched w) (managerLoaded w)
             (controllerSettings w) (saved w ++ [controllerSettings w])).
Proof. reflexivity. Qed.

Lemma modifyRoot_page (f : list attribute -> list attribute) (w1 w2 : world) :
  page w1 = page w2 -> page (modifyRoot f w1) = page (modifyRoot f w2).
Proof.
  intros E. unfold modifyRoot. rewrite E.
  now destruct (documentElementOf (page w2)).
Qed.

Lemma setTheme_run (w : world) (t : string) :
  documentElementOf (page w) <> None -> managerLoaded w = true ->
  DOMTokenList.hasAsciiWhitespace t = false ->
  exists w',
    ReadingAssistantController.setTheme t w = (Returned tt, w') /\
    page w' = page (modifyRoot (themeEdit t) w) /\
    this w' = this w /\
    dispatched w'
    = dispatched w
      ++ [mkEvent "reading-assistant-theme-changed" (ThemeDetail t)] /\
    managerLoaded w' = true /\
    controllerSettings w'
    = mkSettings t (fontSize (controllerSettings w))
                 (lineSpacing (controllerSettings w)) /\
    saved w' = saved w ++ [controllerSettings w'].
Proof.
  intros H Hl Hws. unfold ReadingAssistantController.setTheme.
  unfold bindJ at 1.
  unfold ReadingAssistantController.getSettings at 1.
  unfold bindJ at 1.
  unfold ReadingAssistantController.putSettings at 1.
  unfold bindJ at 1.
  unfold ReadingAssistantController.windowReadingModeManager at 1.
  cbn [managerLoaded withSettings]. rewrite Hl.
  set (w0 := withSettings _ w).
  assert (H0 : documentElementOf (page w0) <> None) by exact H.
  rewrite (bindJ_returned _ _ _ _ _ (applyTheme_run w0 t H0 Hws)).
  rewrite saveSettings_run. eexists. split; [reflexivity |].
  destruct (modifyRoot_fields (themeEdit t) w0) as (Ht & Hd & Hm & Hs & Hv).
  cbn [page this dispatched managerLoaded controllerSettings saved addEvent].
  rewrite Ht, Hd, Hm, Hs, Hv.
  split; [now apply modifyRoot_page |].
  repeat split; try reflexivity. exact Hl.
Qed.

Lemma setFontSize_controller_run (w : world) (t : string) :
  documentElementOf (page w) <> None -> managerLoaded w = true ->
  DOMTokenList.hasAsciiWhitespace t = false ->
  exists w',
    ReadingAssistantController.setFontSize t w = (Returned tt, w') /\
    page w' = page (modifyRoot (sizeEdit t) w) /\
    this w' = this w /\
    dispatched w'
    = dispatched w
      ++ [mkEvent "reading-assistant-font-size-changed" (SizeDetail t)] /\
    managerLoaded w' = true /\
    controllerSettings w'
    = mkSettings (theme (controllerSettings w)) t
                 (lineSpacing (controllerSettings w)) /\
    saved w' = saved w ++ [controllerSettings w'].
Proof.
  intros H Hl Hws. unfold ReadingAssistantController.setFontSize.
  unfold bindJ at 1.
  unfold ReadingAssistantController.getSettings at 1.
  unfold bindJ at 1.
  unfold ReadingAssistantController.putSettings at 1.
  unfold bindJ at 1.
  unfold ReadingAssistantController.windowReadingModeManager at 1.
  cbn [managerLoaded withSettings]. rewrite Hl.
  set (w0 := withSettings _ w).
  assert (H0 : documentElementOf (page w0) <> None) by exact H.
  rewrite (bindJ_returned _ _ _ _ _ (setFontSize_run w0 t H0 Hws)).
  rewrite saveSettings_run. eexists. split; [reflexivity |].
  destruct (modifyRoot_fields (sizeEdit t) w0) as (Ht & Hd & Hm & Hs & Hv).
  cbn [page this dispatched managerLoaded controllerSettings saved addEvent].
  rewrite Ht, Hd, Hm, Hs, Hv.
  split; [now apply modifyRoot_page |].
  repeat split; try reflexivity. exact Hl.
Qed.

Lemma setLineSpacing_controller_run (w : world) (t : string) :
  documentElementOf (page w) <> None -> managerLoaded w = true ->
  DOMTokenList.hasAsciiWhitespace t = false ->
  exists w',
    ReadingAssistantController.setLineSpacing t w = (Returned tt, w') /\
    page w' = page (modifyRoot (spacingEdit t) w) /\
    this w' = this w /\
    dispatched w'
    = dispatched w
      ++ [mkEvent "reading-assistant-line-spacing-changed" (SpacingDetail t)] /\
    managerLoaded w' = true /\
    controllerSettings w'
    = mkSettings (theme (controllerSettings w))
                 (fontSize (controllerSettings w)) t /\
    saved w' = saved w ++ [controllerSettings w'].
Proof.
  intros H Hl Hws. unfold ReadingAssistantController.setLineSpacing.
  unfold bindJ at 1.
  unfold ReadingAssistantController.getSettings at 1.
  unfold bindJ at 1.
  unfold ReadingAssistantController.putSettings at 1.
  unfold bindJ at 1.
  unfold ReadingAssistantController.windowReadingModeManager at 1.
  cbn [managerLoaded withSettings]. rewrite Hl.
  set (w0 := withSettings _ w).
  assert (H0 : documentElementOf (page w0) <> None) by exact H.
  rewrite (bindJ_returned _ _ _ _ _ (setLineSpacing_run w0 t H0 Hws)).
  rewrite saveSettings_run. eexists. split; [reflexivity |].
  destruct (modifyRoot_fields (spacingEdit t) w0) as (Ht & Hd & Hm & Hs & Hv).
  cbn [page this dispatched managerLoaded controllerSettings saved addEvent].
  rewrite Ht, Hd, Hm, Hs, Hv.
  split; [now apply modifyRoot_page |].
  repeat split; try reflexivity. exact Hl.
Qed.

Lemma hasClass_page (c : string) (w1 w2 : world) :
  page w1 = page w2 -> hasClass c w1 = hasClass c w2.
Proof. intros E. unfold hasClass. now rewrite E. Qed.

Lemma contains_bool (c : string) (a : list attribute) (b : bool) :
  (DOMTokenList.contains c a = true <-> b = true) ->
  DOMTokenList.contains c a = b.
Proof. intros H. apply eq_true_iff_eq. exact H. Qed.

(** X15. On a page with a document element and the manager loaded,
    [cycleTheme] returns; the theme of the settings becomes the next of
    [light], [dark], [sepia] in a circle, and [light] from any other
    value; the other settings stay; the new settings are handed to the
    storage; and the theme classes of the document element are those of
    the new theme: [reading-assistant-dark] exactly for [dark],
    [reading-assistant-sepia] exactly for [sepia], and never
    [reading-assistant-light]. *)
Theorem cycleTheme_classes (w : world) :
  documentElementOf (page w) <> None -> managerLoaded w = true ->
  exists w',
    ReadingAssistantController.cycleTheme w = (Returned tt, w') /\
    theme (controllerSettings w')
    = (if ("light" =? theme (controllerSettings w))%string then "dark"
       else if ("dark" =? theme (controllerSettings w))%string then "sepia"
       else "light") /\
    fontSize (controllerSettings w') = fontSize (controllerSettings w) /\
    lineSpacing (controllerSettings w') = lineSpacing (controllerSettings w) /\
    saved w' = saved w ++ [controllerSettings w'] /\
    hasClass "reading-assistant-dark" w'
    = (theme (controllerSettings w') =? "dark")%string /\
    hasClass "reading-assistant-sepia" w'
    = (theme (controllerSettings w') =? "sepia")%string /\
    hasClass "reading-assistant-light" w' = false.
Proof.
  intros H Hl.
  set (t := ReadingAssistantController.next ["light"; "dark"; "sepia"]
              (theme (controllerSettings w))).
  destruct (setTheme_run w t H Hl (next_themes_plain _))
    as (w' & Hrun & Hp & _ & _ & _ & Hs & Hv).
  exists w'. split; [exact Hrun |].
  rewrite Hs. cbn [theme fontSize lineSpacing].
  split; [apply next_themes |]. split; [reflexivity |].
  split; [reflexivity |]. split; [now rewrite Hv, Hs |].
  rewrite !(hasClass_page _ _ _ Hp), !hasClass_modifyRoot by exact H.
  assert (Hc : forall c, DOMTokenList.contains c
                 (themeEdit t (rootAttributes (page w))) = true <->
               (t <> "" /\ t <> "light" /\ c = ("reading-assistant-" ++ t)%string)
               \/ (DOMTokenList.contains c (rootAttributes (page w)) = true /\
                   ~ In c ReadingModeManager.themes))
    by (intros c; apply themeEdit_contains, next_themes_plain).
  assert (Ht : t = "light" \/ t = "dark" \/ t = "sepia").
  { unfold t. rewrite next_themes.
    destruct ("light" =? theme (controllerSettings w))%string; [now auto |].
    destruct ("dark" =? theme (controllerSettings w))%string; now auto. }
  repeat split; apply contains_bool; rewrite Hc;
    (split;
     [ intros [(_ & Hnl & E) | [_ Hn]];
       [ apply (string_app_inv_head "reading-assistant-") in E;
         try (rewrite <- E; reflexivity); now elim Hnl
       | elim Hn; simpl; now auto ]
     | intros E; try discriminate E; apply String.eqb_eq in E; left;
       rewrite E; repeat split; discriminate ]).
Qed.

Lemma cycleTheme_classes_witness :
  exists w',
    ReadingAssistantController.cycleTheme startWorld = (Returned tt, w') /\
    theme (controllerSettings w') = "dark" /\
    hasClass "reading-assistant-dark" w' = true.
Proof.
  destruct (cycleTheme_classes startWorld startWorld_hasRoot eq_refl)
    as (w' & Hrun & Ht & _ & _ & _ & Hd & _).
  exists w'. split; [exact Hrun |]. split; [exact Ht |].
  rewrite Hd, Ht. reflexivity.
Defined.

(** X16. On a page with a document element and the manager loaded,
    [cycleFontSize] and [cycleLineSpacing] return; the setting becomes the
    next of [small], [medium], [large], [xlarge] (of [compact], [normal],
    [loose]) in a circle, and the first of them from any other value; the
    other settings stay; the new settings are handed to the storage; and
    of the known size (spacing) classes the document element has exactly
    the one of the new setting. *)
Theorem cycleFontSize_cycleLineSpacing_classes (w : world) :
  documentElementOf (page w) <> None -> managerLoaded w = true ->
  (exists w',
     ReadingAssistantController.cycleFontSize w = (Returned tt, w') /\
     fontSize (controllerSettings w')
     = (if ("small" =? fontSize (controllerSettings w))%string then "medium"
        else if ("medium" =? fontSize (controllerSettings w))%string
             then "large"
        else if ("large" =? fontSize (controllerSettings w))%string
             then "xlarge"
        else "small") /\
     theme (controllerSettings w') = theme (controllerSettings w) /\
     lineSpacing (controllerSettings w') = lineSpacing (controllerSettings w) /\
     saved w' = saved w ++ [controllerSettings w'] /\
     forall c, In c ReadingModeManager.sizes ->
       hasClass c w'
       = (c =? "reading-assistant-font-" ++ fontSize (controllerSettings w'))%string)
  /\
  (exists w',
     ReadingAssistantController.cycleLineSpacing w = (Returned tt, w') /\
     lineSpacing (controllerSettings w')
     = (if ("compact" =? lineSpacing (controllerSettings w))%string
        then "normal"
        else if ("normal" =? lineSpacing (controllerSettings w))%string
             then "loose"
        else "compact") /\
     theme (controllerSettings w') = theme (controllerSettings w) /\
     fontSize (controllerSettings w') = fontSize (controllerSettings w) /\
     saved w' = saved w ++ [controllerSettings w'] /\
     forall c, In c ReadingModeManager.spacings ->
       hasClass c w'
       = (c =? "reading-assistant-line-"
               ++ lineSpacing (controllerSettings w'))%string).
Proof.
  intros H Hl. split.
  - set (t := ReadingAssistantController.next
                ["small"; "medium"; "large"; "xlarge"]
                (fontSize (controllerSettings w))).
    destruct (setFontSize_controller_run w t H Hl (next_sizes_plain _))
      as (w' & Hrun & Hp & _ & _ & _ & Hs & Hv).
    exists w'. split; [exact Hrun |].
    rewrite Hs. cbn [theme fontSize lineSpacing].
    split; [apply next_sizes |]. split; [reflexivity |].
    split; [reflexivity |]. split; [now rewrite Hv, Hs |].
    intros c Hc.
    rewrite (hasClass_page _ _ _ Hp), hasClass_modifyRoot by exact H.
    apply contains_bool.
    rewrite (sizeEdit_contains t c _ (next_sizes_plain _)), String.eqb_eq.
    split; [intros [E | [_ Hn]]; [exact E | now elim Hn] | now left].
  - set (t := ReadingAssistantController.next
                ["compact"; "normal"; "loose"]
                (lineSpacing (controllerSettings w))).
    destruct (setLineSpacing_controller_run w t H Hl (next_spacings_plain _))
      as (w' & Hrun & Hp & _ & _ & _ & Hs & Hv).
    exists w'. split; [exact Hrun |].
    rewrite Hs. cbn [theme fontSize lineSpacing].
    split; [apply next_spacings |]. split; [reflexivity |].
    split; [reflexivity |]. split; [now rewrite Hv, Hs |].
    intros c Hc.
    rewrite (hasClass_page _ _ _ Hp), hasClass_modifyRoot by exact H.
    apply contains_bool.
    rewrite (spacingEdit_contains t c _ (next_spacings_plain _)), String.eqb_eq.
    split; [intros [E | [_ Hn]]; [exact E | now elim Hn] | now left].
Qed.

Lemma cycleFontSize_cycleLineSpacing_classes_witness :
  (exists w',
     ReadingAssistantController.cycleFontSize startWorld = (Returned tt, w') /\
     fontSize (controllerSettings w') = "large" /\
     hasClass "reading-assistant-font-large" w' = true) /\
  (exists w',
     ReadingAssistantController.cycleLineSpacing startWorld
     = (Returned tt, w') /\
     lineSpacing (controllerSettings w') = "loose" /\
     hasClass "reading-assistant-line-loose" w' = true).
Proof.
  destruct (cycleFontSize_cycleLineSpacing_classes startWorld
              startWorld_hasRoot eq_refl)
    as [(w1 & R1 & S1 & _ & _ & _ & C1) (w2 & R2 & S2 & _ & _ & _ & C2)].
  split.
  - exists w1. split; [exact R1 |]. split; [exact S1 |].
    rewrite C1, S1; [reflexivity | simpl; auto].
  - exists w2. split; [exact R2 |]. split; [exact S2 |].
    rewrite C2, S2; [reflexivity | simpl; auto].
Defined.

(** ** The settings through the cycles *)

Lemma keepsSettings_bindJ {A B : Type} (m : J A) (k : A -> J B) :
  keepsSettings m -> (forall a, keepsSettings (k a)) ->
  keepsSettings (bindJ m k).
Proof.
  intros Hm Hk w. unfold after, bindJ.
  specialize (Hm w). unfold after in Hm.
  destruct (m w) as [[a | e |] w1]; simpl in *; [| exact Hm | exact Hm].
  rewrite <- Hm. apply Hk.
Qed.

Lemma keepsSettings_forEachJ {A : Type} (l : list A) (f : A -> J unit) :
  (forall x, keepsSettings (f x)) -> keepsSettings (forEachJ l f).
Proof.
  intros Hf. induction l as [| x l IH]; [now intros w |].
  simpl. apply keepsSettings_bindJ; [apply Hf | intros _; exact IH].
Qed.

Lemma keepsSettings_pure {A : Type} (f : world -> outcome A) :
  keepsSettings (fun w => (f w, w)).
Proof. now intros w. Qed.

Lemma keepsSettings_liftM {A : Type} (m : M A) : keepsSettings (liftM m).
Proof.
  intros w. unfold after, liftM. now destruct (m (page w)) as [[a h'] |].
Qed.

Lemma keepsSettings_member {A : Type} (x : option A) :
  keepsSettings (member x).
Proof. now destruct x; intros w. Qed.

Lemma keepsSettings_validateToken (t : string) :
  keepsSettings (validateToken t).
Proof.
  unfold validateToken. destruct (Str.isEmpty t); [now intros w |].
  now destruct (DOMTokenList.hasAsciiWhitespace t); intros w.
Qed.

Lemma keepsSettings_classList (el : nat) (t : string) :
  keepsSettings (classListAdd el t) /\ keepsSettings (classListRemove el t).
Proof.
  split; apply keepsSettings_bindJ;
    try apply keepsSettings_validateToken; intros _; apply keepsSettings_liftM.
Qed.

Lemma keepsSettings_rootStep (f : nat -> J unit) :
  (forall el, keepsSettings (f el)) ->
  keepsSettings (bindJ documentElement (fun root => bindJ (member root) f)).
Proof.
  intros Hf. apply keepsSettings_bindJ; [now intros w |].
  intros root. apply keepsSettings_bindJ; [apply keepsSettings_member | exact Hf].
Qed.

Lemma keepsSettings_setters (x : string) :
  keepsSettings (ReadingModeManager.applyTheme x) /\
  keepsSettings (ReadingModeManager.setFontSize x) /\
  keepsSettings (ReadingModeManager.setLineSpacing x).
Proof.
  split; [| split].
  - apply keepsSettings_bindJ.
    + apply keepsSettings_forEachJ. intros t. apply keepsSettings_rootStep.
      intros el. apply keepsSettings_classList.
    + intros _. apply keepsSettings_bindJ; [| now intros _ w].
      destruct (negb (Str.isEmpty x) && negb (x =? "light")%string);
        [| now intros w].
      apply keepsSettings_rootStep. intros el. apply keepsSettings_classList.
  - apply keepsSettings_bindJ.
    + apply keepsSettings_forEachJ. intros t. apply keepsSettings_rootStep.
      intros el. apply keepsSettings_classList.
    + intros _. apply keepsSettings_rootStep. intros el.
      apply keepsSettings_bindJ; [apply keepsSettings_classList |].
      now intros _ w.
  - apply keepsSettings_bindJ.
    + apply keepsSettings_forEachJ. intros t. apply keepsSettings_rootStep.
      intros el. apply keepsSettings_classList.
    + intros _. apply keepsSettings_rootStep. intros el.
      apply keepsSettings_bindJ; [apply keepsSettings_classList |].
      now intros _ w.
Qed.

Lemma keepsSettings_ifLoaded (m : J unit) :
  keepsSettings m ->
  keepsSettings
    (bindJ ReadingAssistantController.windowReadingModeManager
           (fun loaded =>
              bindJ (if loaded then m else retJ tt)
                    (fun _ => ReadingAssistantController.saveSettings))).
Proof.
  intros Hm. apply keepsSettings_bindJ; [now intros w |].
  intros loaded. apply keepsSettings_bindJ; [| now intros _ w].
  destruct loaded; [exact Hm | now intros w].
Qed.

Lemma cycles_settings (w : world) :
  controllerSettings (after ReadingAssistantController.cycleTheme w)
  = mkSettings
      (ReadingAssistantController.next ["light"; "dark"; "sepia"]
         (theme (controllerSettings w)))
      (fontSize (controllerSettings w)) (lineSpacing (controllerSettings w)) /\
  controllerSettings (after ReadingAssistantController.cycleFontSize w)
  = mkSettings
      (theme (controllerSettings w))
      (ReadingAssistantController.next ["small"; "medium"; "large"; "xlarge"]
         (fontSize (controllerSettings w)))
      (lineSpacing (controllerSettings w)) /\
  controllerSettings (after ReadingAssistantController.cycleLineSpacing w)
  = mkSettings
      (theme (controllerSettings w)) (fontSize (controllerSettings w))
      (ReadingAssistantController.next ["compact"; "normal"; "loose"]
         (lineSpacing (controllerSettings w))).
Proof.
  destruct (keepsSettings_setters
              (ReadingAssistantController.next ["light"; "dark"; "sepia"]
                 (theme (controllerSettings w)))) as (K1 & _ & _).
  destruct (keepsSettings_setters
              (ReadingAssistantController.next
                 ["small"; "medium"; "large"; "xlarge"]
                 (fontSize (controllerSettings w)))) as (_ & K2 & _).
  destruct (keepsSettings_setters
              (ReadingAssistantController.next ["compact"; "normal"; "loose"]
                 (lineSpacing (controllerSettings w)))) as (_ & _ & K3).
  split; [| split].
  - exact (keepsSettings_ifLoaded _ K1 (withSettings _ w)).
  - exact (keepsSettings_ifLoaded _ K2 (withSettings _ w)).
  - exact (keepsSettings_ifLoaded _ K3 (withSettings _ w)).
Qed.

(** X17. The cycles of the controller come back, whatever the page is and
    however the calls end: three times [cycleTheme] from [light], [dark]
    or [sepia] gives the theme back, four times [cycleFontSize] from a
    known size gives the size back, three times [cycleLineSpacing] from a
    known spacing gives the spacing back; and from a value that is not
    known one call gives the first of the list ([light], [small],
    [compact]). *)
Theorem cycles_come_back (w : world) :
  let cT := after ReadingAssistantController.cycleTheme in
  let cF := after ReadingAssistantController.cycleFontSize in
  let cL := after ReadingAssistantController.cycleLineSpacing in
  (In (theme (controllerSettings w)) ["light"; "dark"; "sepia"] ->
   theme (controllerSettings (cT (cT (cT w)))) = theme (controllerSettings w))
  /\
  (In (fontSize (controllerSettings w)) ["small"; "medium"; "large"; "xlarge"] ->
   fontSize (controllerSettings (cF (cF (cF (cF w)))))
   = fontSize (controllerSettings w))
  /\
  (In (lineSpacing (controllerSettings w)) ["compact"; "normal"; "loose"] ->
   lineSpacing (controllerSettings (cL (cL (cL w))))
   = lineSpacing (controllerSettings w))
  /\
  (~ In (theme (controllerSettings w)) ["light"; "dark"; "sepia"] ->
   theme (controllerSettings (cT w)) = "light")
  /\
  (~ In (fontSize (controllerSettings w))
        ["small"; "medium"; "large"; "xlarge"] ->
   fontSize (controllerSettings (cF w)) = "small")
  /\
  (~ In (lineSpacing (controllerSettings w)) ["compact"; "normal"; "loose"] ->
   lineSpacing (controllerSettings (cL w)) = "compact").
Proof.
  cbv zeta.
  assert (T : forall v, theme (controllerSettings
                (after ReadingAssistantController.cycleTheme v))
              = ReadingAssistantController.next ["light"; "dark"; "sepia"]
                  (theme (controllerSettings v)))
    by (intros v; destruct (cycles_settings v) as (-> & _); reflexivity).
  assert (F : forall v, fontSize (controllerSettings
                (after ReadingAssistantController.cycleFontSize v))
              = ReadingAssistantController.next
                  ["small"; "medium"; "large"; "xlarge"]
                  (fontSize (controllerSettings v)))
    by (intros v; destruct (cycles_settings v) as (_ & -> & _); reflexivity).
  assert (L : forall v, lineSpacing (controllerSettings
                (after ReadingAssistantController.cycleLineSpacing v))
              = ReadingAssistantController.next ["compact"; "normal"; "loose"]
                  (lineSpacing (controllerSettings v)))
    by (intros v; destruct (cycles_settings v) as (_ & _ & ->); reflexivity).
  repeat split.
  - rewrite !T. intros [<- | [<- | [<- | []]]]; reflexivity.
  - rewrite !F. intros [<- | [<- | [<- | [<- | []]]]]; reflexivity.
  - rewrite !L. intros [<- | [<- | [<- | []]]]; reflexivity.
  - rewrite T, next_themes. intros Hn.
    destruct ("light" =? theme (controllerSettings w))%string eqn:E1;
      [apply String.eqb_eq in E1; elim Hn; rewrite <- E1; simpl; auto |].
    destruct ("dark" =? theme (controllerSettings w))%string eqn:E2;
      [apply String.eqb_eq in E2; elim Hn; rewrite <- E2; simpl; auto |].
    reflexivity.
  - rewrite F, next_sizes. intros Hn.
    destruct ("small" =? fontSize (controllerSettings w))%string eqn:E1;
      [apply String.eqb_eq in E1; elim Hn; rewrite <- E1; simpl; auto |].
    destruct ("medium" =? fontSize (controllerSettings w))%string eqn:E2;
      [apply String.eqb_eq in E2; elim Hn; rewrite <- E2; simpl; auto |].
    destruct ("large" =? fontSize (controllerSettings w))%string eqn:E3;
      [apply String.eqb_eq in E3; elim Hn; rewrite <- E3; simpl; auto |].
    reflexivity.
  - rewrite L, next_spacings. intros Hn.
    destruct ("compact" =? lineSpacing (controllerSettings w))%string eqn:E1;
      [apply String.eqb_eq in E1; elim Hn; rewrite <- E1; simpl; auto |].
    destruct ("normal" =? lineSpacing (controllerSettings w))%string eqn:E2;
      [apply String.eqb_eq in E2; elim Hn; rewrite <- E2; simpl; auto |].
    reflexivity.
Qed.

Lemma cycles_come_back_witness :
  theme (controllerSettings
           (after ReadingAssistantController.cycleTheme
              (after ReadingAssistantController.cycleTheme
                 (after ReadingAssistantController.cycleTheme startWorld))))
  = "light".
Proof.
  apply (proj1 (cycles_come_back startWorld)). simpl. auto.
Defined.

(** ** All the settings at once *)

Lemma applyCurrentSettings_run (w : world) :
  documentElementOf (page w) <> None -> managerLoaded w = true ->
  DOMTokenList.hasAsciiWhitespace (theme (controllerSettings w)) = false ->
  DOMTokenList.hasAsciiWhitespace (fontSize (controllerSettings w)) = false ->
  DOMTokenList.hasAsciiWhitespace (lineSpacing (controllerSettings w)) = false ->
  exists w',
    ReadingAssistantController.applyCurrentSettings w = (Returned tt, w') /\
    dispatched w'
    = dispatched w
      ++ [mkEvent "reading-assistant-theme-changed"
                  (ThemeDetail (theme (controllerSettings w)));
          mkEvent "reading-assistant-font-size-changed"
                  (SizeDetail (fontSize (controllerSettings w)));
          mkEvent "reading-assistant-line-spacing-changed"
                  (SpacingDetail (lineSpacing (controllerSettings w)))] /\
    rootAttributes (page w')
    = spacingEdit (lineSpacing (controllerSettings w))
        (sizeEdit (fontSize (controllerSettings w))
           (themeEdit (theme (controllerSettings w))
              (rootAttributes (page w)))).
Proof.
  intros H Hl Ht Hf Hs.
  unfold ReadingAssistantController.applyCurrentSettings.
  unfold bindJ at 1.
  unfold ReadingAssistantController.windowReadingModeManager at 1.
  rewrite Hl.
  unfold bindJ at 1. unfold ReadingAssistantController.getSettings at 1.
  rewrite (bindJ_returned _ _ _ _ _ (applyTheme_run w _ H Ht)).
  set (w1 := addEvent _ (modifyRoot (themeEdit _) w)).
  assert (H1 : documentElementOf (page w1) <> None)
    by (now apply modifyRoot_hasRoot).
  assert (S1 : controllerSettings w1 = controllerSettings w)
    by apply modifyRoot_fields.
  unfold bindJ at 1. unfold ReadingAssistantController.getSettings at 1.
  rewrite S1.
  rewrite (bindJ_returned _ _ _ _ _ (setFontSize_run w1 _ H1 Hf)).
  set (w2 := addEvent _ (modifyRoot (sizeEdit _) w1)).
  assert (H2 : documentElementOf (page w2) <> None)
    by (now apply modifyRoot_hasRoot).
  assert (S2 : controllerSettings w2 = controllerSettings w)
    by (rewrite <- S1; apply modifyRoot_fields).
  unfold bindJ at 1. unfold ReadingAssistantController.getSettings at 1.
  rewrite S2.
  rewrite (setLineSpacing_run w2 _ H2 Hs).
  eexists. split; [reflexivity |]. split.
  - cbn [dispatched addEvent].
    destruct (modifyRoot_fields
                (spacingEdit (lineSpacing (controllerSettings w))) w2)
      as (_ & -> & _).
    unfold w2. cbn [dispatched addEvent].
    destruct (modifyRoot_fields
                (sizeEdit (fontSize (controllerSettings w))) w1)
      as (_ & -> & _).
    unfold w1. cbn [dispatched addEvent].
    destruct (modifyRoot_fields
                (themeEdit (theme (controllerSettings w))) w)
      as (_ & -> & _).
    now rewrite <- !app_assoc.
  - cbn [page addEvent].
    rewrite modifyRoot_rootAttributes by exact H2.
    unfold w2. cbn [page addEvent].
    rewrite modifyRoot_rootAttributes by exact H1.
    unfold w1. cbn [page addEvent].
    now rewrite modifyRoot_rootAttributes by exact H.
Qed.

Lemma In_sizes_font (c : string) :
  In c ReadingModeManager.sizes ->
  exists x, c = ("reading-assistant-font-" ++ x)%string.
Proof.
  simpl. intros [<- | [<- | [<- | [<- | []]]]];
    [exists "small" | exists "medium" | exists "large" | exists "xlarge"];
    reflexivity.
Qed.

Lemma In_spacings_line (c : string) :
  In c ReadingModeManager.spacings ->
  exists x, c = ("reading-assistant-line-" ++ x)%string.
Proof.
  simpl. intros [<- | [<- | [<- | []]]];
    [exists "compact" | exists "normal" | exists "loose"]; reflexivity.
Qed.

Lemma font_not_line (x y : string) :
  ("reading-assistant-font-" ++ x)%string
  <> ("reading-assistant-line-" ++ y)%string.
Proof. simpl. discriminate. Qed.

Lemma themes_not_font (c x : string) :
  In c ReadingModeManager.themes ->
  c <> ("reading-assistant-font-" ++ x)%string.
Proof. simpl. intros [<- | [<- | [<- | []]]]; discriminate. Qed.

Lemma themes_not_line (c x : string) :
  In c ReadingModeManager.themes ->
  c <> ("reading-assistant-line-" ++ x)%string.
Proof. simpl. intros [<- | [<- | [<- | []]]]; discriminate. Qed.

(** X18. [applyCurrentSettings], on a page with a document element and
    the manager loaded, for settings without white space: it returns,
    dispatches the three events in the order theme, size, spacing, and
    leaves on the document element, of the known size classes exactly the
    one of the size setting, of the known spacing classes exactly the one
    of the spacing setting, and, when the theme is [light], [dark] or
    [sepia], of the theme classes exactly the one of the theme, none for
    [light]: the three setters do not disturb one another. *)
Theorem applyCurrentSettings_classes (w : world) :
  documentElementOf (page w) <> None -> managerLoaded w = true ->
  DOMTokenList.hasAsciiWhitespace (theme (controllerSettings w)) = false ->
  DOMTokenList.hasAsciiWhitespace (fontSize (controllerSettings w)) = false ->
  DOMTokenList.hasAsciiWhitespace (lineSpacing (controllerSettings w)) = false ->
  exists w',
    ReadingAssistantController.applyCurrentSettings w = (Returned tt, w') /\
    dispatched w'
    = dispatched w
      ++ [mkEvent "reading-assistant-theme-changed"
                  (ThemeDetail (theme (controllerSettings w)));
          mkEvent "reading-assistant-font-size-changed"
                  (SizeDetail (fontSize (controllerSettings w)));
          mkEvent "reading-assistant-line-spacing-changed"
                  (SpacingDetail (lineSpacing (controllerSettings w)))] /\
    (forall c, In c ReadingModeManager.sizes ->
       hasClass c w'
       = (c =? "reading-assistant-font-" ++ fontSize (controllerSettings w))%string)
    /\
    (forall c, In c ReadingModeManager.spacings ->
       hasClass c w'
       = (c =? "reading-assistant-line-"
               ++ lineSpacing (controllerSettings w))%string)
    /\
    (In (theme (controllerSettings w)) ["light"; "dark"; "sepia"] ->
     forall c, In c ReadingModeManager.themes ->
       hasClass c w'
       = (c =? "reading-assistant-" ++ theme (controllerSettings w))%string
         && negb (theme (controllerSettings w) =? "light")%string).
Proof.
  intros H Hl Ht Hf Hs.
  destruct (applyCurrentSettings_run w H Hl Ht Hf Hs) as (w' & Hrun & Hd & Ha).
  exists w'. split; [exact Hrun |]. split; [exact Hd |].
  unfold hasClass. rewrite Ha.
  set (a := rootAttributes (page w)).
  set (th := theme (controllerSettings w)) in *.
  set (sz := fontSize (controllerSettings w)) in *.
  set (sp := lineSpacing (controllerSettings w)) in *.
  split; [| split].
  - intros c Hc. apply contains_bool.
    rewrite (spacingEdit_contains sp c _ Hs), (sizeEdit_contains sz c _ Hf),
      String.eqb_eq.
    split.
    + intros [E | [[E | [_ Hn]] _]]; [| exact E | now elim Hn].
      destruct (In_sizes_font c Hc) as (x & ->). now apply font_not_line in E.
    + intros E. right. split; [now left |].
      intros Hin. destruct (In_sizes_font c Hc) as (x & ->).
      destruct (In_spacings_line _ Hin) as (y & E').
      now apply font_not_line in E'.
  - intros c Hc. apply contains_bool.
    rewrite (spacingEdit_contains sp c _ Hs), String.eqb_eq.
    split; [intros [E | [_ Hn]]; [exact E | now elim Hn] | now left].
  - intros Hth c Hc. apply contains_bool.
    rewrite (spacingEdit_contains sp c _ Hs), (sizeEdit_contains sz c _ Hf),
      (themeEdit_contains th c _ Ht), andb_true_iff, negb_true_iff,
      String.eqb_eq, String.eqb_neq.
    split.
    + intros [E | [[E | [[(_ & Hnl & E) | [_ Hn]] _]] _]].
      * now apply themes_not_line in E.
      * now apply themes_not_font in E.
      * now split.
      * now elim Hn.
    + intros [E Hnl]. right. split.
      * right. split.
        -- left. repeat split; [| exact Hnl | exact E].
           intros E0. rewrite E0 in Hth. simpl in Hth.
           destruct Hth as [X | [X | [X | []]]]; discriminate.
        -- intros Hin. destruct (In_sizes_font _ Hin) as (y & E').
           now apply themes_not_font in E'.
      * intros Hin. destruct (In_spacings_line _ Hin) as (y & E').
        now apply themes_not_line in E'.
Qed.

Lemma applyCurrentSettings_classes_witness :
  exists w',
    ReadingAssistantController.applyCurrentSettings startWorld
    = (Returned tt, w') /\
    hasClass "reading-assistant-font-medium" w' = true /\
    hasClass "reading-assistant-line-normal" w' = true /\
    hasClass "reading-assistant-light" w' = false.
Proof.
  destruct (applyCurrentSettings_classes startWorld startWorld_hasRoot
              eq_refl eq_refl eq_refl eq_refl)
    as (w' & Hrun & _ & Hf & Hs & Ht).
  exists w'. split; [exact Hrun |].
  split; [rewrite Hf; [reflexivity | simpl; auto] |].
  split; [rewrite Hs; [reflexivity | simpl; auto] |].
  rewrite Ht; [reflexivity | simpl; auto | simpl; auto].
Defined.


(* ================================================================== *)
(** * The reading mode *)

Lemma find_hasId_In (l : list node) (e : node) :
  In e l -> isElement e = true ->
  exists n, find (hasId (nodeId e)) l = Some n.
Proof.
  intros Hin He. destruct (find (hasId (nodeId e)) l) as [n |] eqn:E;
    [now exists n |].
  pose proof (find_none _ _ E e Hin) as H. unfold hasId in H.
  now rewrite He, Nat.eqb_refl in H.
Qed.

Lemma documentElementOf_In (h : heap) (root : node) :
  documentElementOf h = Some root ->
  In root (documentNodes h) /\ isElement root = true.
Proof. intros H. now apply find_some in H. Qed.

Lemma bodyOf_In (h : heap) (b : node) :
  bodyOf h = Some b ->
  exists root, documentElementOf h = Some root /\
               nodeName root = "html" /\
               In b (children root) /\ isElement b = true.
Proof.
  unfold bodyOf. intros H.
  destruct (documentElementOf h) as [root |] eqn:E; [| discriminate].
  destruct (nodeName root =? "html")%string eqn:N; [| discriminate].
  apply find_some in H as [Hin Hb]. unfold isBody in Hb.
  apply andb_prop in Hb as [Hb _].
  exists root. repeat split; try assumption. now apply String.eqb_eq.
Qed.

Lemma children_descendants (n c : node) :
  In c (children n) -> isElement c = true -> In c (descendants n).
Proof.
  intros Hin Hc. unfold descendants.
  apply (in_elementsIn _ c); [exact Hin |].
  destruct (elementsOf_self c Hc) as [rest ->]. now left.
Qed.

Lemma bodyOf_element (h : heap) (b : node) :
  bodyOf h = Some b ->
  In b (elementsIn (documentNodes h)) /\ isElement b = true.
Proof.
  intros H. destruct (bodyOf_In h b H) as (root & Hr & _ & Hin & Hb).
  split; [| exact Hb].
  destruct (documentElementOf_In h root Hr) as [Hroot He].
  apply (in_elementsIn _ root); [exact Hroot |].
  rewrite (elementsOf_cons root He). right.
  now apply children_descendants.
Qed.

Lemma bodyOf_resolve (h : heap) (b : node) :
  bodyOf h = Some b ->
  exists n, resolve (nodeId b) h = Some n /\ isElement n = true.
Proof.
  intros H. destruct (bodyOf_element h b H) as [Hin Hb].
  destruct (find_hasId_In (elementsIn (documentNodes h ++ detachedTrees h)) b)
    as [n Hn]; [| exact Hb |].
  - rewrite elementsIn_app. apply in_or_app. now left.
  - exists n. split; [exact Hn |].
    apply find_some in Hn as [_ Hn]. unfold hasId in Hn.
    now apply andb_prop in Hn.
Qed.

Lemma theBody_run (w : world) (b : node) :
  bodyOf (page w) = Some b ->
  ReadingModeManager.theBody w = (Returned (nodeId b), w).
Proof.
  intros H. unfold ReadingModeManager.theBody, bindJ, documentBody.
  now rewrite H.
Qed.

Lemma theBody_none (w : world) :
  bodyOf (page w) = None ->
  ReadingModeManager.theBody w = (Thrown TypeError, w).
Proof.
  intros H. unfold ReadingModeManager.theBody, bindJ, documentBody.
  now rewrite H.
Qed.

Lemma cloneNode_run (h : heap) (r : nat) (n : node) :
  resolve r h = Some n -> isElement n = true ->
  cloneNode r h
  = Some (nextId h,
          mkHeap (snd (cloneTree n (nextId h))) (documentNodes h)
                 (detachedTrees h ++ [fst (cloneTree n (nextId h))])).
Proof.
  intros H He. unfold cloneNode. rewrite H.
  destruct (cloneTree_root n (nextId h) He) as (_ & Hid & _).
  destruct (cloneTree n (nextId h)) as [n' nx]. simpl in *. now rewrite Hid.
Qed.

Lemma liftM_run {A : Type} (m : M A) (w : world) (a : A) (h' : heap) :
  m (page w) = Some (a, h') -> liftM m w = (Returned a, withPage h' w).
Proof. intros H. unfold liftM. now rewrite H. Qed.

Lemma tryCatch_thrown {A : Type} (m : J A) (handler : exn -> J A)
  (w w' : world) (e : exn) :
  m w = (Thrown e, w') -> tryCatch m handler w = handler e w'.
Proof. intros H. unfold tryCatch. now rewrite H. Qed.


Lemma getThis_bind {B : Type} (k : manager -> J B) (w : world) :
  bindJ ReadingModeManager.getThis k w = k (this w) w.
Proof. reflexivity. Qed.

Lemma putThis_bind {B : Type} (m : manager) (k : unit -> J B) (w : world) :
  bindJ (ReadingModeManager.putThis m) k w = k tt (withThis m w).
Proof. reflexivity. Qed.

Lemma extractMainContent_bind {B : Type} (k : option nat -> J B) (w : world) :
  bindJ ReadingModeManager.extractMainContent k w
  = k (option_map nodeId
         (ContentExtractor.extractMainContent (documentNodes (page w)))) w.
Proof. reflexivity. Qed.

Section Activate.

Variable cssGet : string -> option string -> string.
Variable cssSet : string -> string -> option string -> option string.

(** X19. [activate] fails without a trace in the document.  On an
    inactive manager, when the locator finds no content, [activate]
    returns with the manager still inactive and the document as it was;
    a copy of the body is kept in [originalContent], and one event
    [reading-assistant-reading-mode-error] is dispatched, with the message
    of the error thrown.  Without a body the same happens with the
    [TypeError] of [document.body.cloneNode], and nothing is kept. *)
Theorem activate_fails (w : world) :
  isActive (this w) = false ->
  (forall b,
     bodyOf (page w) = Some b ->
     ContentExtractor.extractMainContent (documentNodes (page w)) = None ->
     exists w',
       ReadingModeManager.activate cssGet cssSet w = (Returned tt, w') /\
       isActive (this w') = false /\
       originalContent (this w') = Some (nextId (page w)) /\
       readingContainer (this w') = readingContainer (this w) /\
       documentNodes (page w') = documentNodes (page w) /\
       dispatched w'
       = dispatched w
         ++ [mkEvent "reading-assistant-reading-mode-error"
               (ErrorDetail (Error ReadingModeManager.noContentMessage))]) /\
  (bodyOf (page w) = None ->
   ReadingModeManager.activate cssGet cssSet w
   = (Returned tt,
      addEvent (mkEvent "reading-assistant-reading-mode-error"
                        (ErrorDetail TypeError)) w)).
Proof.
  intros Hina. split.
  - intros b Hb Hnone.
    destruct (bodyOf_resolve (page w) b Hb) as (n & Hn & He).
    unfold ReadingModeManager.activate.
    rewrite getThis_bind, Hina.
    erewrite tryCatch_thrown.
    2:{ rewrite (bindJ_returned _ _ _ _ _ (theBody_run w b Hb)).
        rewrite (bindJ_returned _ _ _ _ _
                   (liftM_run _ w _ _
                      (cloneNode_run (page w) (nodeId b) n Hn He))).
        rewrite getThis_bind, putThis_bind, extractMainContent_bind.
        cbn [page withThis withPage documentNodes]. rewrite Hnone.
        reflexivity. }
    eexists. split; [reflexivity |].
    cbn. rewrite Hina. repeat split; reflexivity.
  - intros Hb. unfold ReadingModeManager.activate.
    rewrite getThis_bind, Hina.
    rewrite (tryCatch_thrown _ _ w w TypeError);
      [reflexivity | apply bindJ_thrown, theBody_none, Hb].
Qed.

End Activate.

Lemma activate_fails_witness :
  exists w',
    ReadingModeManager.activate noCssGet noCssSet shortWorld = (Returned tt, w') /\
    isActive (this w') = false /\
    documentNodes (page w') = shortPage.
Proof.
  destruct (proj1 (activate_fails noCssGet noCssSet shortWorld eq_refl) _ eq_refl eq_refl)
    as (w' & Hrun & Hi & _ & _ & Hd & _).
  exists w'. split; [exact Hrun |]. split; [exact Hi | exact Hd].
Defined.

(** ** Trees and fresh identities *)


Lemma absent_cons (r : nat) (n : node) (l : list node) :
  absent r (n :: l) <->
  (forall e, In e (elementsOf n) -> nodeId e <> r) /\ absent r l.
Proof.
  unfold absent, elementsIn. simpl. split.
  - intros H. split; intros e He; apply H; apply in_or_app;
      [now left | now right].
  - intros [H1 H2] e He. apply in_app_or in He as [He | He];
      [now apply H1 | now apply H2].
Qed.

Lemma absent_nil (r : nat) : absent r [].
Proof. intros e []. Qed.

Lemma absent_below (r lo : nat) (l : list node) :
  (forall e, In e (elementsIn l) -> nodeId e < lo) -> lo <= r -> absent r l.
Proof. intros H Hr e He. apply H in He. lia. Qed.










(** ** The reading container *)



Lemma bodyOf_documentNodes (h h' : heap) :
  documentNodes h' = documentNodes h -> bodyOf h' = bodyOf h.
Proof. intros E. unfold bodyOf, documentElementOf. now rewrite E. Qed.





(** ** Hiding the children of the body *)































Section Hide.

Variable cssGet : string -> option string -> string.
Variable cssSet : string -> string -> option string -> option string.


End Hide.

(** ** Identities of the document *)


















(** ** [activate], step by step *)









Lemma hideEdit_container (c : nat) (F : node) :
  hideEdit (nodeAttributes (containerOf c F)) = nodeAttributes (containerOf c F).
Proof. reflexivity. Qed.

Section Activation.

Variable cssGet : string -> option string -> string.
Variable cssSet : string -> string -> option string -> option string.


End Activation.

Section ActivationRun.

Variable cssGet : string -> option string -> string.
Variable cssSet : string -> string -> option string -> option string.



End ActivationRun.



(** ** Showing the page again *)













Section Showing.

Variable cssSet : string -> string -> option string -> option string.



End Showing.

(** ** What the way there and back leaves of the attributes *)







Section Attributes.

Variable cssSet : string -> string -> option string -> option string.
Variables (rootId b : nat) (kids : list nat) (ov bg : string).









End Attributes.

Section RoundTrip.

Variable cssGet : string -> option string -> string.
Variable cssSet : string -> string -> option string -> option string.


End RoundTrip.

